(** * Ghana electricity tariff engine: bill calculation and bill inversion

    A shallow embedding of [calculator.py] (the tariff table and
    [calculate_bill]) and of the reverse-calculation helper
    [invert_bill_to_kwh] of [app.py].

    Python's [float] is IEEE 754 binary64.  The program is written once,
    over an interface of arithmetic operations ([Arith]), and read at two
    instances: [Binary64] (the kernel's primitive floats, which are binary64
    with round-to-nearest-even, i.e. what the interpreter computes) and
    [Exact] (rational arithmetic without rounding). *)

From Stdlib Require Import ZArith QArith Qabs Floats String List Bool Lia Lqa.
Import ListNotations.

Set Warnings "-inexact-float".
Local Open Scope string_scope.

(** ** Arithmetic interface *)

Declare Scope arith_scope.
Delimit Scope arith_scope with A.

Class Arith (F : Type) : Type := {
  fadd : F -> F -> F;
  fsub : F -> F -> F;
  fmul : F -> F -> F;
  fdiv : F -> F -> F;
  fabs : F -> F;
  fltb : F -> F -> bool;
  fleb : F -> F -> bool;
  (** a decimal literal of the source text *)
  flit : Q -> F
}.

Infix "+" := fadd : arith_scope.
Infix "-" := fsub : arith_scope.
Infix "*" := fmul : arith_scope.
Infix "/" := fdiv : arith_scope.
Infix "<?" := fltb : arith_scope.
Infix "<=?" := fleb : arith_scope.
Notation "x >? y" := (fltb y x) (only parsing) : arith_scope.
Notation "# q" := (flit q%Q) (at level 5, format "# q") : arith_scope.

(** Binary64: a decimal literal [n / 10^k] is the correctly rounded quotient
    of two integers that binary64 represents exactly, which is the value the
    Python parser gives the literal. *)
Definition float_of_Q (q : Q) : float :=
  PrimFloat.div (PrimFloat.of_uint63 (Uint63.of_Z (Qnum q)))
                (PrimFloat.of_uint63 (Uint63.of_Z (Zpos (Qden q)))).

#[export] Instance Binary64 : Arith float := {
  fadd := PrimFloat.add;
  fsub := PrimFloat.sub;
  fmul := PrimFloat.mul;
  fdiv := PrimFloat.div;
  fabs := PrimFloat.abs;
  fltb := PrimFloat.ltb;
  fleb := PrimFloat.leb;
  flit := float_of_Q
}.

(** Exact rational arithmetic; results are kept in lowest terms. *)
Definition Qltb (x y : Q) : bool := negb (Qle_bool y x).

#[export] Instance Exact : Arith Q := {
  fadd := fun x y => Qred (Qplus x y);
  fsub := fun x y => Qred (Qminus x y);
  fmul := fun x y => Qred (Qmult x y);
  fdiv := fun x y => Qred (Qdiv x y);
  fabs := Qabs;
  fltb := Qltb;
  fleb := Qle_bool;
  flit := Qred
}.

(** ** Errors

    Every failure of the engine is a Python exception that propagates to
    the caller: [ValueError] from [calculate_bill], [RuntimeError] from the
    inversion, and [KeyError] for a missing dictionary key. *)

Inductive exn : Type :=
| ValueError (msg : string)
| RuntimeError (msg : string)
| KeyError (key : string).

Inductive result (A : Type) : Type :=
| Ok (a : A)
| Raise (e : exn).
Arguments Ok {A} a.
Arguments Raise {A} e.

Definition bind {A B} (c : result A) (k : A -> result B) : result B :=
  match c with
  | Ok a => k a
  | Raise e => Raise e
  end.

Notation "x <- c ;; k" := (bind c (fun x => k))
  (at level 61, c at next level, right associativity).
Notation "' pat <- c ;; k" := (bind c (fun x => match x with pat => k end))
  (at level 61, pat pattern, c at next level, right associativity).

(** The spec's names for the three kinds of failure. *)
Definition ConfigurationError : exn := ValueError "Unsupported tariff year.".
Definition InvalidInput_negative : exn := ValueError "kWh cannot be negative.".
Definition InvalidInput_category : exn := ValueError "Unsupported customer category.".
Definition SearchBoundError : exn :=
  RuntimeError "Unable to estimate kWh for this bill amount.".

(** ** Dictionaries with string keys *)

Definition dict (V : Type) : Type := list (string * V).

Fixpoint lookup {V} (k : string) (d : dict V) : option V :=
  match d with
  | [] => None
  | (k', v) :: d' => if String.eqb k k' then Some v else lookup k d'
  end.

(** [k in d] *)
Definition mem {V} (k : string) (d : dict V) : bool :=
  match lookup k d with Some _ => true | None => false end.

(** [d[k]] *)
Definition getitem {V} (d : dict V) (k : string) : result V :=
  match lookup k d with
  | Some v => Ok v
  | None => Raise (KeyError k)
  end.

Section Calculator.
Context {F : Type} {AF : Arith F}.
Local Open Scope arith_scope.

(** ** Constants *)
Definition RES_LIFELINE_MAX : F := #30.0.
Definition BLOCK_300 : F := #300.0.
Definition LEVY_RATE : F := #0.05.
Definition TAX_RATE : F := #0.20.

(** ** Tariff data *)
Record tariff : Type := {
  rates : dict F;
  service : dict F
}.

Definition TARIFFS : dict tariff := [
  ("2025", {|
     rates := [
       ("RES_LIFELINE", #80.4389 / #100);
       ("RES_B1", #182.2442 / #100);
       ("RES_B2", #240.8059 / #100);
       ("NONRES_B1", #164.5377 / #100);
       ("NONRES_B2", #204.4809 / #100);
       ("SLT_LV", #245.5597 / #100);
       ("SLT_MV1", #196.0119 / #100);
       ("SLT_MV2", #127.8861 / #100);
       ("SLT_HV", #196.0119 / #100) ];
     service := [
       ("Residential (Lifeline)", #2.13);
       ("Residential (Other)", #10.7301);
       ("Non-Residential", #12.428);
       ("SLT", #500.00) ] |});
  ("2026", {|
     rates := [
       ("RES_LIFELINE", #88.3739 / #100);
       ("RES_B1", #200.2218 / #100);
       ("RES_B2", #264.5604 / #100);
       ("NONRES_B1", #180.7687 / #100);
       ("NONRES_B2", #224.6521 / #100);
       ("SLT_LV", #269.7832 / #100);
       ("SLT_MV1", #215.3477 / #100);
       ("SLT_MV2", #134.2804 / #100);
       ("SLT_HV", #215.3477 / #100) ];
     service := [
       ("Residential (Lifeline)", #2.13);
       ("Residential (Other)", #10.730886);
       ("Non-Residential", #12.428245);
       ("SLT", #500.00) ] |})
].

(** ** Data models *)
Record BillLine : Type := {
  label : string;
  amount : F
}.

Record BillResult : Type := {
  year : string;
  category : string;
  kwh : F;
  energy_charge : F;
  service_charge : F;
  levy : F;
  tax : F;
  total : F;
  breakdown : list BillLine
}.

(** ** Helpers *)
Definition is_taxable (category : string) : bool :=
  negb (String.prefix "Residential" category).

(** Python's [min(a, b)] and [max(a, b)] keep the first argument unless
    the second is strictly smaller (resp. greater). *)
Definition py_min (a b : F) : F := if b <? a then b else a.
Definition py_max (a b : F) : F := if b >? a then b else a.

(** The two-block split shared by Residential (above the lifeline) and
    Non-Residential: energy of block 1, energy of block 2 and the
    consumption of block 2. *)
Definition blocks (kwh r1 r2 : F) : F * F * F :=
  let kwh_b1 := py_min kwh BLOCK_300 in
  let kwh_b2 := py_max #0.0 (kwh - BLOCK_300) in
  (kwh_b1 * r1, kwh_b2 * r2, kwh_b2).

Definition block_lines (e1 e2 kwh_b2 : F) : list BillLine :=
  {| label := "Energy charge block 1"; amount := e1 |} ::
  (if kwh_b2 >? #0 then [{| label := "Energy charge block 2"; amount := e2 |}]
   else []).

(** The energy part: energy charge, service charge and the energy lines
    of the breakdown. *)
Definition energy_part (rates services : dict F) (category : string) (kwh : F)
  : result (F * F * list BillLine) :=
  if String.eqb category "Residential" then
    if kwh <=? RES_LIFELINE_MAX then
      r <- getitem rates "RES_LIFELINE" ;;
      let energy := kwh * r in
      service <- getitem services "Residential (Lifeline)" ;;
      Ok (energy, service,
          [{| label := "Energy charge (Lifeline)"; amount := energy |}])
    else
      r1 <- getitem rates "RES_B1" ;;
      r2 <- getitem rates "RES_B2" ;;
      let '(e1, e2, kwh_b2) := blocks kwh r1 r2 in
      let energy := e1 + e2 in
      service <- getitem services "Residential (Other)" ;;
      Ok (energy, service, block_lines e1 e2 kwh_b2)
  else if String.eqb category "Non-Residential" then
    r1 <- getitem rates "NONRES_B1" ;;
    r2 <- getitem rates "NONRES_B2" ;;
    let '(e1, e2, kwh_b2) := blocks kwh r1 r2 in
    let energy := e1 + e2 in
    service <- getitem services "Non-Residential" ;;
    Ok (energy, service, block_lines e1 e2 kwh_b2)
  else
    lv <- getitem rates "SLT_LV" ;;
    mv1 <- getitem rates "SLT_MV1" ;;
    mv2 <- getitem rates "SLT_MV2" ;;
    hv <- getitem rates "SLT_HV" ;;
    let rate_map : dict F := [
      ("SLT-LV", lv);
      ("SLT-MV1/HV", mv1);
      ("SLT-MV2", mv2);
      ("SLT-HV", hv);
      ("SLT-HV MINES", hv) ] in
    if negb (mem category rate_map) then Raise InvalidInput_category
    else
      r <- getitem rate_map category ;;
      let energy := kwh * r in
      service <- getitem services "SLT" ;;
      Ok (energy, service, [{| label := "Energy charge"; amount := energy |}]).

(** ** Core calculation *)
Definition calculate_bill (year category : string) (kwh : F) : result BillResult :=
  if negb (mem year TARIFFS) then Raise ConfigurationError
  else if kwh <? #0 then Raise InvalidInput_negative
  else
    tariff <- getitem TARIFFS year ;;
    '(energy, service, lines) <- energy_part (rates tariff) (service tariff) category kwh ;;
    let levy := LEVY_RATE * energy in
    let tax := if is_taxable category then TAX_RATE * (energy + service) else #0.0 in
    let breakdown := (lines ++ [
      {| label := "Service charge"; amount := service |};
      {| label := "Levies"; amount := levy |};
      {| label := "Taxes"; amount := tax |} ])%list in
    let total := energy + service + levy + tax in
    let breakdown :=
      (breakdown ++ [{| label := "Total payable"; amount := total |}])%list in
    Ok {| year := year; category := category; kwh := kwh;
          energy_charge := energy; service_charge := service;
          levy := levy; tax := tax; total := total;
          breakdown := breakdown |}.

End Calculator.

Arguments tariff F : clear implicits.
Arguments BillLine F : clear implicits.
Arguments BillResult F : clear implicits.

(** ** Reverse calculation helper *)

Section Inverter.
Context {F : Type} {AF : Arith F}.
Local Open Scope arith_scope.

(** [total_at x] is the call [calculate_bill(year, category, x).total]. *)
Variable total_at : F -> result F.
Variables target_total tol : F.

(** The bracket expansion
    [while total_at(hi) < target_total: hi *= 2; if hi > 1_000_000: raise].
    [None] means that the fuel ran out before the loop ended. *)
Fixpoint expand (fuel : nat) (hi : F) : option (result F) :=
  match fuel with
  | O => None
  | S fuel' =>
      match total_at hi with
      | Raise e => Some (Raise e)
      | Ok t =>
          if t <? target_total then
            let hi := hi * #2 in
            if hi >? #1000000 then Some (Raise SearchBoundError)
            else expand fuel' hi
          else Some (Ok hi)
      end
  end.

(** The bisection [for _ in range(max_iter): ...] and the final
    [return (lo + hi) / 2]. *)
Fixpoint bisect (max_iter : nat) (lo hi : F) : result F :=
  match max_iter with
  | O => Ok ((lo + hi) / #2)
  | S n =>
      let mid := (lo + hi) / #2 in
      t <- total_at mid ;;
      let diff := t - target_total in
      if fabs diff <=? tol then Ok mid
      else if diff <? #0 then bisect n mid hi
      else bisect n lo mid
  end.

Definition invert_search (max_iter fuel : nat) : option (result F) :=
  if target_total <=? #0 then Some (Ok #0.0)
  else
    match expand fuel #1.0 with
    | None => None
    | Some (Raise e) => Some (Raise e)
    | Some (Ok hi) => Some (bisect max_iter #0.0 hi)
    end.
End Inverter.

Section InvertBill.
Context {F : Type} {AF : Arith F}.
Local Open Scope arith_scope.

Definition bill_total (year category : string) (x : F) : result F :=
  r <- calculate_bill year category x ;; Ok (total r).

Definition invert_bill_to_kwh (year category : string) (target_total tol : F)
    (max_iter fuel : nat) : option (result F) :=
  invert_search (bill_total year category) target_total tol max_iter fuel.

(** The defaults [tol=0.01, max_iter=60]. *)
Definition invert_bill_to_kwh_default (year category : string) (target_total : F)
    (fuel : nat) : option (result F) :=
  invert_bill_to_kwh year category target_total #0.01 60 fuel.
End InvertBill.

(** ** Supported inputs *)

Definition YEARS : list string := ["2025"; "2026"].

Definition CATEGORIES : list string :=
  ["Residential"; "Non-Residential"; "SLT-LV"; "SLT-MV1/HV"; "SLT-MV2";
   "SLT-HV"; "SLT-HV MINES"].

Definition SLT_CATEGORIES : list string :=
  ["SLT-LV"; "SLT-MV1/HV"; "SLT-MV2"; "SLT-HV"; "SLT-HV MINES"].

(** ** What the proofs need of the arithmetic *)

Class ArithLaws (F : Type) {AF : Arith F} : Prop := {
  (** a number that is [>= 0] is not [< 0] *)
  nonneg_not_neg : forall x : F, fleb (flit 0) x = true -> fltb x (flit 0) = false;
  (** [x < y] excludes [y <= x] *)
  lt_not_le : forall x y : F, fltb x y = true -> fleb y x = false;
  (** doubling [1.0] twenty times gives more than [1_000_000] *)
  doubling_exceeds :
    fltb (flit 1000000) (Nat.iter 20 (fun h => fmul h (flit 2)) (flit 1)) = true
}.

(** *** Binary64 comparisons *)

Lemma float_zero_spec : Prim2SF (float_of_Q 0) = S754_zero false.
Proof. reflexivity. Qed.

Lemma SFcompare_antisym (x y : spec_float) :
  SFcompare y x = option_map CompOpp (SFcompare x y).
Proof.
  destruct x as [[]|[]| |[] m e], y as [[]|[]| |[] m' e']; try reflexivity.
  all: cbn; rewrite (Z.compare_antisym e e'); destruct (e ?= e')%Z; cbn; try reflexivity.
  all: change (Pos.compare_cont Eq m' m) with (Pos.compare m' m);
       change (Pos.compare_cont Eq m m') with (Pos.compare m m');
       rewrite (Pos.compare_antisym m m'); reflexivity.
Qed.

Lemma float_lt_not_le (x y : float) :
  PrimFloat.ltb x y = true -> PrimFloat.leb y x = false.
Proof.
  rewrite ltb_spec, leb_spec. unfold SFltb, SFleb.
  rewrite (SFcompare_antisym (Prim2SF x) (Prim2SF y)).
  destruct (SFcompare (Prim2SF x) (Prim2SF y)) as [[]|]; cbn; congruence.
Qed.

#[export] Instance Binary64_laws : ArithLaws float.
Proof.
  split.
  - intros x.
    change (PrimFloat.leb (float_of_Q 0) x = true ->
            PrimFloat.ltb x (float_of_Q 0) = false).
    rewrite leb_spec, ltb_spec, float_zero_spec.
    destruct (Prim2SF x) as [[]|[]| |[] m e]; cbn; congruence.
  - exact float_lt_not_le.
  - vm_compute. reflexivity.
Qed.

#[export] Instance Exact_laws : ArithLaws Q.
Proof.
  split.
  - intros x H. cbn in *. unfold Qltb. now rewrite H.
  - intros x y. cbn. unfold Qltb. now destruct (Qle_bool y x).
  - vm_compute. reflexivity.
Qed.

(** ** The shape of a successful calculation *)

Section CalculatorFacts.
Context {F : Type} {AF : Arith F}.
Local Open Scope arith_scope.

Definition tax_of (category : string) (energy service : F) : F :=
  if is_taxable category then TAX_RATE * (energy + service) else #0.0.

Definition bill_of (year category : string) (kwh energy service : F)
    (lines : list (BillLine F)) : BillResult F :=
  let levy := LEVY_RATE * energy in
  let tax := tax_of category energy service in
  let total := energy + service + levy + tax in
  {| year := year; category := category; kwh := kwh;
     energy_charge := energy; service_charge := service;
     levy := levy; tax := tax; total := total;
     breakdown :=
       (lines ++ [
          {| label := "Service charge"; amount := service |};
          {| label := "Levies"; amount := levy |};
          {| label := "Taxes"; amount := tax |};
          {| label := "Total payable"; amount := total |} ])%list |}.

Lemma lookup_TARIFFS (y : string) (t : tariff F) :
  lookup y TARIFFS = Some t -> In y YEARS.
Proof.
  unfold TARIFFS, YEARS. cbn.
  destruct (String.eqb_spec y "2025") as [->|_]; [now left|].
  destruct (String.eqb_spec y "2026") as [->|_]; [now right; left|].
  discriminate.
Qed.

Lemma calculate_bill_Ok_iff (y c : string) (k : F) (r : BillResult F) :
  calculate_bill y c k = Ok r <->
  exists t e s ls,
    lookup y TARIFFS = Some t /\ (k <? #0) = false /\
    energy_part (rates t) (service t) c k = Ok (e, s, ls) /\
    r = bill_of y c k e s ls.
Proof.
  unfold calculate_bill, mem, getitem.
  destruct (lookup y TARIFFS) as [t|] eqn:Ht; cbn [negb bind].
  2:{ split; [discriminate|]. intros (t & e & s & ls & H & _). discriminate. }
  destruct (k <? #0) eqn:Hk.
  { split; [discriminate|]. intros (t' & e & s & ls & _ & H & _). discriminate. }
  destruct (energy_part (rates t) (service t) c k) as [[[e s] ls]|err] eqn:He;
    cbn [bind].
  - split.
    + intros [= <-]. exists t, e, s, ls. repeat split; try assumption.
      unfold bill_of, tax_of. now rewrite <- app_assoc.
    + intros (t' & e' & s' & ls' & [= <-] & _ & H & ->).
      rewrite He in H. injection H as <- <- <-.
      unfold bill_of, tax_of. now rewrite <- app_assoc.
  - split; [discriminate|].
    intros (t' & e' & s' & ls' & [= <-] & _ & H & _). congruence.
Qed.
End CalculatorFacts.

(** ** The energy part on the supported inputs *)

Section EnergyPart.
Context {F : Type} {AF : Arith F}.
Local Open Scope arith_scope.

(** [TARIFFS[y]["rates"][name]] and [TARIFFS[y]["service"][name]] *)
Definition rate (y name : string) : result F :=
  t <- getitem TARIFFS y ;; getitem (rates t) name.

Definition service_fee (y name : string) : result F :=
  t <- getitem TARIFFS y ;; getitem (service t) name.

Definition lifeline_lines (energy : F) : list (BillLine F) :=
  [{| label := "Energy charge (Lifeline)"; amount := energy |}].

Definition flat_lines (energy : F) : list (BillLine F) :=
  [{| label := "Energy charge"; amount := energy |}].

Definition block_bill (y c : string) (k r1 r2 s : F) : BillResult F :=
  let '(e1, e2, kwh_b2) := blocks k r1 r2 in
  bill_of y c k (e1 + e2) s (block_lines e1 e2 kwh_b2).

(** The rate class of a special-load-tariff category. *)
Definition slt_rate_name (c : string) : string :=
  if String.eqb c "SLT-LV" then "SLT_LV"
  else if String.eqb c "SLT-MV1/HV" then "SLT_MV1"
  else if String.eqb c "SLT-MV2" then "SLT_MV2"
  else "SLT_HV".

Lemma year_cases (y : string) (P : string -> Prop) :
  P "2025" -> P "2026" -> In y YEARS -> P y.
Proof. intros H1 H2 [<-|[<-|[]]]; assumption. Qed.

Lemma slt_cases (c : string) (P : string -> Prop) :
  P "SLT-LV" -> P "SLT-MV1/HV" -> P "SLT-MV2" -> P "SLT-HV" -> P "SLT-HV MINES" ->
  In c SLT_CATEGORIES -> P c.
Proof. intros H1 H2 H3 H4 H5 [<-|[<-|[<-|[<-|[<-|[]]]]]]; assumption. Qed.

Lemma category_cases (c : string) (P : string -> Prop) :
  P "Residential" -> P "Non-Residential" -> (forall c', In c' SLT_CATEGORIES -> P c') ->
  In c CATEGORIES -> P c.
Proof.
  intros H1 H2 H3 [<-|[<-|H]]; [assumption|assumption|].
  apply H3, H.
Qed.

Lemma residential_bill (y : string) (k : F) :
  In y YEARS -> (k <? #0) = false ->
  exists rl r1 r2 sl so,
    rate y "RES_LIFELINE" = Ok rl /\ rate y "RES_B1" = Ok r1 /\
    rate y "RES_B2" = Ok r2 /\
    service_fee y "Residential (Lifeline)" = Ok sl /\
    service_fee y "Residential (Other)" = Ok so /\
    calculate_bill y "Residential" k =
      Ok (if k <=? RES_LIFELINE_MAX
          then bill_of y "Residential" k (k * rl) sl (lifeline_lines (k * rl))
          else block_bill y "Residential" k r1 r2 so).
Proof.
  intros Hy Hk. pattern y. revert Hy. apply year_cases.
  all: do 5 eexists; repeat (split; [reflexivity|]).
  all: destruct (k <=? RES_LIFELINE_MAX) eqn:Hl.
  all: apply calculate_bill_Ok_iff; do 4 eexists.
  all: split; [reflexivity|]; split; [exact Hk|]; split; [|reflexivity].
  all: cbn [rates service]; unfold energy_part; cbn [String.eqb Ascii.eqb Bool.eqb];
    rewrite Hl; reflexivity.
Qed.

Lemma non_residential_bill (y : string) (k : F) :
  In y YEARS -> (k <? #0) = false ->
  exists r1 r2 s,
    rate y "NONRES_B1" = Ok r1 /\ rate y "NONRES_B2" = Ok r2 /\
    service_fee y "Non-Residential" = Ok s /\
    calculate_bill y "Non-Residential" k = Ok (block_bill y "Non-Residential" k r1 r2 s).
Proof.
  intros Hy Hk. pattern y. revert Hy. apply year_cases.
  all: do 3 eexists; repeat (split; [reflexivity|]).
  all: apply calculate_bill_Ok_iff; do 4 eexists.
  all: split; [reflexivity|]; split; [exact Hk|]; split; reflexivity.
Qed.

Lemma slt_bill (y c : string) (k : F) :
  In y YEARS -> In c SLT_CATEGORIES -> (k <? #0) = false ->
  exists r s,
    rate y (slt_rate_name c) = Ok r /\ service_fee y "SLT" = Ok s /\
    calculate_bill y c k = Ok (bill_of y c k (k * r) s (flat_lines (k * r))).
Proof.
  intros Hy Hc Hk. pattern c. revert Hc. apply slt_cases.
  all: pattern y; revert Hy; apply year_cases.
  all: do 2 eexists; repeat (split; [reflexivity|]).
  all: apply calculate_bill_Ok_iff; do 4 eexists.
  all: split; [reflexivity|]; split; [exact Hk|]; split; reflexivity.
Qed.
End EnergyPart.

Section SupportedBills.
Context {F : Type} {AF : Arith F}.
Local Open Scope arith_scope.

Lemma supported_bill (y c : string) (k : F) :
  In y YEARS -> In c CATEGORIES -> (k <? #0) = false ->
  exists e s ls, calculate_bill y c k = Ok (bill_of y c k e s ls).
Proof.
  intros Hy Hc Hk. pattern c. revert Hc. apply category_cases.
  - destruct (residential_bill y k Hy Hk) as (rl & r1 & r2 & sl & so & _ & _ & _ & _ & _ & H).
    rewrite H. destruct (k <=? RES_LIFELINE_MAX).
    + now do 3 eexists.
    + unfold block_bill. destruct (blocks k r1 r2) as [[e1 e2] b2]. now do 3 eexists.
  - destruct (non_residential_bill y k Hy Hk) as (r1 & r2 & s & _ & _ & _ & H).
    rewrite H. unfold block_bill. destruct (blocks k r1 r2) as [[e1 e2] b2].
    now do 3 eexists.
  - intros c' Hc'.
    destruct (slt_bill y c' k Hy Hc' Hk) as (r & s & _ & _ & H).
    rewrite H. now do 3 eexists.
Qed.

Lemma not_in_categories (c : string) :
  ~ In c CATEGORIES ->
  String.eqb c "Residential" = false /\ String.eqb c "Non-Residential" = false /\
  forall lv mv1 mv2 hv : F,
    mem c [("SLT-LV", lv); ("SLT-MV1/HV", mv1); ("SLT-MV2", mv2);
           ("SLT-HV", hv); ("SLT-HV MINES", hv)] = false.
Proof.
  intros H. unfold CATEGORIES in H. cbn [In] in H.
  assert (Hne : forall s, In s CATEGORIES -> String.eqb c s = false).
  { intros s Hs. apply String.eqb_neq. intros ->. exact (H Hs). }
  split; [apply Hne; cbn; tauto|]. split; [apply Hne; cbn; tauto|].
  intros lv mv1 mv2 hv. unfold mem. cbn [lookup].
  rewrite !Hne by (cbn; tauto). reflexivity.
Qed.

Lemma calculate_bill_Raise (y c : string) (k : F) (t : tariff F) (e : exn) :
  lookup y TARIFFS = Some t -> (k <? #0) = false ->
  energy_part (rates t) (service t) c k = Raise e ->
  calculate_bill y c k = Raise e.
Proof.
  intros Ht Hk He. unfold calculate_bill, mem, getitem.
  rewrite Ht, Hk. cbn [negb bind]. now rewrite He.
Qed.

Lemma unsupported_category (y c : string) (k : F) :
  In y YEARS -> (k <? #0) = false -> ~ In c CATEGORIES ->
  calculate_bill y c k = Raise InvalidInput_category.
Proof.
  intros Hy Hk Hc. destruct (not_in_categories c Hc) as (H1 & H2 & H3).
  pattern y. revert Hy. apply year_cases.
  all: eapply calculate_bill_Raise; [reflexivity|exact Hk|].
  all: unfold energy_part; rewrite H1, H2.
  all: cbn [getitem lookup String.eqb Ascii.eqb Bool.eqb bind rates service].
  all: rewrite H3; reflexivity.
Qed.

Lemma unsupported_year (y c : string) (k : F) :
  ~ In y YEARS -> calculate_bill y c k = Raise ConfigurationError.
Proof.
  intros Hy. unfold calculate_bill, mem.
  destruct (lookup y TARIFFS) as [t|] eqn:Ht; [|reflexivity].
  destruct Hy. exact (lookup_TARIFFS y t Ht).
Qed.

Lemma negative_kwh (y c : string) (k : F) :
  In y YEARS -> (k <? #0) = true -> calculate_bill y c k = Raise InvalidInput_negative.
Proof.
  intros Hy Hk. pattern y. revert Hy. apply year_cases.
  all: unfold calculate_bill; cbn [mem lookup String.eqb Ascii.eqb Bool.eqb negb TARIFFS];
    rewrite Hk; reflexivity.
Qed.
End SupportedBills.

(** ** The search of the reverse calculation *)

Section InverterFacts.
Context {F : Type} {AF : Arith F}.
Local Open Scope nat_scope.
Local Open Scope arith_scope.

Variable total_at : F -> result F.
Variables target_total tol : F.

Definition double (h : F) : F := h * #2.

(** [dbl j] is the upper bound after [j] doublings of [1.0]. *)
Definition dbl (j : nat) : F := Nat.iter j double #1.0.

(** The calculator's total at [x] is below the target. *)
Definition below (x : F) : Prop :=
  exists t, total_at x = Ok t /\ (t <? target_total) = true.

(** The calculator's total at [x] is not below the target. *)
Definition reached (x : F) : Prop :=
  exists t, total_at x = Ok t /\ (t <? target_total) = false.

Definition within_tolerance (x : F) : Prop :=
  exists t, total_at x = Ok t /\ (fabs (t - target_total) <=? tol) = true.

Lemma invert_nonpositive (max_iter fuel : nat) :
  (target_total <=? #0) = true ->
  invert_search total_at target_total tol max_iter fuel = Some (Ok #0.0).
Proof. intros H. unfold invert_search. now rewrite H. Qed.

Lemma iter_double_shift (j : nat) (hi : F) :
  Nat.iter j double (double hi) = Nat.iter (S j) double hi.
Proof.
  induction j as [|j IH]; [reflexivity|].
  change (double (Nat.iter j double (double hi)) = double (Nat.iter (S j) double hi)).
  now rewrite IH.
Qed.

(** The expansion stops at the first doubling that reaches the target. *)
Lemma expand_stops (j : nat) : forall (fuel : nat) (hi : F),
  (forall i, i < j -> below (Nat.iter i double hi)) ->
  (forall i, 1 <= i <= j -> (Nat.iter i double hi >? #1000000) = false) ->
  reached (Nat.iter j double hi) ->
  j < fuel ->
  expand total_at target_total fuel hi = Some (Ok (Nat.iter j double hi)).
Proof.
  induction j as [|j IH]; intros fuel hi Hb Hx (t & Ht & Hr) Hf.
  - destruct fuel as [|fuel]; [lia|]. cbn in *. now rewrite Ht, Hr.
  - destruct fuel as [|fuel]; [lia|].
    destruct (Hb 0) as (t0 & Ht0 & Hlt0); [lia|].
    cbn [expand]. change (Nat.iter 0 double hi) with hi in Ht0.
    rewrite Ht0, Hlt0.
    change (hi * #2) with (Nat.iter 1 double hi).
    rewrite (Hx 1) by lia. change (Nat.iter 1 double hi) with (double hi).
    rewrite <- iter_double_shift. apply IH.
    + intros i Hi. rewrite iter_double_shift. apply Hb. lia.
    + intros i Hi. rewrite iter_double_shift. apply Hx. lia.
    + rewrite iter_double_shift. now exists t.
    + lia.
Qed.

(** The expansion aborts when the bound passes [1_000_000] with every
    earlier bound below the target. *)
Lemma expand_aborts (j : nat) : forall (fuel : nat) (hi : F),
  (forall i, i <= j -> below (Nat.iter i double hi)) ->
  (forall i, 1 <= i <= j -> (Nat.iter i double hi >? #1000000) = false) ->
  (Nat.iter (S j) double hi >? #1000000) = true ->
  j < fuel ->
  expand total_at target_total fuel hi = Some (Raise SearchBoundError).
Proof.
  induction j as [|j IH]; intros fuel hi Hb Hx Hover Hf.
  - destruct fuel as [|fuel]; [lia|].
    destruct (Hb 0) as (t0 & Ht0 & Hlt0); [lia|].
    cbn [expand]. change (Nat.iter 0 double hi) with hi in Ht0.
    rewrite Ht0, Hlt0. change (hi * #2) with (Nat.iter 1 double hi).
    now rewrite Hover.
  - destruct fuel as [|fuel]; [lia|].
    destruct (Hb 0) as (t0 & Ht0 & Hlt0); [lia|].
    cbn [expand]. change (Nat.iter 0 double hi) with hi in Ht0.
    rewrite Ht0, Hlt0.
    change (hi * #2) with (Nat.iter 1 double hi).
    rewrite (Hx 1) by lia. change (Nat.iter 1 double hi) with (double hi).
    apply IH.
    + intros i Hi. rewrite iter_double_shift. apply Hb. lia.
    + intros i Hi. rewrite iter_double_shift. apply Hx. lia.
    + now rewrite iter_double_shift.
    + lia.
Qed.

(** The expansion ends within [j] rounds when the [j]-th doubling is
    above [1_000_000]. *)
Lemma expand_terminates (j : nat) : forall (fuel : nat) (hi : F),
  (Nat.iter (S j) double hi >? #1000000) = true ->
  j < fuel ->
  exists r, expand total_at target_total fuel hi = Some r.
Proof.
  induction j as [|j IH]; intros fuel hi Hover Hf.
  all: destruct fuel as [|fuel]; [lia|]; cbn [expand].
  all: destruct (total_at hi) as [t|e]; [|now eexists].
  all: destruct (t <? target_total); [|now eexists].
  all: change (hi * #2) with (double hi).
  - change (Nat.iter 1 double hi) with (double hi) in Hover.
    rewrite Hover. now eexists.
  - destruct (double hi >? #1000000); [now eexists|].
    apply IH; [|lia]. now rewrite iter_double_shift.
Qed.

(** Once the expansion has ended, more fuel does not change its result. *)
Lemma expand_more_fuel (fuel : nat) : forall (extra : nat) (hi : F) (r : result F),
  expand total_at target_total fuel hi = Some r ->
  expand total_at target_total (fuel + extra) hi = Some r.
Proof.
  induction fuel as [|fuel IH]; intros extra hi r H; [discriminate|].
  cbn [expand Nat.add] in *.
  destruct (total_at hi) as [t|e]; [|exact H].
  destruct (t <? target_total); [|exact H].
  destruct (hi * #2 >? #1000000); [exact H|].
  now apply IH.
Qed.

(** Every bound that the expansion returns is one of the doublings
    [hi, 2 hi, 4 hi, ...] that did not pass [1_000_000]. *)
Lemma expand_returns (fuel : nat) : forall (hi r : F),
  expand total_at target_total fuel hi = Some (Ok r) ->
  exists j, r = Nat.iter j double hi /\ j < fuel /\ reached r /\
    forall i, 1 <= i <= j -> (Nat.iter i double hi >? #1000000) = false.
Proof.
  induction fuel as [|fuel IH]; intros hi r H; [discriminate|].
  cbn [expand] in H.
  destruct (total_at hi) as [t|e] eqn:Ht; [|discriminate].
  destruct (t <? target_total) eqn:Hlt.
  - change (hi * #2) with (double hi) in H.
    destruct (double hi >? #1000000) eqn:Hover; [discriminate|].
    destruct (IH _ _ H) as (j & -> & Hj & Hr & Hx).
    exists (S j). rewrite iter_double_shift. repeat split; [lia| |].
    + now rewrite <- iter_double_shift.
    + intros i Hi. destruct i as [|[|i]]; [lia|exact Hover|].
      rewrite <- iter_double_shift. apply Hx. lia.
  - injection H as <-. exists 0. repeat split; [lia| |intros; lia].
    now exists t.
Qed.

End InverterFacts.

(** ** Order: what monotonicity and the bracket bound need

    The laws are stated for numbers that are [>= 0] (which excludes NaN in
    binary64) and for constants below [1_000_000] (which excludes the
    infinities), so that binary64 arithmetic with its rounding, overflow
    and signed zeros can satisfy them. *)

Section OrderNotions.
Context {F : Type} {AF : Arith F}.
Local Open Scope arith_scope.

Definition nonneg (x : F) : Prop := (#0 <=? x) = true.
Definition le (x y : F) : Prop := (x <=? y) = true.

(** A positive constant below [1_000_000]. *)
Definition rate_like (c : F) : Prop := (#0 <? c) = true /\ (c <? #1000000) = true.

(** [energy + service + levy + tax] as [calculate_bill] computes it. *)
Definition total_of (c : string) (e s : F) : F :=
  e + s + LEVY_RATE * e + tax_of c e s.

(** The energy charge of the two-block split. *)
Definition block_energy (k r1 r2 : F) : F :=
  let '(e1, e2, _) := blocks k r1 r2 in e1 + e2.
End OrderNotions.

Class OrderLaws (F : Type) {AF : Arith F} : Prop := {
  zero_lit : flit 0.0 = flit 0;
  zero_nonneg : nonneg (flit 0);
  le_refl : forall x : F, nonneg x -> le x x;
  le_trans : forall x y z : F, le x y -> le y z -> le x z;
  lt_le : forall x y : F, fltb x y = true -> le x y;
  not_lt_le : forall x y : F, nonneg x -> nonneg y -> fltb x y = false -> le y x;
  not_le_le : forall x y : F, nonneg x -> nonneg y -> fleb x y = false -> le y x;
  lt_le_trans : forall x y z : F, fltb x y = true -> le y z -> fltb x z = true;
  add_nonneg : forall a c : F, nonneg a -> nonneg c -> nonneg (fadd a c);
  add_mono : forall a b c d : F,
    nonneg a -> le a b -> nonneg c -> le c d -> le (fadd a c) (fadd b d);
  mul_nonneg_r : forall a c : F, rate_like c -> nonneg a -> nonneg (fmul a c);
  mul_mono_r : forall a b c : F,
    rate_like c -> nonneg a -> le a b -> le (fmul a c) (fmul b c);
  mul_nonneg_l : forall a c : F, rate_like c -> nonneg a -> nonneg (fmul c a);
  mul_mono_l : forall a b c : F,
    rate_like c -> nonneg a -> le a b -> le (fmul c a) (fmul c b);
  sub_mono : forall a b c : F,
    nonneg c -> fltb c (flit 1000000) = true -> nonneg a -> le a b ->
    fltb (flit 0) (fsub a c) = true -> le (fsub a c) (fsub b c);
  half_nonneg : forall a : F,
    nonneg a -> le a (flit 1048576) -> nonneg (fdiv a (flit 2));
  half_mono : forall a b : F,
    nonneg a -> le a b -> le b (flit 1048576) ->
    le (fdiv a (flit 2)) (fdiv b (flit 2));
  half_double : forall a : F,
    nonneg a -> le a (flit 524288) ->
    le (fdiv (fadd a a) (flit 2)) a /\ le a (fdiv (fadd a a) (flit 2))
}.

(** Facts about the constants and the tariff table, checked by
    evaluation at each instance. *)
Class TariffFacts (F : Type) {AF : Arith F} : Prop := {
  rates_ok : forall y name (r : F),
    In y YEARS -> rate y name = Ok r -> rate_like r;
  services_ok : forall y name (s : F),
    In y YEARS -> service_fee y name = Ok s -> nonneg s;
  levy_rate_ok : rate_like (LEVY_RATE (F:=F));
  tax_rate_ok : rate_like (TAX_RATE (F:=F));
  block_300_ok :
    nonneg (BLOCK_300 (F:=F)) /\ fltb (BLOCK_300 (F:=F)) (flit 1000000) = true;
  lifeline_max_ok : nonneg (RES_LIFELINE_MAX (F:=F));
  (** at 30 kWh the block pricing costs at least the lifeline pricing *)
  lifeline_step : forall y (rl r1 r2 sl so : F),
    In y YEARS ->
    rate y "RES_LIFELINE" = Ok rl -> rate y "RES_B1" = Ok r1 ->
    rate y "RES_B2" = Ok r2 ->
    service_fee y "Residential (Lifeline)" = Ok sl ->
    service_fee y "Residential (Other)" = Ok so ->
    le (total_of "Residential" (fmul RES_LIFELINE_MAX rl) sl)
       (total_of "Residential" (block_energy RES_LIFELINE_MAX r1 r2) so);
  (** the doublings of [1.0] that stay within [1_000_000] are at most [524288] *)
  doubling_range : forall j : nat,
    (j < 20)%nat -> nonneg (dbl (F:=F) j) /\ le (dbl j) (flit 524288);
  doubling_stops : fltb (flit 1000000) (dbl (F:=F) 20) = true;
  bound_sum : le (fadd (flit 524288) (flit 524288 : F)) (flit 1048576)
}.

(** ** The total is monotone in the consumption *)

Section Monotone.
Context {F : Type} {AF : Arith F} {AL : ArithLaws F} {OL : OrderLaws F}
  {TF : TariffFacts F}.
Local Open Scope arith_scope.

Lemma nonneg_le (x y : F) : nonneg x -> le x y -> nonneg y.
Proof. intros Hx Hxy. exact (le_trans _ _ _ Hx Hxy). Qed.

Lemma nonneg_zero_float : nonneg (#0.0 : F).
Proof. rewrite zero_lit. exact zero_nonneg. Qed.

Lemma py_min_mono (k1 k2 c : F) :
  nonneg k1 -> le k1 k2 -> nonneg c ->
  nonneg (py_min k1 c) /\ le (py_min k1 c) (py_min k2 c).
Proof.
  intros H1 H12 Hc. pose proof (nonneg_le _ _ H1 H12) as H2.
  unfold py_min.
  destruct (c <? k1) eqn:E1, (c <? k2) eqn:E2; split; trivial.
  - now apply le_refl.
  - rewrite (lt_le_trans _ _ _ E1 H12) in E2. discriminate.
  - now apply not_lt_le.
Qed.

(** [max(0.0, k - c)] *)
Lemma py_max_zero_mono (k1 k2 c : F) :
  nonneg c -> (c <? #1000000) = true -> nonneg k1 -> le k1 k2 ->
  nonneg (py_max #0.0 (k1 - c)) /\
  le (py_max #0.0 (k1 - c)) (py_max #0.0 (k2 - c)).
Proof.
  intros Hc Hcb H1 H12. unfold py_max. rewrite zero_lit.
  destruct (#0 <? k1 - c) eqn:E1.
  - pose proof (sub_mono _ _ _ Hc Hcb H1 H12 E1) as Hs.
    rewrite (lt_le_trans _ _ _ E1 Hs). split; [now apply lt_le|exact Hs].
  - split; [exact zero_nonneg|].
    destruct (#0 <? k2 - c) eqn:E2; [now apply lt_le|].
    apply le_refl, zero_nonneg.
Qed.

Lemma block_energy_mono (k1 k2 r1 r2 : F) :
  rate_like r1 -> rate_like r2 -> nonneg k1 -> le k1 k2 ->
  nonneg (block_energy k1 r1 r2) /\
  le (block_energy k1 r1 r2) (block_energy k2 r1 r2).
Proof.
  intros Hr1 Hr2 H1 H12. unfold block_energy, blocks.
  destruct block_300_ok as [Hb Hbb].
  destruct (py_min_mono k1 k2 BLOCK_300 H1 H12 Hb) as [Hm1 Hm].
  destruct (py_max_zero_mono k1 k2 BLOCK_300 Hb Hbb H1 H12) as [Hx1 Hx].
  split.
  - apply add_nonneg; [now apply mul_nonneg_r|now apply mul_nonneg_r].
  - apply add_mono.
    + now apply mul_nonneg_r.
    + now apply mul_mono_r.
    + now apply mul_nonneg_r.
    + now apply mul_mono_r.
Qed.

Lemma total_of_mono (c : string) (e1 e2 s1 s2 : F) :
  nonneg e1 -> le e1 e2 -> nonneg s1 -> le s1 s2 ->
  le (total_of c e1 s1) (total_of c e2 s2).
Proof.
  intros He1 He Hs1 Hs. unfold total_of, tax_of.
  assert (Hes1 : nonneg (e1 + s1)) by now apply add_nonneg.
  assert (Hes : le (e1 + s1) (e2 + s2)) by now apply add_mono.
  assert (Hl1 : nonneg (LEVY_RATE * e1)) by (apply mul_nonneg_l; [apply levy_rate_ok|trivial]).
  assert (Hl : le (LEVY_RATE * e1) (LEVY_RATE * e2))
    by (apply mul_mono_l; [apply levy_rate_ok|trivial|trivial]).
  apply add_mono.
  - now apply add_nonneg.
  - now apply add_mono.
  - destruct (is_taxable c); [|exact nonneg_zero_float].
    apply mul_nonneg_l; [apply tax_rate_ok|trivial].
  - destruct (is_taxable c); [|apply le_refl, nonneg_zero_float].
    apply mul_mono_l; [apply tax_rate_ok|trivial|trivial].
Qed.

Lemma total_bill_of (y c : string) (k e s : F) (ls : list (BillLine F)) :
  total (bill_of y c k e s ls) = total_of c e s.
Proof. reflexivity. Qed.

Lemma total_block_bill (y c : string) (k r1 r2 s : F) :
  total (block_bill y c k r1 r2 s) = total_of c (block_energy k r1 r2) s.
Proof.
  unfold block_bill, block_energy. now destruct (blocks k r1 r2) as [[e1 e2] b2].
Qed.

(** For a supported year and a recognized category the total does not
    decrease when the consumption grows. *)
Theorem total_monotone_gen (y c : string) (k1 k2 : F) :
  In y YEARS -> In c CATEGORIES -> nonneg k1 -> le k1 k2 ->
  exists b1 b2,
    calculate_bill y c k1 = Ok b1 /\ calculate_bill y c k2 = Ok b2 /\
    le (total b1) (total b2).
Proof.
  intros Hy Hc H1 H12. pose proof (nonneg_le _ _ H1 H12) as H2.
  pose proof (nonneg_not_neg _ H1) as Hn1. pose proof (nonneg_not_neg _ H2) as Hn2.
  pattern c. revert Hc. apply category_cases.
  - destruct (residential_bill y k1 Hy Hn1)
      as (rl & r1 & r2 & sl & so & Hrl & Hr1 & Hr2 & Hsl & Hso & Hb1).
    destruct (residential_bill y k2 Hy Hn2)
      as (rl' & r1' & r2' & sl' & so' & Hrl' & Hr1' & Hr2' & Hsl' & Hso' & Hb2).
    rewrite Hrl in Hrl'. rewrite Hr1 in Hr1'. rewrite Hr2 in Hr2'.
    rewrite Hsl in Hsl'. rewrite Hso in Hso'.
    injection Hrl' as <-. injection Hr1' as <-. injection Hr2' as <-.
    injection Hsl' as <-. injection Hso' as <-.
    pose proof (rates_ok _ _ _ Hy Hrl) as Orl.
    pose proof (rates_ok _ _ _ Hy Hr1) as Or1.
    pose proof (rates_ok _ _ _ Hy Hr2) as Or2.
    pose proof (services_ok _ _ _ Hy Hsl) as Osl.
    pose proof (services_ok _ _ _ Hy Hso) as Oso.
    pose proof (lifeline_step _ _ _ _ _ _ Hy Hrl Hr1 Hr2 Hsl Hso) as Hstep.
    eexists _, _. split; [exact Hb1|]. split; [exact Hb2|].
    destruct (k1 <=? RES_LIFELINE_MAX) eqn:E1, (k2 <=? RES_LIFELINE_MAX) eqn:E2.
    + rewrite !total_bill_of. apply total_of_mono; trivial.
      * now apply mul_nonneg_r.
      * now apply mul_mono_r.
      * now apply le_refl.
    + rewrite total_bill_of, total_block_bill.
      apply le_trans with (total_of "Residential" (RES_LIFELINE_MAX * rl) sl).
      { apply total_of_mono; trivial.
        - now apply mul_nonneg_r.
        - now apply mul_mono_r.
        - now apply le_refl. }
      apply le_trans with
        (total_of "Residential" (block_energy RES_LIFELINE_MAX r1 r2) so); trivial.
      assert (H30 : le RES_LIFELINE_MAX k2)
        by (apply not_le_le; trivial; apply lifeline_max_ok).
      destruct (block_energy_mono RES_LIFELINE_MAX k2 r1 r2 Or1 Or2 lifeline_max_ok H30).
      apply total_of_mono; trivial. now apply le_refl.
    + (* k1 above the lifeline and k2 within it contradicts k1 <= k2 *)
      assert (H30 : le RES_LIFELINE_MAX k1)
        by (apply not_le_le; trivial; apply lifeline_max_ok).
      assert (Hk1 : le k1 RES_LIFELINE_MAX) by (eapply le_trans; eassumption).
      unfold le in Hk1. congruence.
    + rewrite !total_block_bill.
      destruct (block_energy_mono k1 k2 r1 r2 Or1 Or2 H1 H12).
      apply total_of_mono; trivial. now apply le_refl.
  - destruct (non_residential_bill y k1 Hy Hn1) as (r1 & r2 & s & Hr1 & Hr2 & Hs & Hb1).
    destruct (non_residential_bill y k2 Hy Hn2) as (r1' & r2' & s' & Hr1' & Hr2' & Hs' & Hb2).
    rewrite Hr1 in Hr1'. rewrite Hr2 in Hr2'. rewrite Hs in Hs'.
    injection Hr1' as <-. injection Hr2' as <-. injection Hs' as <-.
    pose proof (rates_ok _ _ _ Hy Hr1) as Or1.
    pose proof (rates_ok _ _ _ Hy Hr2) as Or2.
    pose proof (services_ok _ _ _ Hy Hs) as Os.
    eexists _, _. split; [exact Hb1|]. split; [exact Hb2|].
    rewrite !total_block_bill.
    destruct (block_energy_mono k1 k2 r1 r2 Or1 Or2 H1 H12).
    apply total_of_mono; trivial. now apply le_refl.
  - intros c' Hc'.
    destruct (slt_bill y c' k1 Hy Hc' Hn1) as (r & s & Hr & Hs & Hb1).
    destruct (slt_bill y c' k2 Hy Hc' Hn2) as (r' & s' & Hr' & Hs' & Hb2).
    rewrite Hr in Hr'. rewrite Hs in Hs'. injection Hr' as <-. injection Hs' as <-.
    pose proof (rates_ok _ _ _ Hy Hr) as Or.
    pose proof (services_ok _ _ _ Hy Hs) as Os.
    eexists _, _. split; [exact Hb1|]. split; [exact Hb2|].
    rewrite !total_bill_of. apply total_of_mono; trivial.
    + now apply mul_nonneg_r.
    + now apply mul_mono_r.
    + now apply le_refl.
Qed.
End Monotone.

(** ** The result of the search stays in the bracket *)

Section BracketBound.
Context {F : Type} {AF : Arith F} {OL : OrderLaws F} {TF : TariffFacts F}.
Local Open Scope arith_scope.

Variable total_at : F -> result F.
Variables target_total tol : F.

Lemma midpoint_between (lo hi : F) :
  nonneg lo -> le lo hi -> le hi #524288 ->
  le lo ((lo + hi) / #2) /\ le ((lo + hi) / #2) hi.
Proof.
  intros Hlo Hlh Hhi.
  assert (Hnh : nonneg hi) by exact (le_trans _ _ _ Hlo Hlh).
  assert (Hlb : le lo #524288) by exact (le_trans _ _ _ Hlh Hhi).
  assert (Hll : le lo lo) by now apply le_refl.
  assert (Hhh : le hi hi) by now apply le_refl.
  assert (Hsum : le (hi + hi) #1048576).
  { eapply le_trans; [|exact bound_sum]. now apply add_mono. }
  assert (H1 : le (lo + lo) (lo + hi)) by now apply add_mono.
  assert (H2 : le (lo + hi) (hi + hi)) by now apply add_mono.
  destruct (half_double lo Hlo Hlb) as [_ Hd1].
  destruct (half_double hi Hnh Hhi) as [Hd2 _].
  split.
  - eapply le_trans; [exact Hd1|].
    apply half_mono; [now apply add_nonneg|exact H1|].
    eapply le_trans; eassumption.
  - eapply le_trans; [|exact Hd2].
    apply half_mono; [now apply add_nonneg|exact H2|exact Hsum].
Qed.

Lemma bisect_range (n : nat) : forall lo hi r : F,
  nonneg lo -> le lo hi -> le hi #524288 ->
  bisect total_at target_total tol n lo hi = Ok r ->
  le lo r /\ le r hi.
Proof.
  induction n as [|n IH]; intros lo hi r Hlo Hlh Hhi Hb;
    destruct (midpoint_between lo hi Hlo Hlh Hhi) as [Hm1 Hm2];
    cbn [bisect] in Hb.
  - injection Hb as <-. now split.
  - destruct (total_at ((lo + hi) / #2)) as [t|e]; [|discriminate].
    cbn [bind] in Hb.
    destruct (fabs (t - target_total) <=? tol).
    + injection Hb as <-. now split.
    + destruct (t - target_total <? #0).
      * destruct (IH _ _ _ (le_trans _ _ _ Hlo Hm1) Hm2 Hhi Hb) as [H1 H2].
        split; [exact (le_trans _ _ _ Hm1 H1)|exact H2].
      * destruct (IH _ _ _ Hlo Hm1 (le_trans _ _ _ Hm2 Hhi) Hb) as [H1 H2].
        split; [exact H1|exact (le_trans _ _ _ H2 Hm2)].
Qed.

(** The bound that the expansion returns is one of [1, 2, ..., 2^19]. *)
Lemma expand_bound (fuel : nat) (hi : F) :
  expand total_at target_total fuel #1.0 = Some (Ok hi) ->
  exists j, (j < 20)%nat /\ hi = dbl j.
Proof.
  intros H. destruct (expand_returns _ _ _ _ _ H) as (j & -> & _ & _ & Hx).
  exists j. split; [|reflexivity].
  destruct (Nat.lt_ge_cases j 20) as [Hj|Hj]; [exact Hj|].
  pose proof (Hx 20%nat ltac:(lia)) as H20.
  pose proof (doubling_stops (F:=F)) as Hs. unfold dbl in Hs. congruence.
Qed.

(** A value that the search returns lies between 0 and 524288, and, when
    the target is positive, inside the bracket [0, hi] that the expansion
    found. *)
Theorem invert_search_range (n fuel : nat) (r : F) :
  invert_search total_at target_total tol n fuel = Some (Ok r) ->
  nonneg r /\ le r #524288 /\
  ((target_total <=? #0) = true -> r = #0.0) /\
  ((target_total <=? #0) = false ->
   exists j, (j < 20)%nat /\
     expand total_at target_total fuel #1.0 = Some (Ok (dbl j)) /\
     le r (dbl j) /\ le (dbl j) #524288).
Proof.
  unfold invert_search. destruct (target_total <=? #0) eqn:Ht.
  - intros [= <-]. split; [exact nonneg_zero_float|]. split.
    + destruct (doubling_range (F:=F) 0 ltac:(lia)) as [H1 H2].
      rewrite zero_lit. exact (le_trans _ _ _ H1 H2).
    + split; [reflexivity|discriminate].
  - destruct (expand total_at target_total fuel #1.0) as [[hi|e]|] eqn:He;
      try discriminate.
    intros [= Hb].
    destruct (expand_bound fuel hi He) as (j & Hj & ->).
    destruct (doubling_range (F:=F) j Hj) as [Hn Hle].
    assert (H0 : le #0.0 (dbl j)) by (rewrite zero_lit; exact Hn).
    destruct (bisect_range n _ _ _ nonneg_zero_float H0 Hle Hb) as [H1 H2].
    split; [rewrite zero_lit in H1; exact H1|].
    split; [exact (le_trans _ _ _ H2 Hle)|].
    split; [discriminate|]. intros _. now exists j.
Qed.
End BracketBound.

(** ** The table facts at the two instances *)

Ltac by_evaluation :=
  repeat split; vm_compute; reflexivity.

Ltac table_entry :=
  intros y name v Hy; pattern y; revert Hy; apply year_cases;
  unfold rate, service_fee, getitem, TARIFFS;
  cbn [lookup String.eqb Ascii.eqb Bool.eqb bind rates service];
  repeat match goal with
    | |- context [String.eqb name ?k] =>
        destruct (String.eqb name k); [intros [= <-]; by_evaluation|]
    end;
  discriminate.

Ltac lifeline_entry :=
  intros y rl r1 r2 sl so Hy; pattern y; revert Hy; apply year_cases;
  intros [= <-] [= <-] [= <-] [= <-] [= <-]; by_evaluation.

Ltac doubling_entry :=
  intros j Hj;
  do 20 (destruct j as [|j]; [by_evaluation|]); lia.

#[export] Instance Binary64_table : TariffFacts float.
Proof.
  split.
  - table_entry.
  - table_entry.
  - by_evaluation.
  - by_evaluation.
  - by_evaluation.
  - by_evaluation.
  - lifeline_entry.
  - doubling_entry.
  - by_evaluation.
  - by_evaluation.
Qed.

#[export] Instance Exact_table : TariffFacts Q.
Proof.
  split.
  - table_entry.
  - table_entry.
  - by_evaluation.
  - by_evaluation.
  - by_evaluation.
  - by_evaluation.
  - lifeline_entry.
  - doubling_entry.
  - by_evaluation.
  - by_evaluation.
Qed.

(** ** Exact arithmetic satisfies the order laws *)

Lemma Qle_bool_false (x y : Q) : Qle_bool x y = false <-> (y < x)%Q.
Proof.
  rewrite <- Bool.not_true_iff_false, Qle_bool_iff. split.
  - apply Qnot_le_lt.
  - apply Qlt_not_le.
Qed.

Lemma Qltb_true (x y : Q) : Qltb x y = true <-> (x < y)%Q.
Proof. unfold Qltb. rewrite Bool.negb_true_iff. apply Qle_bool_false. Qed.

Lemma Qltb_false (x y : Q) : Qltb x y = false <-> (y <= x)%Q.
Proof. unfold Qltb. rewrite Bool.negb_false_iff. apply Qle_bool_iff. Qed.

Ltac exact_arith :=
  unfold le, nonneg, rate_like in *;
  cbn [fleb fltb fadd fmul fsub fdiv flit Exact] in *;
  repeat match goal with
    | H : _ /\ _ |- _ => destruct H
    | H : Qltb _ _ = true |- _ => apply Qltb_true in H
    | H : Qltb _ _ = false |- _ => apply Qltb_false in H
    | H : Qle_bool _ _ = true |- _ => apply Qle_bool_iff in H
    | H : Qle_bool _ _ = false |- _ => apply Qle_bool_false in H
    end;
  repeat match goal with
    | |- _ /\ _ => split
    | |- Qltb _ _ = true => apply Qltb_true
    | |- Qltb _ _ = false => apply Qltb_false
    | |- Qle_bool _ _ = true => apply Qle_bool_iff
    end;
  repeat match goal with
    | H : context [Qred ?q] |- _ => rewrite (Qred_correct q) in H
    | |- context [Qred ?q] => rewrite (Qred_correct q)
    end.

#[export] Instance Exact_order : OrderLaws Q.
Proof.
  split; intros; try reflexivity; exact_arith; try lra; try nra.
  all: unfold Qdiv; change (/ 2)%Q with (Qmake 1 2); lra.
Qed.

(** * Binary64 rounding

    The primitive operations are specified by the functions of [SpecFloat]
    ([add_spec], [mul_spec], ...).  This part reads those functions as
    "round the exact result to the nearest binary64 number" and derives that
    the operations are monotone on the numbers that are [>= 0]. *)

Module Round64.
Local Open Scope Z_scope.

Definition rec0 (m : Z) : shr_record := Build_shr_record m false false.

Definition shrn (n : nat) (r : shr_record) : shr_record := Nat.iter n shr_1 r.

Definition rne_rec (r : shr_record) : Z :=
  round_nearest_even (shr_m r) (loc_of_shr_record r).

(** The position of a record among the quarter points of the grid. *)
Definition rank (r : shr_record) : Z :=
  4 * shr_m r + (if shr_r r then 2 else 0) + (if shr_s r then 1 else 0).

Lemma iter_pos_nat {A} (f : A -> A) (p : positive) (x : A) :
  iter_pos f p x = Nat.iter (Pos.to_nat p) f x.
Proof.
  revert x. induction p as [p IH|p IH|]; intros x; cbn [iter_pos].
  - rewrite !IH, Pos2Nat.inj_xI.
    replace (S (2 * Pos.to_nat p)) with (Pos.to_nat p + S (Pos.to_nat p))%nat by lia.
    now rewrite Nat.iter_add, Nat.iter_succ_r.
  - rewrite !IH, Pos2Nat.inj_xO.
    replace (2 * Pos.to_nat p)%nat with (Pos.to_nat p + Pos.to_nat p)%nat by lia.
    now rewrite Nat.iter_add.
  - reflexivity.
Qed.

Lemma shr_1_nonneg (m : Z) (r s : bool) :
  0 <= m ->
  shr_1 (Build_shr_record m r s) = Build_shr_record (m / 2) (Z.odd m) (r || s).
Proof.
  intros Hm. destruct m as [|p|p]; [reflexivity| |lia].
  rewrite <- Z.div2_div. destruct p; reflexivity.
Qed.

Lemma shr_1_m (r : shr_record) : 0 <= shr_m r -> shr_m (shr_1 r) = shr_m r / 2.
Proof. destruct r as [m r s]. intros H. cbn in H. now rewrite shr_1_nonneg. Qed.

Lemma shrn_S (n : nat) (r : shr_record) : shrn (S n) r = shr_1 (shrn n r).
Proof. reflexivity. Qed.

Lemma shrn_S_r (n : nat) (r : shr_record) : shrn (S n) r = shrn n (shr_1 r).
Proof. unfold shrn. now rewrite Nat.iter_succ_r. Qed.

Lemma shrn_add (n k : nat) (r : shr_record) : shrn (n + k) r = shrn n (shrn k r).
Proof. unfold shrn. now rewrite Nat.iter_add. Qed.

Lemma shrn_m (n : nat) (r : shr_record) :
  0 <= shr_m r -> shr_m (shrn n r) = shr_m r / 2 ^ Z.of_nat n /\ 0 <= shr_m (shrn n r).
Proof.
  intros H. induction n as [|n [IH1 IH2]].
  - cbn. rewrite Z.div_1_r. auto.
  - rewrite shrn_S, shr_1_m by assumption. split.
    + rewrite IH1, Nat2Z.inj_succ, Z.pow_succ_r by lia.
      rewrite Z.div_div by lia. f_equal; lia.
    + apply Z.div_pos; lia.
Qed.

Lemma shr_1_exact (x : Z) : 0 <= x -> shr_1 (rec0 (2 * x)) = rec0 x.
Proof.
  intros H. unfold rec0. rewrite shr_1_nonneg by lia.
  rewrite Z.mul_comm, Z.div_mul by lia. rewrite Z.mul_comm, Z.odd_mul. reflexivity.
Qed.

Lemma shrn_exact (n : nat) (x : Z) :
  0 <= x -> shrn n (rec0 (x * 2 ^ Z.of_nat n)) = rec0 x.
Proof.
  intros H. induction n as [|n IH].
  - cbn. now rewrite Z.mul_1_r.
  - rewrite shrn_S_r.
    rewrite Nat2Z.inj_succ, Z.pow_succ_r by lia.
    replace (x * (2 * 2 ^ Z.of_nat n)) with (2 * (x * 2 ^ Z.of_nat n)) by lia.
    rewrite shr_1_exact; [exact IH|]. apply Z.mul_nonneg_nonneg; [lia|].
    apply Z.pow_nonneg. lia.
Qed.

Lemma shr_1_rank (a b : shr_record) :
  0 <= shr_m a -> 0 <= shr_m b -> rank a <= rank b -> rank (shr_1 a) <= rank (shr_1 b).
Proof.
  destruct a as [ma ra sa], b as [mb rb sb]. cbn [shr_m]. intros Ha Hb.
  rewrite !shr_1_nonneg by assumption. unfold rank. cbn [shr_m shr_r shr_s].
  pose proof (Z.div_mod ma 2 ltac:(lia)) as Da.
  pose proof (Z.div_mod mb 2 ltac:(lia)) as Db.
  rewrite Zmod_odd in Da, Db.
  destruct (Z.odd ma), (Z.odd mb), ra, sa, rb, sb; cbn [orb]; lia.
Qed.

Lemma shrn_rank (n : nat) (a b : shr_record) :
  0 <= shr_m a -> 0 <= shr_m b -> rank a <= rank b ->
  rank (shrn n a) <= rank (shrn n b).
Proof.
  intros Ha Hb H. induction n as [|n IH]; [exact H|].
  rewrite !shrn_S.
  apply shr_1_rank; trivial; now apply shrn_m.
Qed.

Lemma rne_rec_rank (a b : shr_record) :
  rank a <= rank b -> rne_rec a <= rne_rec b.
Proof.
  destruct a as [ma ra sa], b as [mb rb sb]. unfold rank, rne_rec.
  cbn [shr_m shr_r shr_s loc_of_shr_record].
  intros H.
  destruct ra, sa, rb, sb; cbn [round_nearest_even];
    destruct (Z.even ma) eqn:Ea; destruct (Z.even mb) eqn:Eb; try lia.
  all: assert (ma <> mb) by congruence; lia.
Qed.

Lemma rne_rec_bounds (a : shr_record) : shr_m a <= rne_rec a <= shr_m a + 1.
Proof.
  destruct a as [m [] []]; unfold rne_rec; cbn; try destruct (Z.even m); lia.
Qed.

Lemma rne_rec0 (m : Z) : rne_rec (rec0 m) = m.
Proof. reflexivity. Qed.

(** ** Digits *)

Lemma digits2_pos_bounds (p : positive) :
  2 ^ (Zpos (digits2_pos p) - 1) <= Zpos p < 2 ^ Zpos (digits2_pos p).
Proof.
  induction p as [p IH|p IH|]; cbn [digits2_pos]; [| |cbn; lia].
  all: rewrite Pos2Z.inj_succ.
  all: replace (Z.succ (Zpos (digits2_pos p)) - 1) with (Z.succ (Zpos (digits2_pos p) - 1)) by lia.
  all: rewrite !Z.pow_succ_r by lia; lia.
Qed.

Lemma digits_bounds (m : Z) :
  0 < m -> 2 ^ (Zdigits2 m - 1) <= m < 2 ^ Zdigits2 m.
Proof. destruct m as [|p|p]; try lia. intros _. apply digits2_pos_bounds. Qed.

Lemma digits_pos (m : Z) : 0 < m -> 0 < Zdigits2 m.
Proof. destruct m; cbn; lia. Qed.

Lemma digits_nonneg (m : Z) : 0 <= Zdigits2 m.
Proof. destruct m; cbn; lia. Qed.

Lemma pow2_lt_inv (a b : Z) : 0 <= b -> 2 ^ a < 2 ^ b -> a < b.
Proof. intros Hb H. apply (Z.pow_lt_mono_r_iff 2); lia. Qed.

Lemma digits_unique (m d : Z) :
  0 < m -> 2 ^ (d - 1) <= m < 2 ^ d -> Zdigits2 m = d.
Proof.
  intros Hm [H1 H2]. pose proof (digits_bounds m Hm) as [B1 B2].
  pose proof (digits_pos m Hm) as Hd.
  assert (0 < d).
  { destruct (Z.lt_ge_cases 0 d); trivial.
    assert (2 ^ d <= 1); [|lia].
    destruct (Z.eq_dec d 0) as [->|]; [cbn; lia|rewrite Z.pow_neg_r; lia]. }
  assert (d - 1 < Zdigits2 m) by (apply pow2_lt_inv; lia).
  assert (Zdigits2 m - 1 < d) by (apply pow2_lt_inv; lia).
  lia.
Qed.

Lemma digits_le (a b : Z) : 0 < a -> a <= b -> Zdigits2 a <= Zdigits2 b.
Proof.
  intros Ha Hab. pose proof (digits_bounds a Ha) as [A1 A2].
  pose proof (digits_bounds b ltac:(lia)) as [B1 B2].
  pose proof (digits_pos b ltac:(lia)).
  assert (Zdigits2 a - 1 < Zdigits2 b) by (apply pow2_lt_inv; lia).
  lia.
Qed.

Lemma digits_shift (m k : Z) :
  0 < m -> 0 <= k -> Zdigits2 (m * 2 ^ k) = Zdigits2 m + k.
Proof.
  intros Hm Hk. pose proof (digits_bounds m Hm) as [B1 B2].
  pose proof (digits_pos m Hm).
  assert (0 < 2 ^ k) by (apply Z.pow_pos_nonneg; lia).
  apply digits_unique; [nia|].
  replace (Zdigits2 m + k - 1) with (Zdigits2 m - 1 + k) by lia.
  rewrite !Z.pow_add_r by lia. nia.
Qed.

Lemma digits_pow2 (k : Z) : 0 <= k -> Zdigits2 (2 ^ k) = k + 1.
Proof.
  intros Hk. replace (2 ^ k) with (1 * 2 ^ k) by lia.
  rewrite digits_shift by lia. change (Zdigits2 1) with 1. lia.
Qed.

(** ** Order key of a binary64 number

    All finite binary64 numbers are integer multiples of [2^emin]; the key
    of a number is that integer, and the infinities get [+-2^2098], which is
    beyond every finite key. *)

Definition emin64 : Z := -1074.
Definition INF : Z := 2 ^ 2098.

Definition key (x : spec_float) : Z :=
  match x with
  | S754_zero _ => 0
  | S754_nan => 0
  | S754_infinity s => if s then - INF else INF
  | S754_finite s m e =>
      let v := Zpos m * 2 ^ (e - emin64) in if s then - v else v
  end.

Definition is_num (x : spec_float) : Prop := x <> S754_nan.

Definition valid (x : spec_float) : Prop := valid_binary x = true.

Definition fexp64 (e : Z) : Z := Z.max (e - 53) emin64.

Lemma fexp64_eq (e : Z) : fexp prec emax e = fexp64 e.
Proof. reflexivity. Qed.

Lemma valid_finite (s : bool) (m : positive) (e : Z) :
  valid (S754_finite s m e) <-> fexp64 (Zdigits2 (Zpos m) + e) = e /\ e <= 971.
Proof.
  unfold valid. cbn [valid_binary]. unfold bounded, canonical_mantissa.
  rewrite andb_true_iff, Z.eqb_eq, Z.leb_le. reflexivity.
Qed.

(** What validity says about a finite number: at most 53 digits, and
    exactly 53 above the smallest exponent. *)
Lemma valid_finite_range (s : bool) (m : positive) (e : Z) :
  valid (S754_finite s m e) ->
  emin64 <= e <= 971 /\ Zdigits2 (Zpos m) <= 53 /\
  (emin64 < e -> Zdigits2 (Zpos m) = 53).
Proof.
  rewrite valid_finite. unfold fexp64, emin64. lia.
Qed.

Lemma finite_key_bounds (m : positive) (e : Z) :
  valid (S754_finite false m e) ->
  0 < Zpos m * 2 ^ (e - emin64) < INF.
Proof.
  intros Hv. destruct (valid_finite_range _ _ _ Hv) as (He & Hd & _).
  pose proof (digits_bounds (Zpos m) ltac:(lia)) as [_ B].
  assert (0 < 2 ^ (e - emin64)) by (apply Z.pow_pos_nonneg; unfold emin64 in *; lia).
  split; [lia|].
  assert (Zpos m < 2 ^ 53).
  { eapply Z.lt_le_trans; [exact B|]. apply Z.pow_le_mono_r; lia. }
  assert (2 ^ (e - emin64) <= 2 ^ 2045) by (apply Z.pow_le_mono_r; unfold emin64 in *; lia).
  unfold INF. change (2 ^ 2098) with (2 ^ 53 * 2 ^ 2045).
  apply Z.lt_le_trans with (2 ^ 53 * 2 ^ (e - emin64)).
  - apply Z.mul_lt_mono_pos_r; assumption.
  - apply Z.mul_le_mono_nonneg_l; [apply Z.pow_nonneg; lia|assumption].
Qed.

Lemma key_finite_lt (m1 m2 : positive) (e1 e2 : Z) :
  valid (S754_finite false m1 e1) -> valid (S754_finite false m2 e2) ->
  e1 < e2 ->
  Zpos m1 * 2 ^ (e1 - emin64) < Zpos m2 * 2 ^ (e2 - emin64).
Proof.
  intros V1 V2 He.
  destruct (valid_finite_range _ _ _ V1) as (R1 & D1 & _).
  destruct (valid_finite_range _ _ _ V2) as (R2 & _ & D2).
  pose proof (digits_bounds (Zpos m1) ltac:(lia)) as [_ B1].
  pose proof (digits_bounds (Zpos m2) ltac:(lia)) as [B2 _].
  rewrite D2 in B2 by lia. change (2 ^ (53 - 1)) with (2 ^ 52) in B2.
  assert (Zpos m1 < 2 ^ 53).
  { eapply Z.lt_le_trans; [exact B1|]. apply Z.pow_le_mono_r; lia. }
  replace (e2 - emin64) with ((e1 - emin64) + (e2 - e1)) by lia.
  rewrite Z.pow_add_r by (unfold emin64 in *; lia).
  assert (0 < 2 ^ (e1 - emin64)) by (apply Z.pow_pos_nonneg; unfold emin64 in *; lia).
  assert (2 ^ 1 <= 2 ^ (e2 - e1)) by (apply Z.pow_le_mono_r; lia).
  change (2 ^ 1) with 2 in *.
  apply Z.lt_le_trans with (2 ^ 53 * 2 ^ (e1 - emin64)).
  - apply Z.mul_lt_mono_pos_r; assumption.
  - change (2 ^ 53) with (2 ^ 52 * 2).
    rewrite <- Z.mul_assoc. apply Z.mul_le_mono_nonneg; try lia.
    rewrite (Z.mul_comm 2). apply Z.mul_le_mono_nonneg_l; lia.
Qed.

Lemma key_finite_compare (m1 m2 : positive) (e1 e2 : Z) :
  valid (S754_finite false m1 e1) -> valid (S754_finite false m2 e2) ->
  (Zpos m1 * 2 ^ (e1 - emin64) ?= Zpos m2 * 2 ^ (e2 - emin64)) =
  match e1 ?= e2 with
  | Lt => Lt
  | Gt => Gt
  | Eq => Pos.compare_cont Eq m1 m2
  end.
Proof.
  intros V1 V2. destruct (Z.compare_spec e1 e2) as [->|He|He].
  - destruct (valid_finite_range _ _ _ V2) as (R2 & _).
    assert (0 < 2 ^ (e2 - emin64)) by (apply Z.pow_pos_nonneg; unfold emin64 in *; lia).
    rewrite <- Zmult_compare_compat_r by lia. reflexivity.
  - apply Z.compare_lt_iff. now apply key_finite_lt.
  - apply Z.compare_gt_iff. now apply key_finite_lt.
Qed.

Lemma valid_flip (s : bool) (m : positive) (e : Z) :
  valid (S754_finite s m e) -> valid (S754_finite false m e).
Proof. exact (fun H => H). Qed.

Lemma INF_pos : 0 < INF.
Proof. unfold INF. apply Z.pow_pos_nonneg; lia. Qed.

Lemma SFcompare_key (x y : spec_float) :
  valid x -> valid y -> is_num x -> is_num y ->
  SFcompare x y = Some (key x ?= key y).
Proof.
  pose proof INF_pos as HI.
  intros Vx Vy Nx Ny.
  destruct x as [sx|sx| |sx mx ex]; [| |now destruct Nx|];
    (destruct y as [sy|sy| |sy my ey]; [| |now destruct Ny|]).
  all: try pose proof (finite_key_bounds _ _ (valid_flip _ _ _ Vx)) as Bx.
  all: try pose proof (finite_key_bounds _ _ (valid_flip _ _ _ Vy)) as By.
  all: cbn [SFcompare key]; cbv zeta.
  all: try (destruct sx); try (destruct sy); f_equal; symmetry.
  all: try reflexivity.
  all: try (apply Z.compare_lt_iff; lia).
  all: try (apply Z.compare_gt_iff; lia).
  all: try (apply Z.compare_eq_iff; lia).
  - rewrite Z.compare_opp.
    rewrite (key_finite_compare my mx ey ex) by (eapply valid_flip; eassumption).
    rewrite (Z.compare_antisym ex ey).
    destruct (ex ?= ey); cbn [CompOpp]; try reflexivity.
    change (Pos.compare_cont Eq my mx) with (Pos.compare my mx).
    change (Pos.compare_cont Eq mx my) with (Pos.compare mx my).
    now rewrite (Pos.compare_antisym mx my).
  - now apply key_finite_compare.
Qed.

(** ** What [binary_round_aux] computes *)

Definition nonneg_sf (x : spec_float) : Prop :=
  match x with
  | S754_zero _ => True
  | S754_infinity s => s = false
  | S754_finite s _ _ => s = false
  | S754_nan => False
  end.

(** A valid number that is not NaN and not negative. *)
Definition good (x : spec_float) : Prop := valid x /\ nonneg_sf x.

Definition shift_of (M E : Z) : Z := fexp64 (Zdigits2 M + E) - E.

Definition rnd_mant (M E : Z) : Z :=
  rne_rec (shrn (Z.to_nat (shift_of M E)) (rec0 M)).

Definition rnd_key (M E : Z) : Z :=
  Z.min (rnd_mant M E * 2 ^ (fexp64 (Zdigits2 M + E) - emin64)) INF.

Definition finish (m1 t : Z) : spec_float :=
  let '(mrs, e) := shr_fexp prec emax m1 t loc_Exact in
  match shr_m mrs with
  | Z0 => S754_zero false
  | Zpos m => if e <=? emax - prec then S754_finite false m e else S754_infinity false
  | Zneg _ => S754_nan
  end.

Lemma shr_spec (r : shr_record) (e n : Z) :
  0 <= n -> shr r e n = (shrn (Z.to_nat n) r, e + n).
Proof.
  intros Hn. destruct n as [|p|p]; [|cbn [shr]|lia].
  - cbn. now rewrite Z.add_0_r.
  - now rewrite iter_pos_nat, Z2Nat.inj_pos.
Qed.

Lemma shr_skip (r : shr_record) (e n : Z) : n <= 0 -> shr r e n = (r, e).
Proof. intros Hn. destruct n as [|p|p]; try reflexivity. lia. Qed.

Lemma pow2_pos (k : Z) : 0 <= k -> 0 < 2 ^ k.
Proof. intros. apply Z.pow_pos_nonneg; lia. Qed.

Lemma finish_spec (m1 t : Z) :
  emin64 <= t -> 0 <= m1 <= 2 ^ 53 -> (emin64 < t -> 2 ^ 52 <= m1) ->
  good (finish m1 t) /\ key (finish m1 t) = Z.min (m1 * 2 ^ (t - emin64)) INF.
Proof.
  intros Ht Hm Hn. unfold finish, shr_fexp. rewrite fexp64_eq.
  change (shr_record_of_loc m1 loc_Exact) with (rec0 m1).
  change (emax - prec) with 971.
  pose proof INF_pos as HI.
  assert (HP : 0 < 2 ^ (t - emin64)) by (apply pow2_pos; lia).
  destruct (Z.eq_dec m1 (2 ^ 53)) as [->|Hne].
  - (* the rounding carried into the next binade *)
    rewrite digits_pow2 by lia.
    replace (fexp64 (53 + 1 + t) - t) with 1 by (unfold fexp64, emin64 in *; lia).
    rewrite shr_spec by lia. change (Z.to_nat 1) with 1%nat.
    change (shr_m (shrn 1 (rec0 (2 ^ 53)))) with (Zpos (2 ^ 52)%positive).
    cbv iota.
    assert (Hk : 2 ^ 53 * 2 ^ (t - emin64) = Zpos (2 ^ 52) * 2 ^ (t + 1 - emin64)).
    { replace (t + 1 - emin64) with (1 + (t - emin64)) by lia.
      rewrite Z.pow_add_r by lia. change (2 ^ 53) with (Zpos (2 ^ 52) * 2 ^ 1). lia. }
    destruct (Z.leb_spec (t + 1) 971) as [Hle|Hgt].
    + assert (V : valid (S754_finite false (2 ^ 52) (t + 1))).
      { apply valid_finite. change (Zdigits2 (Zpos (2 ^ 52))) with 53.
        unfold fexp64, emin64 in *. lia. }
      split; [split; [exact V|reflexivity]|].
      pose proof (finite_key_bounds _ _ V) as B. cbn [key]. cbv zeta.
      rewrite Hk. lia.
    + split; [split; reflexivity|]. cbn [key].
      assert (INF <= 2 ^ 53 * 2 ^ (t - emin64)); [|lia].
      unfold INF. change (2 ^ 2098) with (2 ^ 53 * 2 ^ 2045).
      apply Z.mul_le_mono_nonneg_l; [lia|].
      apply Z.pow_le_mono_r; unfold emin64 in *; lia.
  - destruct m1 as [|p|p]; [| |lia].
    + (* the rounding gave zero *)
      replace (shr (rec0 0) t (fexp64 (Zdigits2 0 + t) - t)) with (rec0 0, t)
        by (symmetry; apply shr_skip; cbn; unfold fexp64, emin64 in *; lia).
      cbn. split; [split; reflexivity|]. lia.
    + assert (Hd : Zdigits2 (Zpos p) <= 53).
      { pose proof (digits_bounds (Zpos p) ltac:(lia)) as [B _].
        assert (Zdigits2 (Zpos p) - 1 < 53) by (apply pow2_lt_inv; lia). lia. }
      rewrite shr_skip by (unfold fexp64, emin64 in *; lia).
      change (shr_m (rec0 (Zpos p))) with (Zpos p). cbv iota.
      destruct (Z.leb_spec t 971) as [Hle|Hgt].
      * assert (V : valid (S754_finite false p t)).
        { apply valid_finite. split; [|lia].
          destruct (Z.eq_dec t emin64) as [->|Hte].
          - unfold fexp64, emin64 in *. lia.
          - assert (Zdigits2 (Zpos p) = 53); [|unfold fexp64, emin64 in *; lia].
            apply digits_unique; lia. }
        split; [split; [exact V|reflexivity]|].
        pose proof (finite_key_bounds _ _ V) as B. cbn [key]. cbv zeta. lia.
      * split; [split; reflexivity|]. cbn [key].
        assert (INF <= Zpos p * 2 ^ (t - emin64)); [|lia].
        unfold INF. change (2 ^ 2098) with (2 ^ 52 * 2 ^ 2046).
        apply Z.mul_le_mono_nonneg;
          [lia | apply Hn; unfold emin64; lia | apply Z.pow_nonneg; lia
          | apply Z.pow_le_mono_r; unfold emin64 in *; lia].
Qed.

Definition bra (M E : Z) : spec_float :=
  binary_round_aux prec emax false M E loc_Exact.

Lemma bra_eq (M E : Z) :
  0 <= shift_of M E ->
  bra M E = finish (rnd_mant M E) (fexp64 (Zdigits2 M + E)).
Proof.
  intros Hn. unfold bra, binary_round_aux, finish.
  unfold shr_fexp at 1. rewrite fexp64_eq.
  change (shr_record_of_loc M loc_Exact) with (rec0 M).
  fold (shift_of M E). rewrite shr_spec by assumption.
  replace (E + shift_of M E) with (fexp64 (Zdigits2 M + E)) by (unfold shift_of; lia).
  reflexivity.
Qed.

Lemma rnd_mant_bounds (M E : Z) :
  0 < M -> 0 <= shift_of M E ->
  emin64 <= fexp64 (Zdigits2 M + E) /\
  0 <= rnd_mant M E <= 2 ^ 53 /\
  (emin64 < fexp64 (Zdigits2 M + E) -> 2 ^ 52 <= rnd_mant M E).
Proof.
  intros HM Hn. unfold rnd_mant.
  set (n := shift_of M E) in *.
  pose proof (shrn_m (Z.to_nat n) (rec0 M) ltac:(cbn; lia)) as [Hq Hq0].
  pose proof (rne_rec_bounds (shrn (Z.to_nat n) (rec0 M))) as Hb.
  rewrite Z2Nat.id in Hq by assumption. cbn [shr_m rec0] in Hq.
  pose proof (digits_bounds M HM) as [B1 B2].
  pose proof (digits_pos M HM) as Hd.
  pose proof (pow2_pos n Hn) as Hp.
  split; [unfold fexp64; lia|]. split.
  - split; [lia|].
    assert (M / 2 ^ n < 2 ^ 53); [|lia].
    apply Z.div_lt_upper_bound; [assumption|].
    rewrite <- Z.pow_add_r by lia.
    eapply Z.lt_le_trans; [exact B2|].
    apply Z.pow_le_mono_r; [lia|]. unfold n, shift_of, fexp64. lia.
  - intros Ht.
    assert (2 ^ 52 <= M / 2 ^ n); [|lia].
    apply Z.div_le_lower_bound; [assumption|].
    rewrite <- Z.pow_add_r by lia.
    eapply Z.le_trans; [|exact B1].
    apply Z.pow_le_mono_r; [lia|]. unfold n, shift_of, fexp64 in *. lia.
Qed.

Theorem bra_spec (M E : Z) :
  0 < M -> 0 <= shift_of M E ->
  good (bra M E) /\ key (bra M E) = rnd_key M E.
Proof.
  intros HM Hn. rewrite bra_eq by assumption.
  destruct (rnd_mant_bounds M E HM Hn) as (Ht & Hm & Hl).
  apply finish_spec; assumption.
Qed.

(** ** Rounding as a function of the exact value *)

Lemma rnd_mant_nonneg (M E : Z) : 0 <= M -> 0 <= rnd_mant M E.
Proof.
  intros HM. unfold rnd_mant.
  pose proof (shrn_m (Z.to_nat (shift_of M E)) (rec0 M) HM) as [_ H].
  pose proof (rne_rec_bounds (shrn (Z.to_nat (shift_of M E)) (rec0 M))). lia.
Qed.

Lemma rnd_key_nonneg (M E : Z) : 0 <= M -> 0 <= rnd_key M E.
Proof.
  intros HM. unfold rnd_key. pose proof INF_pos.
  pose proof (rnd_mant_nonneg M E HM).
  apply Z.min_glb; [|lia]. apply Z.mul_nonneg_nonneg; [assumption|].
  apply Z.pow_nonneg. lia.
Qed.

Lemma rnd_key_le_INF (M E : Z) : rnd_key M E <= INF.
Proof. unfold rnd_key. apply Z.le_min_r. Qed.

Lemma rnd_key_zero (E : Z) : rnd_key 0 E = 0.
Proof.
  unfold rnd_key, rnd_mant.
  replace (rec0 0) with (rec0 (0 * 2 ^ Z.of_nat (Z.to_nat (shift_of 0 E)))) by reflexivity.
  rewrite shrn_exact by lia. cbn [rne_rec rec0 shr_m loc_of_shr_record round_nearest_even].
  rewrite Z.mul_0_l. pose proof INF_pos. lia.
Qed.

Lemma shift_of_shift (M E k : Z) :
  0 < M -> 0 <= k -> shift_of (M * 2 ^ k) (E - k) = shift_of M E + k.
Proof.
  intros HM Hk. unfold shift_of. rewrite digits_shift by assumption.
  replace (Zdigits2 M + k + (E - k)) with (Zdigits2 M + E) by lia. lia.
Qed.

Lemma rnd_key_shift (M E k : Z) :
  0 < M -> 0 <= shift_of M E -> 0 <= k ->
  rnd_key (M * 2 ^ k) (E - k) = rnd_key M E.
Proof.
  intros HM Hn Hk. unfold rnd_key, rnd_mant.
  rewrite shift_of_shift by assumption.
  rewrite digits_shift by assumption.
  replace (Zdigits2 M + k + (E - k)) with (Zdigits2 M + E) by lia.
  rewrite Z2Nat.inj_add by assumption. rewrite shrn_add.
  replace (2 ^ k) with (2 ^ Z.of_nat (Z.to_nat k)) by (rewrite Z2Nat.id; trivial).
  rewrite shrn_exact by lia. reflexivity.
Qed.

Lemma shrn_exact_Z (n X : Z) :
  0 <= X -> 0 <= n -> shrn (Z.to_nat n) (rec0 (X * 2 ^ n)) = rec0 X.
Proof.
  intros HX Hn.
  replace (2 ^ n) with (2 ^ Z.of_nat (Z.to_nat n)) by (rewrite Z2Nat.id; trivial).
  now apply shrn_exact.
Qed.

Lemma rnd_mant_exact (X n E : Z) :
  0 <= X -> 0 <= n -> shift_of (X * 2 ^ n) E = n -> rnd_mant (X * 2 ^ n) E = X.
Proof.
  intros HX Hn Hs. unfold rnd_mant. rewrite Hs.
  now rewrite shrn_exact_Z.
Qed.

Lemma rnd_key_exact (X n : Z) :
  0 <= X -> 0 <= n -> shift_of (X * 2 ^ n) emin64 = n -> X * 2 ^ n < INF ->
  rnd_key (X * 2 ^ n) emin64 = X * 2 ^ n.
Proof.
  intros HX Hn Hs Hlt. unfold rnd_key. rewrite rnd_mant_exact by assumption.
  replace (fexp64 (Zdigits2 (X * 2 ^ n) + emin64) - emin64) with n
    by (unfold shift_of in Hs; lia).
  lia.
Qed.

(** Rounding after a given number of shifts. *)
Definition rne_at (n M : Z) : Z := rne_rec (shrn (Z.to_nat n) (rec0 M)).

Lemma rnd_mant_at (M E : Z) : rnd_mant M E = rne_at (shift_of M E) M.
Proof. reflexivity. Qed.

Lemma rne_at_mono (n M1 M2 : Z) : 0 <= M1 <= M2 -> rne_at n M1 <= rne_at n M2.
Proof.
  intros HM. unfold rne_at.
  apply rne_rec_rank, shrn_rank; unfold rank, rec0; cbn [shr_m shr_r shr_s]; lia.
Qed.

Lemma rne_at_exact (n X : Z) : 0 <= X -> 0 <= n -> rne_at n (X * 2 ^ n) = X.
Proof.
  intros HX Hn. unfold rne_at.
  replace (2 ^ n) with (2 ^ Z.of_nat (Z.to_nat n)) by (rewrite Z2Nat.id; trivial).
  rewrite shrn_exact by assumption. reflexivity.
Qed.

Lemma rne_at_pow2 (n k : Z) : 0 <= n <= k -> rne_at n (2 ^ k) = 2 ^ (k - n).
Proof.
  intros H. replace (2 ^ k) with (2 ^ (k - n) * 2 ^ n).
  - apply rne_at_exact; [apply Z.pow_nonneg|]; lia.
  - rewrite <- Z.pow_add_r by lia. f_equal. lia.
Qed.

Lemma shift_of_mono (M1 M2 E : Z) :
  0 < M1 <= M2 -> shift_of M1 E <= shift_of M2 E.
Proof.
  intros HM. unfold shift_of, fexp64.
  pose proof (digits_le M1 M2 ltac:(lia) ltac:(lia)). lia.
Qed.

Theorem rnd_key_mono (M1 M2 E : Z) :
  0 <= M1 <= M2 -> (0 < M1 -> 0 <= shift_of M1 E) -> rnd_key M1 E <= rnd_key M2 E.
Proof.
  intros [H1 H12] Hn1.
  destruct (Z.eq_dec M1 0) as [->|Hne].
  { rewrite rnd_key_zero. apply rnd_key_nonneg. lia. }
  assert (HM1 : 0 < M1) by lia. assert (HM2 : 0 < M2) by lia.
  specialize (Hn1 HM1).
  pose proof (shift_of_mono M1 M2 E ltac:(lia)) as Hn.
  unfold rnd_key. apply Z.min_le_compat_r. rewrite !rnd_mant_at.
  unfold shift_of in *.
  set (d1 := Zdigits2 M1) in *. set (d2 := Zdigits2 M2) in *.
  set (t1 := fexp64 (d1 + E)) in *. set (t2 := fexp64 (d2 + E)) in *.
  assert (Ht1 : emin64 <= t1) by (unfold t1, fexp64; lia).
  destruct (Z.eq_dec t1 t2) as [<-|Hlt].
  - apply Z.mul_le_mono_nonneg_r; [apply Z.pow_nonneg; lia|].
    apply rne_at_mono. lia.
  - (* a power of two lies between the two values *)
    pose proof (digits_bounds M1 HM1) as [_ B1]. fold d1 in B1.
    pose proof (digits_bounds M2 HM2) as [B2 _]. fold d2 in B2.
    assert (Ht2 : t2 = d2 + E - 53) by (unfold t2, t1, fexp64 in *; lia).
    assert (Hd : d1 < d2) by (unfold t2, t1, fexp64 in *; lia).
    assert (Hp : 2 ^ d1 <= 2 ^ (d2 - 1)) by (apply Z.pow_le_mono_r; lia).
    assert (Hmid1 : rne_at (t1 - E) M1 <= 2 ^ (d2 - 1 - (t1 - E))).
    { rewrite <- rne_at_pow2 by lia. apply rne_at_mono. lia. }
    assert (Hmid2 : 2 ^ (d2 - 1 - (t2 - E)) <= rne_at (t2 - E) M2).
    { rewrite <- rne_at_pow2 by lia. apply rne_at_mono.
      split; [apply Z.pow_nonneg|]; lia. }
    apply Z.le_trans with (2 ^ (d2 - 1 - (t1 - E)) * 2 ^ (t1 - emin64)).
    { apply Z.mul_le_mono_nonneg_r; [apply Z.pow_nonneg; lia|assumption]. }
    apply Z.le_trans with (2 ^ (d2 - 1 - (t2 - E)) * 2 ^ (t2 - emin64)).
    { rewrite <- !Z.pow_add_r by lia.
      apply Z.pow_le_mono_r; lia. }
    apply Z.mul_le_mono_nonneg_r; [apply Z.pow_nonneg; lia|assumption].
Qed.

Lemma digits_INF : Zdigits2 INF = 2099.
Proof. unfold INF. now rewrite digits_pow2 by lia. Qed.

Lemma rnd_key_sat (V : Z) : INF <= V -> rnd_key V emin64 = INF.
Proof.
  intros HV. pose proof INF_pos as HI.
  pose proof (digits_le INF V HI HV) as Hd. rewrite digits_INF in Hd.
  assert (Hs : 0 <= shift_of V emin64) by (unfold shift_of, fexp64, emin64; lia).
  destruct (rnd_mant_bounds V emin64 ltac:(lia) Hs) as (_ & _ & Hl).
  specialize (Hl ltac:(unfold fexp64, emin64; lia)).
  unfold rnd_key. apply Z.min_r.
  apply Z.le_trans with (2 ^ 52 * 2 ^ (fexp64 (Zdigits2 V + emin64) - emin64)).
  - rewrite <- Z.pow_add_r by (unfold fexp64, emin64; lia).
    unfold INF. apply Z.pow_le_mono_r; unfold fexp64, emin64; lia.
  - apply Z.mul_le_mono_nonneg_r; [apply Z.pow_nonneg; lia|assumption].
Qed.

(** The key of a good finite number is a value that rounds to itself. *)
Lemma rnd_key_finite (m : positive) (e : Z) :
  valid (S754_finite false m e) ->
  rnd_key (Zpos m * 2 ^ (e - emin64)) emin64 = Zpos m * 2 ^ (e - emin64).
Proof.
  intros V. destruct (valid_finite_range _ _ _ V) as (He & _).
  apply valid_finite in V. destruct V as [Vc _].
  pose proof (finite_key_bounds m e ltac:(apply valid_finite; split; [exact Vc|lia])).
  apply rnd_key_exact; try lia.
  unfold shift_of. rewrite digits_shift by lia.
  replace (Zdigits2 (Zpos m) + (e - emin64) + emin64) with (Zdigits2 (Zpos m) + e) by lia.
  lia.
Qed.

Lemma good_key_nonneg (x : spec_float) : good x -> 0 <= key x <= INF.
Proof.
  pose proof INF_pos. intros [V N].
  destruct x as [s|s| |s m e]; cbn in N; try contradiction; subst; cbn [key]; try lia.
  cbv zeta. pose proof (finite_key_bounds m e V). lia.
Qed.

Lemma good_is_num (x : spec_float) : good x -> is_num x.
Proof. intros [_ N] ->. exact N. Qed.

Lemma rnd_key_good (x : spec_float) : good x -> rnd_key (key x) emin64 = key x.
Proof.
  intros [V N].
  destruct x as [s|s| |s m e]; cbn in N; try contradiction; subst; cbn [key].
  - apply rnd_key_zero.
  - apply rnd_key_sat. lia.
  - cbv zeta. now apply rnd_key_finite.
Qed.

(** ** Addition *)

Lemma iter_xO (m d : positive) : Zpos (Pos.iter xO m d) = Zpos m * 2 ^ Zpos d.
Proof.
  induction d as [|d IH] using Pos.peano_ind.
  - cbn [Pos.iter]. lia.
  - rewrite Pos.iter_succ, Pos2Z.inj_xO, IH, Pos2Z.inj_succ, Z.pow_succ_r; lia.
Qed.

Lemma shl_align_fst (m : positive) (e e' : Z) :
  e' <= e -> Zpos (fst (shl_align m e e')) = Zpos m * 2 ^ (e - e').
Proof.
  intros H. unfold shl_align.
  destruct (e' - e) as [|d|d] eqn:E; cbn [fst]; try lia.
  - replace (e - e') with 0 by lia. lia.
  - rewrite iter_xO. f_equal. f_equal. lia.
Qed.

Lemma shl_align_keep (m : positive) (e e' : Z) :
  e <= e' -> shl_align m e e' = (m, e).
Proof.
  intros H. unfold shl_align. destruct (e' - e) as [|d|d] eqn:E; try reflexivity. lia.
Qed.

Lemma fexp64_mono (a b : Z) : a <= b -> fexp64 a <= fexp64 b.
Proof. unfold fexp64. lia. Qed.

(** Rounding an integer multiple of [2^e] whose size allows it. *)
Lemma binary_round_spec (S : positive) (e : Z) :
  emin64 <= e -> 0 <= shift_of (Zpos S) e ->
  good (binary_round prec emax false S e) /\
  key (binary_round prec emax false S e) = rnd_key (Zpos S * 2 ^ (e - emin64)) emin64.
Proof.
  intros He Hs. unfold binary_round. rewrite fexp64_eq.
  rewrite shl_align_keep by (unfold shift_of in Hs; cbn [Zdigits2] in Hs; lia).
  fold (bra (Zpos S) e).
  destruct (bra_spec (Zpos S) e ltac:(lia) Hs) as [G K].
  split; [exact G|]. rewrite K.
  rewrite <- (rnd_key_shift (Zpos S) e (e - emin64)) by lia.
  f_equal. lia.
Qed.

Theorem SFadd_key (x y : spec_float) :
  good x -> good y ->
  good (SF64add x y) /\ key (SF64add x y) = rnd_key (key x + key y) emin64.
Proof.
  intros Gx Gy.
  pose proof (good_key_nonneg x Gx) as Kx. pose proof (good_key_nonneg y Gy) as Ky.
  pose proof (rnd_key_good x Gx) as Rx. pose proof (rnd_key_good y Gy) as Ry.
  pose proof INF_pos as HI.
  destruct Gx as [Vx Nx], Gy as [Vy Ny].
  destruct x as [sx|sx| |sx mx ex]; cbn in Nx; try contradiction;
    (destruct y as [sy|sy| |sy my ey]; cbn in Ny; try contradiction).
  all: subst.
  - (* 0 + 0 *)
    split; [destruct sx, sy; split; reflexivity|].
    cbn [key]. rewrite rnd_key_zero. now destruct sx, sy.
  - split; [split; reflexivity|]. cbn [key]. rewrite rnd_key_sat; [reflexivity|lia].
  - split; [now split|]. cbn [key] in *. cbv zeta in *. now rewrite Z.add_0_l, Ry.
  - split; [split; reflexivity|]. cbn [key]. rewrite rnd_key_sat; [now destruct sy|lia].
  - split; [split; reflexivity|]. cbn [key]. rewrite rnd_key_sat; [reflexivity|lia].
  - split; [split; reflexivity|]. cbn [key] in *. cbv zeta in *.
    rewrite rnd_key_sat; [reflexivity|lia].
  - split; [now split|]. cbn [key] in *. cbv zeta in *. now rewrite Z.add_0_r, Rx.
  - split; [split; reflexivity|]. cbn [key] in *. cbv zeta in *.
    rewrite rnd_key_sat; [reflexivity|lia].
  - (* two finite numbers *)
    unfold SF64add, SFadd. cbn [cond_Zopp]. cbv zeta.
    set (ez := Z.min ex ey).
    destruct (valid_finite_range _ _ _ Vx) as (Rex & Dx & _).
    destruct (valid_finite_range _ _ _ Vy) as (Rey & Dy & _).
    pose proof (shl_align_fst mx ex ez ltac:(lia)) as Ax.
    pose proof (shl_align_fst my ey ez ltac:(lia)) as Ay.
    rewrite <- Pos2Z.inj_add. cbn [binary_normalize].
    set (S := (fst (shl_align mx ex ez) + fst (shl_align my ey ez))%positive) in *.
    assert (HS : Zpos S = Zpos mx * 2 ^ (ex - ez) + Zpos my * 2 ^ (ey - ez))
      by (unfold S; rewrite Pos2Z.inj_add; lia).
    assert (Hpx : 0 < 2 ^ (ex - ez)) by (apply pow2_pos; lia).
    assert (Hpy : 0 < 2 ^ (ey - ez)) by (apply pow2_pos; lia).
    assert (Hshift : 0 <= shift_of (Zpos S) ez).
    { apply valid_finite in Vx, Vy. destruct Vx as [Cx _], Vy as [Cy _].
      unfold shift_of.
      destruct (Z.le_ge_cases ex ey).
      - assert (ez = ex) as -> by lia.
        pose proof (digits_le (Zpos mx) (Zpos S) ltac:(lia)
                      ltac:(rewrite HS, Z.sub_diag; nia)).
        pose proof (fexp64_mono (Zdigits2 (Zpos mx) + ex) (Zdigits2 (Zpos S) + ex)). lia.
      - assert (ez = ey) as -> by lia.
        pose proof (digits_le (Zpos my) (Zpos S) ltac:(lia)
                      ltac:(rewrite HS, Z.sub_diag; nia)).
        pose proof (fexp64_mono (Zdigits2 (Zpos my) + ey) (Zdigits2 (Zpos S) + ey)). lia. }
    destruct (binary_round_spec S ez ltac:(lia) Hshift) as [G K].
    split; [exact G|]. rewrite K. f_equal. cbn [key]. cbv zeta.
    rewrite HS, Z.mul_add_distr_r, <- !Z.mul_assoc, <- !Z.pow_add_r by lia.
    f_equal; f_equal; f_equal; lia.
Qed.

(** Rounding an integer multiple of [2^e], whatever its size. *)
Lemma binary_round_key (S : positive) (e : Z) :
  emin64 <= e ->
  good (binary_round prec emax false S e) /\
  key (binary_round prec emax false S e) = rnd_key (Zpos S * 2 ^ (e - emin64)) emin64.
Proof.
  intros He.
  destruct (Z.le_gt_cases 0 (shift_of (Zpos S) e)) as [Hs|Hs];
    [now apply binary_round_spec|].
  unfold binary_round. rewrite fexp64_eq.
  set (f := fexp64 (Zpos (digits2_pos S) + e)).
  assert (Hf : emin64 <= f < e).
  { unfold shift_of in Hs. cbn [Zdigits2] in Hs. unfold f, fexp64 in *. lia. }
  pose proof (shl_align_fst S e f ltac:(lia)) as HA.
  destruct (shl_align S e f) as [mz ez'] eqn:EA.
  assert (ez' = f) as ->.
  { unfold shl_align in EA. destruct (f - e) eqn:E; try lia. now injection EA. }
  cbn [fst] in HA. fold (bra (Zpos mz) f).
  assert (Hz : shift_of (Zpos mz) f = 0).
  { unfold shift_of. rewrite HA, digits_shift by lia.
    replace (Zdigits2 (Zpos S) + (e - f) + f) with (Zpos (digits2_pos S) + e)
      by (cbn [Zdigits2]; lia).
    fold f. lia. }
  destruct (bra_spec (Zpos mz) f ltac:(lia) ltac:(lia)) as [G K].
  split; [exact G|]. rewrite K.
  rewrite <- (rnd_key_shift (Zpos mz) f (f - emin64)) by lia.
  f_equal; [|lia]. rewrite HA, <- Z.mul_assoc, <- Z.pow_add_r by lia.
  f_equal. f_equal. lia.
Qed.

(** ** Multiplication by a finite positive number *)

Lemma digits_mul (a b : Z) :
  0 < a -> 0 < b -> Zdigits2 a + Zdigits2 b - 1 <= Zdigits2 (a * b).
Proof.
  intros Ha Hb.
  pose proof (digits_bounds a Ha) as [A _]. pose proof (digits_bounds b Hb) as [B _].
  pose proof (digits_pos a Ha). pose proof (digits_pos b Hb).
  assert (H2 : 2 ^ (Zdigits2 a - 1 + (Zdigits2 b - 1)) <= a * b).
  { rewrite Z.pow_add_r by lia. apply Z.mul_le_mono_nonneg; try assumption.
    all: apply Z.pow_nonneg; lia. }
  pose proof (digits_le _ _
                (pow2_pos (Zdigits2 a - 1 + (Zdigits2 b - 1)) ltac:(lia)) H2) as H3.
  rewrite digits_pow2 in H3 by lia. lia.
Qed.

Lemma mul_shift_nonneg (mx mc : positive) (ex ec : Z) :
  valid (S754_finite false mx ex) -> valid (S754_finite false mc ec) ->
  0 <= shift_of (Zpos mx * Zpos mc) (ex + ec).
Proof.
  intros Vx Vc.
  destruct (valid_finite_range _ _ _ Vx) as (Rx & Dx & Nx).
  destruct (valid_finite_range _ _ _ Vc) as (Rc & Dc & Nc).
  pose proof (digits_mul (Zpos mx) (Zpos mc) ltac:(lia) ltac:(lia)).
  pose proof (digits_pos (Zpos mx) ltac:(lia)).
  pose proof (digits_pos (Zpos mc) ltac:(lia)).
  unfold shift_of, fexp64, emin64 in *. lia.
Qed.

Theorem SFmul_key (x : spec_float) (mc : positive) (ec : Z) :
  good x -> key x < INF -> valid (S754_finite false mc ec) ->
  let c := S754_finite false mc ec in
  good (SF64mul x c) /\ good (SF64mul c x) /\
  key (SF64mul x c) = rnd_key (key x * Zpos mc) (emin64 + ec) /\
  key (SF64mul c x) = rnd_key (key x * Zpos mc) (emin64 + ec).
Proof.
  intros [Vx Nx] Hfin Vc c. unfold c.
  destruct x as [sx|sx| |sx mx ex]; cbn in Nx; try contradiction; subst.
  - cbn [key] in *. rewrite Z.mul_0_l, rnd_key_zero.
    repeat split; now destruct sx.
  - cbn [key] in Hfin. lia.
  - unfold SF64mul, SFmul. cbn [xorb key]. cbv zeta.
    rewrite (Pos.mul_comm mc mx), (Z.add_comm ec ex).
    rewrite Pos2Z.inj_mul. fold (bra (Zpos mx * Zpos mc) (ex + ec)).
    pose proof (mul_shift_nonneg mx mc ex ec Vx Vc) as Hs.
    destruct (valid_finite_range _ _ _ Vx) as (Rx & _).
    destruct (bra_spec (Zpos mx * Zpos mc) (ex + ec) ltac:(lia) Hs) as [G K].
    assert (K' : key (bra (Zpos mx * Zpos mc) (ex + ec)) =
                 rnd_key (Zpos mx * 2 ^ (ex - emin64) * Zpos mc) (emin64 + ec)).
    { rewrite K.
      rewrite <- (rnd_key_shift (Zpos mx * Zpos mc) (ex + ec) (ex - emin64)) by lia.
      f_equal; lia. }
    repeat split; trivial; apply G.
Qed.

(** ** Subtraction with a positive result *)

Definition positive_sf (x : spec_float) : Prop := SFltb (S754_zero false) x = true.

Lemma binary_round_neg_not_pos (S : positive) (e : Z) :
  SFltb (S754_zero false) (binary_round prec emax true S e) = false.
Proof.
  unfold binary_round, binary_round_aux.
  destruct (shl_align S e _) as [mz ez].
  destruct (shr_fexp prec emax (Zpos mz) ez loc_Exact) as [mrs e'].
  destruct (shr_fexp prec emax _ e' loc_Exact) as [mrs' e''].
  destruct (shr_m mrs'); try reflexivity.
  destruct (e'' <=? emax - prec); reflexivity.
Qed.

Theorem SFsub_key (a c : spec_float) :
  good a -> good c -> key a < INF -> key c < INF ->
  (key c < key a ->
   good (SF64sub a c) /\ key (SF64sub a c) = rnd_key (key a - key c) emin64) /\
  (positive_sf (SF64sub a c) -> key c < key a).
Proof.
  intros Ga Gc Ha Hc.
  pose proof (rnd_key_good a Ga) as Ra.
  destruct Ga as [Va Na], Gc as [Vc Nc].
  destruct a as [sa|sa| |sa ma ea]; cbn in Na; try contradiction;
    (destruct c as [sc|sc| |sc mc ec]; cbn in Nc; try contradiction).
  all: subst; cbn [key] in *; cbv zeta in *; try lia.
  - split; [lia|]. now destruct sa, sc.
  - pose proof (finite_key_bounds _ _ Vc). split; [lia|discriminate].
  - pose proof (finite_key_bounds _ _ Va).
    split; [|lia]. intros _. rewrite Z.sub_0_r.
    split; [split; [exact Va|reflexivity]|]. cbn [SF64sub SFsub key]. cbv zeta. now rewrite Ra.
  - unfold SF64sub, SFsub. cbn [cond_Zopp]. cbv zeta.
    set (ez := Z.min ea ec).
    destruct (valid_finite_range _ _ _ Va) as (Rea & _).
    destruct (valid_finite_range _ _ _ Vc) as (Rec & _).
    pose proof (shl_align_fst ma ea ez ltac:(lia)) as Aa.
    pose proof (shl_align_fst mc ec ez ltac:(lia)) as Ac.
    assert (HD : (Zpos (fst (shl_align ma ea ez)) - Zpos (fst (shl_align mc ec ez)))
                 * 2 ^ (ez - emin64)
                 = Zpos ma * 2 ^ (ea - emin64) - Zpos mc * 2 ^ (ec - emin64)).
    { rewrite Aa, Ac, Z.mul_sub_distr_r, <- !Z.mul_assoc, <- !Z.pow_add_r by lia.
      f_equal; f_equal; f_equal; lia. }
    assert (Hp : 0 < 2 ^ (ez - emin64)) by (apply pow2_pos; lia).
    destruct (Zpos (fst (shl_align ma ea ez)) - Zpos (fst (shl_align mc ec ez)))
      as [|S|S] eqn:ED; cbn [binary_normalize].
    + split; [lia|discriminate].
    + split; [|lia]. intros _. rewrite <- HD. apply binary_round_key. lia.
    + split; [lia|]. unfold positive_sf. now rewrite binary_round_neg_not_pos.
Qed.

(** ** Halving *)

Definition two_sf : spec_float := S754_finite false 4503599627370496 (-51).

Lemma div_eucl_eq (a b : Z) : Z.div_eucl a b = (a / b, a mod b).
Proof. unfold Z.div, Z.modulo. now destruct (Z.div_eucl a b). Qed.

Lemma SFdiv_two_core (m : positive) (e s : Z) :
  0 < s ->
  Z.min (fexp64 (Zdigits2 (Zpos m) + e - 2)) (e + 51) = e + 51 - s ->
  SF64div (S754_finite false m e) two_sf =
  binary_round_aux prec emax false (Zpos m * 2 ^ s / 2 ^ 52) (e + 51 - s)
    (new_location (2 ^ 52) (Zpos m * 2 ^ s mod 2 ^ 52)).
Proof.
  intros Hs He. unfold SF64div, SFdiv, two_sf, SFdiv_core_binary. cbn [xorb].
  rewrite fexp64_eq.
  change (Zdigits2 4503599627370496) with 53.
  replace (Zdigits2 (Zpos m) + e - (53 + -51)) with (Zdigits2 (Zpos m) + e - 2) by lia.
  replace (e - -51) with (e + 51) by lia.
  rewrite He.
  replace (e + 51 - (e + 51 - s)) with s by lia.
  destruct s as [|p|p]; try lia.
  rewrite Z.shiftl_mul_pow2 by lia.
  rewrite div_eucl_eq. reflexivity.
Qed.

Lemma bra_loc_emin (q : Z) (l : location) :
  0 <= q < 2 ^ 52 ->
  binary_round_aux prec emax false q emin64 l = finish (round_nearest_even q l) emin64.
Proof.
  intros Hq. unfold binary_round_aux, finish. unfold shr_fexp at 1. rewrite fexp64_eq.
  assert (Hd : Zdigits2 q <= 52).
  { destruct (Z.eq_dec q 0) as [->|]; [cbn; lia|].
    pose proof (digits_bounds q ltac:(lia)) as [B _].
    assert (Zdigits2 q - 1 < 52) by (apply pow2_lt_inv; lia). lia. }
  rewrite shr_skip by (unfold fexp64, emin64; lia).
  now destruct l as [|[]].
Qed.

Lemma finish_key_small (m1 t : Z) :
  emin64 <= t -> 0 <= m1 <= 2 ^ 53 -> (emin64 < t -> 2 ^ 52 <= m1) ->
  m1 * 2 ^ (t - emin64) < INF ->
  good (finish m1 t) /\ key (finish m1 t) = m1 * 2 ^ (t - emin64).
Proof.
  intros Ht Hm Hn Hlt. destruct (finish_spec m1 t Ht Hm Hn) as [G K].
  split; [exact G|]. rewrite K. lia.
Qed.

Theorem SFdiv_two_key (x : spec_float) :
  good x -> key x < INF ->
  good (SF64div x two_sf) /\ key (SF64div x two_sf) = rne_at 1 (key x).
Proof.
  intros [Vx Nx] Hfin.
  destruct x as [sx|sx| |sx m e]; cbn in Nx; try contradiction; subst.
  - split; [now destruct sx|reflexivity].
  - cbn [key] in Hfin. lia.
  - cbn [key] in *. cbv zeta in *.
    destruct (valid_finite_range _ _ _ Vx) as (Re & Dm & Nm).
    pose proof (digits_bounds (Zpos m) ltac:(lia)) as [B1 B2].
    assert (Hm53 : Zpos m < 2 ^ 53).
    { eapply Z.lt_le_trans; [exact B2|]. apply Z.pow_le_mono_r; lia. }
    destruct (Z.eq_dec e emin64) as [->|Hne].
    + (* the smallest exponent: the quotient is rounded *)
      rewrite (SFdiv_two_core m emin64 51) by (unfold fexp64, emin64 in *; lia).
      replace (emin64 + 51 - 51) with emin64 by lia.
      change (2 ^ 52) with (2 * 2 ^ 51).
      rewrite Z.div_mul_cancel_r, Z.mul_mod_distr_r by lia.
      rewrite Z.sub_diag, Z.mul_1_r.
      assert (Hq : 0 <= Zpos m / 2 < 2 ^ 52).
      { split; [apply Z.div_pos; lia|].
        apply Z.div_lt_upper_bound; [lia|]. change (2 * 2 ^ 52) with (2 ^ 53). lia. }
      rewrite bra_loc_emin by (change (2 * 2 ^ 51) with (2 ^ 52); exact Hq).
      assert (Hr : round_nearest_even (Zpos m / 2)
                     (new_location (2 * 2 ^ 51) (Zpos m mod 2 * 2 ^ 51))
                   = rne_at 1 (Zpos m)).
      { unfold rne_at. change (Z.to_nat 1) with 1%nat.
        change (shrn 1 (rec0 (Zpos m))) with (shr_1 (rec0 (Zpos m))).
        unfold rec0. rewrite shr_1_nonneg by lia.
        rewrite Zmod_odd. destruct (Z.odd (Zpos m)); reflexivity. }
      rewrite Hr.
      pose proof (rne_at_mono 1 0 (Zpos m) ltac:(lia)) as L0.
      change (rne_at 1 0) with 0 in L0.
      assert (U : rne_at 1 (Zpos m) <= 2 ^ 52).
      { rewrite <- Hr.
        pose proof (rne_rec_bounds (shr_record_of_loc (Zpos m / 2)
          (new_location (2 * 2 ^ 51) (Zpos m mod 2 * 2 ^ 51)))) as Hb.
        unfold rne_rec in Hb.
        replace (loc_of_shr_record (shr_record_of_loc (Zpos m / 2)
          (new_location (2 * 2 ^ 51) (Zpos m mod 2 * 2 ^ 51))))
          with (new_location (2 * 2 ^ 51) (Zpos m mod 2 * 2 ^ 51)) in Hb
          by (now destruct (new_location _ _) as [|[]]).
        replace (shr_m (shr_record_of_loc (Zpos m / 2)
          (new_location (2 * 2 ^ 51) (Zpos m mod 2 * 2 ^ 51))))
          with (Zpos m / 2) in Hb
          by (now destruct (new_location _ _) as [|[]]).
        lia. }
      pose proof INF_pos.
      destruct (finish_key_small (rne_at 1 (Zpos m)) emin64) as [G K];
        try lia.
      { rewrite Z.sub_diag, Z.mul_1_r.
        apply Z.le_lt_trans with (2 ^ 52); [exact U|]. unfold INF.
        apply Z.pow_lt_mono_r; lia. }
      split; [exact G|]. rewrite K. now rewrite Z.sub_diag, Z.mul_1_r.
    + (* above it the quotient is exact *)
      specialize (Nm ltac:(lia)).
      assert (Hm52 : 2 ^ 52 <= Zpos m) by (rewrite Nm in B1; exact B1).
      assert (Hk : rne_at 1 (Zpos m * 2 ^ (e - emin64)) = Zpos m * 2 ^ (e - 1 - emin64)).
      { replace (e - emin64) with (e - 1 - emin64 + 1) by lia.
        rewrite Z.pow_add_r, Z.mul_assoc by lia.
        apply rne_at_exact; [|lia].
        apply Z.mul_nonneg_nonneg; [lia|apply Z.pow_nonneg; lia]. }
      rewrite Hk.
      assert (Hlt : Zpos m * 2 ^ (e - 1 - emin64) < INF).
      { eapply Z.le_lt_trans; [|exact Hfin].
        apply Z.mul_le_mono_nonneg_l; [lia|]. apply Z.pow_le_mono_r; lia. }
      destruct (Z.eq_dec e (emin64 + 1)) as [->|Hne2].
      * rewrite (SFdiv_two_core m (emin64 + 1) 52) by (unfold fexp64, emin64 in *; lia).
        replace (emin64 + 1 + 51 - 52) with emin64 by lia.
        rewrite Z.div_mul, Z.mod_mul by lia.
        change (new_location (2 ^ 52) 0) with loc_Exact.
        fold (bra (Zpos m) emin64).
        rewrite bra_eq by (unfold shift_of, fexp64, emin64 in *; lia).
        unfold rnd_mant.
        replace (shift_of (Zpos m) emin64) with 0
          by (unfold shift_of, fexp64, emin64 in *; lia).
        change (rne_rec (shrn (Z.to_nat 0) (rec0 (Zpos m)))) with (Zpos m).
        replace (fexp64 (Zdigits2 (Zpos m) + emin64)) with emin64
          by (unfold fexp64, emin64 in *; lia).
        replace (emin64 + 1 - 1 - emin64) with (emin64 - emin64) in * by lia.
        apply finish_key_small; lia.
      * rewrite (SFdiv_two_core m e 53) by (unfold fexp64, emin64 in *; lia).
        replace (e + 51 - 53) with (e - 2) by lia.
        change (2 ^ 53) with (2 * 2 ^ 52).
        rewrite Z.mul_assoc, Z.div_mul, Z.mod_mul by lia.
        change (new_location (2 ^ 52) 0) with loc_Exact.
        fold (bra (Zpos m * 2) (e - 2)).
        assert (Hd2 : Zdigits2 (Zpos m * 2) = 54).
        { change 2 with (2 ^ 1) at 1. rewrite digits_shift by lia. lia. }
        rewrite bra_eq by (unfold shift_of; rewrite Hd2; unfold fexp64, emin64 in *; lia).
        unfold rnd_mant.
        replace (shift_of (Zpos m * 2) (e - 2)) with 1
          by (unfold shift_of; rewrite Hd2; unfold fexp64, emin64 in *; lia).
        replace (rne_rec (shrn (Z.to_nat 1) (rec0 (Zpos m * 2)))) with (Zpos m)
          by (change (Zpos m * 2) with (Zpos m * 2 ^ 1);
              now rewrite shrn_exact_Z by lia).
        rewrite Hd2.
        replace (fexp64 (54 + (e - 2))) with (e - 1)
          by (unfold fexp64, emin64 in *; lia).
        apply finish_key_small; unfold emin64 in *; lia.
Qed.

Lemma shift_of_emin (V : Z) : 0 <= shift_of V emin64.
Proof. unfold shift_of, fexp64. pose proof (digits_nonneg V). lia. Qed.

Lemma mul_key_shift (x : spec_float) (mc : positive) (ec : Z) :
  good x -> valid (S754_finite false mc ec) -> 0 < key x < INF ->
  0 <= shift_of (key x * Zpos mc) (emin64 + ec).
Proof.
  intros [Vx Nx] Vc Hk.
  destruct x as [sx|sx| |sx mx ex]; cbn in Nx; try contradiction; subst;
    cbn [key] in *; cbv zeta in *; try lia.
  destruct (valid_finite_range _ _ _ Vx) as (Rx & _).
  pose proof (mul_shift_nonneg mx mc ex ec Vx Vc) as Hs.
  replace (Zpos mx * 2 ^ (ex - emin64) * Zpos mc)
    with (Zpos mx * Zpos mc * 2 ^ (ex - emin64)) by lia.
  replace (emin64 + ec) with (ex + ec - (ex - emin64)) by lia.
  rewrite shift_of_shift by lia. lia.
Qed.

(** Doubling a finite number is exact unless it overflows. *)
Lemma rnd_key_double (x : spec_float) :
  good x -> 2 * key x < INF -> rnd_key (key x + key x) emin64 = 2 * key x.
Proof.
  intros [Vx Nx] Hlt. pose proof INF_pos.
  destruct x as [sx|sx| |sx m e]; cbn in Nx; try contradiction; subst;
    cbn [key] in *; cbv zeta in *; try lia.
  - apply rnd_key_zero.
  - destruct (valid_finite_range _ _ _ Vx) as (Re & Dm & Nm).
    pose proof (digits_pos (Zpos m) ltac:(lia)) as Hd.
    replace (Zpos m * 2 ^ (e - emin64) + Zpos m * 2 ^ (e - emin64))
      with (2 * (Zpos m * 2 ^ (e - emin64))) by lia.
    destruct (Z.eq_dec (Zdigits2 (Zpos m)) 53) as [D53|Dlt].
    + replace (2 * (Zpos m * 2 ^ (e - emin64))) with (Zpos m * 2 ^ (e + 1 - emin64)).
      * apply rnd_key_exact; try lia.
        -- unfold shift_of. rewrite digits_shift by lia. rewrite D53.
           unfold fexp64. lia.
        -- replace (e + 1 - emin64) with (1 + (e - emin64)) by lia.
           rewrite Z.pow_add_r by lia. change (2 ^ 1) with 2. lia.
      * replace (e + 1 - emin64) with (1 + (e - emin64)) by lia.
        rewrite Z.pow_add_r by lia. change (2 ^ 1) with 2. lia.
    + assert (e = emin64) as -> by lia.
      rewrite Z.sub_diag, Z.mul_1_r in *.
      replace (2 * Zpos m) with (2 * Zpos m * 2 ^ 0) by (cbn; lia).
      apply rnd_key_exact; try lia.
      unfold shift_of. change (2 ^ 0) with 1. rewrite Z.mul_1_r.
        replace (2 * Zpos m) with (Zpos m * 2 ^ 1) by (change (2 ^ 1) with 2; lia).
        rewrite digits_shift by lia. unfold fexp64. lia.
Qed.

(** ** The order laws of binary64 *)

Lemma Prim2SF_good_valid (x : float) : valid (Prim2SF x).
Proof. apply Prim2SF_valid. Qed.

Lemma compare_floats (x y : float) :
  is_num (Prim2SF x) -> is_num (Prim2SF y) ->
  SFcompare (Prim2SF x) (Prim2SF y) = Some (key (Prim2SF x) ?= key (Prim2SF y)).
Proof. intros. apply SFcompare_key; trivial; apply Prim2SF_valid. Qed.

Lemma SFcompare_num (x y : spec_float) (c : comparison) :
  SFcompare x y = Some c -> is_num x /\ is_num y.
Proof.
  intros H. split; intros ->; [discriminate|].
  destruct x as [?|?| |? ? ?]; discriminate.
Qed.

Lemma leb_key (x y : float) :
  PrimFloat.leb x y = true <->
  is_num (Prim2SF x) /\ is_num (Prim2SF y) /\ key (Prim2SF x) <= key (Prim2SF y).
Proof.
  rewrite leb_spec. unfold SFleb. split.
  - destruct (SFcompare (Prim2SF x) (Prim2SF y)) as [c|] eqn:E; [|discriminate].
    destruct (SFcompare_num _ _ _ E) as [Nx Ny].
    rewrite compare_floats in E by assumption. injection E as <-.
    intros H. repeat split; trivial.
    destruct (Z.compare_spec (key (Prim2SF x)) (key (Prim2SF y)));
      try lia; try discriminate.
  - intros (Nx & Ny & H). rewrite compare_floats by assumption.
    destruct (Z.compare_spec (key (Prim2SF x)) (key (Prim2SF y))); trivial; lia.
Qed.

Lemma ltb_key (x y : float) :
  PrimFloat.ltb x y = true <->
  is_num (Prim2SF x) /\ is_num (Prim2SF y) /\ key (Prim2SF x) < key (Prim2SF y).
Proof.
  rewrite ltb_spec. unfold SFltb. split.
  - destruct (SFcompare (Prim2SF x) (Prim2SF y)) as [c|] eqn:E; [|discriminate].
    destruct (SFcompare_num _ _ _ E) as [Nx Ny].
    rewrite compare_floats in E by assumption. injection E as <-.
    intros H. repeat split; trivial.
    destruct (Z.compare_spec (key (Prim2SF x)) (key (Prim2SF y)));
      try lia; try discriminate.
  - intros (Nx & Ny & H). rewrite compare_floats by assumption.
    destruct (Z.compare_spec (key (Prim2SF x)) (key (Prim2SF y))); trivial; lia.
Qed.

Lemma nonneg_good (x : float) :
  PrimFloat.leb 0 x = true <-> good (Prim2SF x).
Proof.
  rewrite leb_spec. change (Prim2SF 0) with (S754_zero false).
  unfold good. pose proof (Prim2SF_valid x) as V.
  destruct (Prim2SF x) as [s|s| |s m e]; cbn; try destruct s; intuition congruence.
Qed.

Lemma good_leb (x y : float) :
  good (Prim2SF x) -> good (Prim2SF y) ->
  (PrimFloat.leb x y = true <-> key (Prim2SF x) <= key (Prim2SF y)).
Proof.
  intros Gx Gy. rewrite leb_key.
  pose proof (good_is_num _ Gx). pose proof (good_is_num _ Gy). tauto.
Qed.

Lemma good_ltb (x y : float) :
  good (Prim2SF x) -> good (Prim2SF y) ->
  (PrimFloat.ltb x y = true <-> key (Prim2SF x) < key (Prim2SF y)).
Proof.
  intros Gx Gy. rewrite ltb_key.
  pose proof (good_is_num _ Gx). pose proof (good_is_num _ Gy). tauto.
Qed.

(** A good number with the key of infinity is infinity. *)
Lemma good_key_INF (x : spec_float) :
  good x -> key x = INF -> x = S754_infinity false.
Proof.
  intros [V N] H. pose proof INF_pos.
  destruct x as [s|s| |s m e]; cbn in N; try contradiction; subst; cbn [key] in H.
  - lia.
  - reflexivity.
  - cbv zeta in H. pose proof (finite_key_bounds m e V). lia.
Qed.

Lemma good_finite_cases (x : spec_float) :
  good x -> key x < INF \/ x = S754_infinity false.
Proof.
  intros G. pose proof (good_key_nonneg x G).
  destruct (Z.eq_dec (key x) INF) as [E|E]; [right; now apply good_key_INF|left; lia].
Qed.

(** ** Subtraction in general *)

Lemma binary_round_abs (S : positive) (e : Z) :
  SFabs (binary_round prec emax true S e) = binary_round prec emax false S e.
Proof.
  unfold binary_round, binary_round_aux.
  destruct (shl_align S e _) as [mz ez].
  destruct (shr_fexp prec emax (Zpos mz) ez loc_Exact) as [mrs e'].
  destruct (shr_fexp prec emax _ e' loc_Exact) as [mrs' e''].
  destruct (shr_m mrs'); try reflexivity.
  destruct (e'' <=? emax - prec); reflexivity.
Qed.

Lemma binary_round_neg_key (S : positive) (e : Z) :
  key (binary_round prec emax true S e) = - key (binary_round prec emax false S e).
Proof.
  unfold binary_round, binary_round_aux.
  destruct (shl_align S e _) as [mz ez].
  destruct (shr_fexp prec emax (Zpos mz) ez loc_Exact) as [mrs e'].
  destruct (shr_fexp prec emax _ e' loc_Exact) as [mrs' e''].
  destruct (shr_m mrs'); try reflexivity.
  destruct (e'' <=? emax - prec); reflexivity.
Qed.

Lemma rnd_key_one : rnd_key 1 emin64 = 1.
Proof.
  apply (rnd_key_exact 1 0); try lia; try reflexivity.
Qed.

Lemma rnd_key_pos (M : Z) : 0 < M -> 0 < rnd_key M emin64.
Proof.
  intros H. pose proof (rnd_key_mono 1 M emin64 ltac:(lia) (fun _ => shift_of_emin 1)).
  rewrite rnd_key_one in H0. lia.
Qed.

Lemma abs_good (x : spec_float) :
  good x -> good (SFabs x) /\ key (SFabs x) = key x.
Proof.
  intros [V N].
  destruct x as [s|s| |s m e]; cbn in N; try contradiction; subst;
    repeat split; trivial.
Qed.

(** Subtraction of two finite numbers that are not negative: the result is
    a number, its absolute value is the rounded distance, and its sign is
    that of the exact difference. *)
Theorem SFsub_abs (a c : spec_float) :
  good a -> good c -> key a < INF -> key c < INF ->
  let d := SF64sub a c in
  is_num d /\ good (SFabs d) /\
  key (SFabs d) = rnd_key (Z.abs (key a - key c)) emin64 /\
  (key a < key c -> key d = - key (SFabs d)) /\
  (key c <= key a -> key d = key (SFabs d)).
Proof.
  intros Ga Gc Ha Hc.
  pose proof (rnd_key_good a Ga) as Ra. pose proof (rnd_key_good c Gc) as Rc.
  destruct Ga as [Va Na], Gc as [Vc Nc].
  destruct a as [sa|sa| |sa ma ea]; cbn in Na; try contradiction;
    (destruct c as [sc|sc| |sc mc ec]; cbn in Nc; try contradiction).
  all: subst; cbn [key] in *; cbv zeta in *; try lia.
  - rewrite rnd_key_zero. destruct sa, sc; cbn; repeat split; try discriminate; lia.
  - pose proof (finite_key_bounds _ _ Vc).
    cbn [SF64sub SFsub SFopp SFabs key]. cbv zeta.
    rewrite Z.sub_0_l, Z.abs_opp, Z.abs_eq, Rc by lia.
    repeat split; try discriminate; try exact Vc; lia.
  - pose proof (finite_key_bounds _ _ Va).
    cbn [SF64sub SFsub SFopp SFabs key]. cbv zeta.
    rewrite Z.sub_0_r, Z.abs_eq, Ra by lia.
    repeat split; try discriminate; try exact Va; lia.
  - unfold SF64sub, SFsub. cbn [cond_Zopp]. cbv zeta.
    set (ez := Z.min ea ec).
    destruct (valid_finite_range _ _ _ Va) as (Rea & _).
    destruct (valid_finite_range _ _ _ Vc) as (Rec & _).
    pose proof (shl_align_fst ma ea ez ltac:(lia)) as Aa.
    pose proof (shl_align_fst mc ec ez ltac:(lia)) as Ac.
    assert (HD : (Zpos (fst (shl_align ma ea ez)) - Zpos (fst (shl_align mc ec ez)))
                 * 2 ^ (ez - emin64)
                 = Zpos ma * 2 ^ (ea - emin64) - Zpos mc * 2 ^ (ec - emin64)).
    { rewrite Aa, Ac, Z.mul_sub_distr_r, <- !Z.mul_assoc, <- !Z.pow_add_r by lia.
      f_equal; f_equal; f_equal; lia. }
    assert (Hp : 0 < 2 ^ (ez - emin64)) by (apply pow2_pos; lia).
    destruct (Zpos (fst (shl_align ma ea ez)) - Zpos (fst (shl_align mc ec ez)))
      as [|S|S] eqn:ED; cbn [binary_normalize].
    + rewrite <- HD. cbn [SFabs key Z.mul Z.abs]. rewrite rnd_key_zero.
      repeat split; try discriminate; lia.
    + destruct (binary_round_key S ez ltac:(lia)) as [G K].
      destruct (abs_good _ G) as [GA KA].
      assert (0 < Zpos S * 2 ^ (ez - emin64)) by now apply Z.mul_pos_pos.
      rewrite KA, <- HD, Z.abs_eq by lia.
      repeat split; try apply GA; trivial.
      * now apply good_is_num.
      * intros. lia.
    + destruct (binary_round_key S ez ltac:(lia)) as [G K].
      rewrite binary_round_abs, binary_round_neg_key, <- HD.
      assert (0 < Zpos S * 2 ^ (ez - emin64)) by now apply Z.mul_pos_pos.
      replace (Z.abs (Z.neg S * 2 ^ (ez - emin64))) with (Zpos S * 2 ^ (ez - emin64))
        by (rewrite <- Pos2Z.opp_pos, Z.mul_opp_l, Z.abs_opp, Z.abs_eq; lia).
      repeat split; try apply G; trivial.
      * intros E. pose proof (binary_round_abs S ez) as A. rewrite E in A.
        cbn in A. apply (good_is_num _ G). now rewrite <- A.
      * intros. lia.
Qed.

Section FloatLaws.
Local Open Scope float_scope.

Lemma float_le_refl (x : float) : (0 <=? x) = true -> (x <=? x) = true.
Proof. intros H. apply nonneg_good in H. apply good_leb; trivial. lia. Qed.

Lemma float_le_trans (x y z : float) :
  (x <=? y) = true -> (y <=? z) = true -> (x <=? z) = true.
Proof. rewrite !leb_key. intros (? & ? & ?) (? & ? & ?). repeat split; trivial. lia. Qed.

Lemma float_lt_le (x y : float) : (x <? y) = true -> (x <=? y) = true.
Proof. rewrite ltb_key, leb_key. intros (? & ? & ?). repeat split; trivial. lia. Qed.

Lemma float_not_lt_le (x y : float) :
  (0 <=? x) = true -> (0 <=? y) = true -> (x <? y) = false -> (y <=? x) = true.
Proof.
  intros Hx Hy H. apply nonneg_good in Hx, Hy. apply good_leb; trivial.
  destruct (Z.lt_ge_cases (key (Prim2SF x)) (key (Prim2SF y))) as [L|L]; [|lia].
  apply (good_ltb x y Hx Hy) in L. congruence.
Qed.

Lemma float_not_le_le (x y : float) :
  (0 <=? x) = true -> (0 <=? y) = true -> (x <=? y) = false -> (y <=? x) = true.
Proof.
  intros Hx Hy H. apply nonneg_good in Hx, Hy. apply good_leb; trivial.
  destruct (Z.le_gt_cases (key (Prim2SF x)) (key (Prim2SF y))) as [L|L]; [|lia].
  apply (good_leb x y Hx Hy) in L. congruence.
Qed.

Lemma float_lt_le_trans (x y z : float) :
  (x <? y) = true -> (y <=? z) = true -> (x <? z) = true.
Proof. rewrite !ltb_key, leb_key. intros (? & ? & ?) (? & ? & ?). repeat split; trivial. lia. Qed.

Lemma float_add_good (a c : float) :
  good (Prim2SF a) -> good (Prim2SF c) ->
  good (Prim2SF (a + c)) /\
  key (Prim2SF (a + c)) = rnd_key (key (Prim2SF a) + key (Prim2SF c)) emin64.
Proof. intros Ga Gc. rewrite add_spec. now apply SFadd_key. Qed.

Lemma float_add_nonneg (a c : float) :
  (0 <=? a) = true -> (0 <=? c) = true -> (0 <=? a + c) = true.
Proof.
  intros Ha Hc. apply nonneg_good in Ha, Hc. apply nonneg_good.
  now apply float_add_good.
Qed.

Lemma float_add_mono (a b c d : float) :
  (0 <=? a) = true -> (a <=? b) = true -> (0 <=? c) = true -> (c <=? d) = true ->
  (a + c <=? b + d) = true.
Proof.
  intros Ha Hab Hc Hcd.
  pose proof (float_le_trans _ _ _ Ha Hab) as Hb.
  pose proof (float_le_trans _ _ _ Hc Hcd) as Hd.
  apply nonneg_good in Ha, Hb, Hc, Hd.
  apply (good_leb a b Ha Hb) in Hab. apply (good_leb c d Hc Hd) in Hcd.
  destruct (float_add_good a c Ha Hc) as [G1 K1].
  destruct (float_add_good b d Hb Hd) as [G2 K2].
  apply good_leb; trivial. rewrite K1, K2.
  pose proof (good_key_nonneg _ Ha). pose proof (good_key_nonneg _ Hc).
  apply rnd_key_mono; [lia|]. intros _. apply shift_of_emin.
Qed.

Lemma finite_float_key (c : float) (m : positive) (e : Z) :
  Prim2SF c = S754_finite false m e -> 0 < key (Prim2SF c) < INF.
Proof.
  intros E. pose proof (Prim2SF_valid c) as V. rewrite E in *.
  cbn [key]. cbv zeta. now apply finite_key_bounds.
Qed.

Lemma below_million (c : float) : (c <? 1000000) = true -> key (Prim2SF c) < INF.
Proof.
  intros H. apply ltb_key in H. destruct H as (_ & _ & H).
  pose proof (finite_float_key 1000000 _ _ eq_refl). lia.
Qed.

Lemma at_most_2_20 (c : float) : (c <=? 1048576) = true -> key (Prim2SF c) < INF.
Proof.
  intros H. apply leb_key in H. destruct H as (_ & _ & H).
  pose proof (finite_float_key 1048576 _ _ eq_refl). lia.
Qed.

Definition rate_like64 (c : float) : Prop :=
  (0 <? c) = true /\ (c <? 1000000) = true.

Lemma rate_like_finite (c : float) :
  rate_like64 c -> exists m e, Prim2SF c = S754_finite false m e.
Proof.
  intros [H0 H1]. pose proof (below_million c H1) as Hb.
  apply ltb_key in H0. destruct H0 as (_ & Nc & H0).
  change (key (Prim2SF 0)) with 0%Z in H0. pose proof INF_pos.
  destruct (Prim2SF c) as [s|s| |s m e]; cbn [key] in *; try lia.
  - destruct s; lia.
  - destruct s; [|eexists _, _; reflexivity].
    cbv zeta in *.
    assert (0 < Zpos m * 2 ^ (e - emin64))%Z; [|lia].
    apply Z.mul_pos_pos; [lia|].
    destruct (Z.le_gt_cases 0 (e - emin64)) as [L|L]; [now apply pow2_pos|].
    rewrite Z.pow_neg_r in H0 by lia. lia.
Qed.

Lemma float_mul_good (a c : float) :
  rate_like64 c -> good (Prim2SF a) ->
  good (Prim2SF (a * c)) /\ good (Prim2SF (c * a)).
Proof.
  intros Hc Ga. destruct (rate_like_finite c Hc) as (mc & ec & Ec).
  pose proof (Prim2SF_valid c) as Vc. rewrite Ec in Vc.
  rewrite !mul_spec, Ec.
  destruct (good_finite_cases _ Ga) as [Fa|Ia].
  - destruct (SFmul_key _ mc ec Ga Fa Vc) as (G1 & G2 & _). now split.
  - rewrite Ia. split; split; reflexivity.
Qed.

Lemma float_mul_mono (a b c : float) :
  rate_like64 c -> (0 <=? a) = true -> (a <=? b) = true ->
  (a * c <=? b * c) = true /\ (c * a <=? c * b) = true.
Proof.
  intros Hc Ha Hab.
  pose proof (float_le_trans _ _ _ Ha Hab) as Hb.
  apply nonneg_good in Ha, Hb. apply (good_leb a b Ha Hb) in Hab.
  destruct (float_mul_good a c Hc Ha) as [Ga1 Ga2].
  destruct (float_mul_good b c Hc Hb) as [Gb1 Gb2].
  rewrite !good_leb by assumption.
  destruct (rate_like_finite c Hc) as (mc & ec & Ec).
  pose proof (Prim2SF_valid c) as Vc. rewrite Ec in Vc.
  destruct (good_finite_cases _ Hb) as [Fb|Ib].
  - assert (Fa : (key (Prim2SF a) < INF)%Z) by lia.
    rewrite !mul_spec, Ec.
    destruct (SFmul_key _ mc ec Ha Fa Vc) as (_ & _ & -> & ->).
    destruct (SFmul_key _ mc ec Hb Fb Vc) as (_ & _ & -> & ->).
    pose proof (good_key_nonneg _ Ha).
    assert (key (Prim2SF a) * Zpos mc <= key (Prim2SF b) * Zpos mc)%Z
      by (apply Z.mul_le_mono_nonneg_r; lia).
    assert (0 <= key (Prim2SF a) * Zpos mc)%Z by (apply Z.mul_nonneg_nonneg; lia).
    assert (0 < key (Prim2SF a) * Zpos mc ->
            0 <= shift_of (key (Prim2SF a) * Zpos mc) (emin64 + ec))%Z.
    { intros Hp. apply mul_key_shift; trivial. split; [|lia].
      destruct (Z.eq_dec (key (Prim2SF a)) 0) as [E|E]; [rewrite E in Hp|]; lia. }
    split; apply rnd_key_mono; auto.
  - assert (Eb1 : Prim2SF (b * c) = S754_infinity false)
      by (rewrite mul_spec, Ec, Ib; reflexivity).
    assert (Eb2 : Prim2SF (c * b) = S754_infinity false)
      by (rewrite mul_spec, Ec, Ib; reflexivity).
    rewrite Eb1, Eb2. cbn [key].
    pose proof (good_key_nonneg _ Ga1). pose proof (good_key_nonneg _ Ga2). lia.
Qed.

Lemma float_mul_nonneg (a c : float) :
  rate_like64 c -> (0 <=? a) = true ->
  (0 <=? a * c) = true /\ (0 <=? c * a) = true.
Proof.
  intros Hc Ha. apply nonneg_good in Ha. rewrite !nonneg_good.
  now apply float_mul_good.
Qed.

Lemma float_sub_mono (a b c : float) :
  (0 <=? c) = true -> (c <? 1000000) = true ->
  (0 <=? a) = true -> (a <=? b) = true -> (0 <? a - c) = true ->
  (a - c <=? b - c) = true.
Proof.
  intros Hc Hcb Ha Hab Hpos.
  pose proof (float_le_trans _ _ _ Ha Hab) as Hb.
  apply nonneg_good in Ha, Hb, Hc. apply (good_leb a b Ha Hb) in Hab.
  pose proof (below_million c Hcb) as Fc.
  rewrite ltb_spec, sub_spec in Hpos. change (Prim2SF 0) with (S754_zero false) in Hpos.
  pose proof INF_pos as HI.
  assert (Hinf : forall x, Prim2SF x = S754_infinity false ->
                 Prim2SF (x - c) = S754_infinity false).
  { intros x Ex. rewrite sub_spec, Ex. destruct Hc as [_ Nc].
    destruct (Prim2SF c) as [s|s| |s m e]; cbn in Nc; try contradiction; subst;
      try reflexivity.
    cbn [key] in Fc. lia. }
  destruct (good_finite_cases _ Ha) as [Fa|Ia].
  - destruct (SFsub_key _ _ Ha Hc Fa Fc) as [Hk Hp].
    specialize (Hp Hpos). destruct (Hk Hp) as [Ga Ka].
    destruct (good_finite_cases _ Hb) as [Fb|Ib].
    + destruct (SFsub_key _ _ Hb Hc Fb Fc) as [Hkb _].
      destruct (Hkb ltac:(lia)) as [Gb Kb].
      rewrite <- sub_spec in Ga, Ka, Gb, Kb.
      apply good_leb; trivial. rewrite Ka, Kb.
      apply rnd_key_mono; [lia|]. intros _. apply shift_of_emin.
    + rewrite <- sub_spec in Ga. pose proof (Hinf b Ib) as Eb.
      apply good_leb; trivial; [rewrite Eb; split; reflexivity|].
      rewrite Eb. cbn [key]. pose proof (good_key_nonneg _ Ga). lia.
  - assert (Ib : Prim2SF b = S754_infinity false).
    { apply good_key_INF; trivial. rewrite Ia in Hab. cbn [key] in Hab.
      pose proof (good_key_nonneg _ Hb). lia. }
    pose proof (Hinf a Ia) as Ea. pose proof (Hinf b Ib) as Eb.
    apply leb_key. rewrite Ea, Eb. cbn [key].
    split; [discriminate|split; [discriminate|lia]].
Qed.

Lemma float_half (a : float) :
  good (Prim2SF a) -> (key (Prim2SF a) < INF)%Z ->
  good (Prim2SF (a / 2)) /\ key (Prim2SF (a / 2)) = rne_at 1 (key (Prim2SF a)).
Proof.
  intros Ga Fa. rewrite div_spec. change (Prim2SF 2) with two_sf.
  now apply SFdiv_two_key.
Qed.

Lemma float_half_nonneg (a : float) :
  (0 <=? a) = true -> (a <=? 1048576) = true -> (0 <=? a / 2) = true.
Proof.
  intros Ha Hb. apply nonneg_good in Ha. apply nonneg_good.
  apply float_half; [assumption|now apply at_most_2_20].
Qed.

Lemma float_half_mono (a b : float) :
  (0 <=? a) = true -> (a <=? b) = true -> (b <=? 1048576) = true ->
  (a / 2 <=? b / 2) = true.
Proof.
  intros Ha Hab Hb1.
  pose proof (float_le_trans _ _ _ Ha Hab) as Hb.
  pose proof (at_most_2_20 b Hb1) as Fb.
  apply nonneg_good in Ha, Hb. apply (good_leb a b Ha Hb) in Hab.
  destruct (float_half a Ha ltac:(lia)) as [G1 K1].
  destruct (float_half b Hb Fb) as [G2 K2].
  apply good_leb; trivial. rewrite K1, K2.
  apply rne_at_mono. pose proof (good_key_nonneg _ Ha). lia.
Qed.

Lemma key_2_19 : (2 * key (Prim2SF 524288) < INF)%Z.
Proof. vm_compute. reflexivity. Qed.

Lemma float_half_double (a : float) :
  (0 <=? a) = true -> (a <=? 524288) = true ->
  ((a + a) / 2 <=? a) = true /\ (a <=? (a + a) / 2) = true.
Proof.
  intros Ha Hb. apply leb_key in Hb. destruct Hb as (_ & _ & Hb).
  pose proof key_2_19 as H19.
  apply nonneg_good in Ha. pose proof (good_key_nonneg _ Ha) as Ka.
  destruct (float_add_good a a Ha Ha) as [Gs Ks].
  rewrite rnd_key_double in Ks by (trivial; lia).
  destruct (float_half (a + a) Gs ltac:(lia)) as [Gh Kh].
  rewrite Ks in Kh.
  replace (2 * key (Prim2SF a))%Z with (key (Prim2SF a) * 2 ^ 1)%Z in Kh
    by (change (2 ^ 1)%Z with 2%Z; lia).
  rewrite rne_at_exact in Kh by lia.
  split; apply good_leb; trivial; lia.
Qed.
(** ** Signs and distances *)

Lemma float_sub_abs (a c : float) :
  good (Prim2SF a) -> good (Prim2SF c) ->
  (key (Prim2SF a) < INF)%Z -> (key (Prim2SF c) < INF)%Z ->
  good (Prim2SF (abs (a - c))) /\
  key (Prim2SF (abs (a - c)))
    = rnd_key (Z.abs (key (Prim2SF a) - key (Prim2SF c))) emin64 /\
  ((a - c <? 0) = true <-> (key (Prim2SF a) < key (Prim2SF c))%Z) /\
  ((0 <? a - c) = true <-> (key (Prim2SF c) < key (Prim2SF a))%Z).
Proof.
  intros Ga Gc Fa Fc.
  destruct (SFsub_abs _ _ Ga Gc Fa Fc) as (N & G & K & Hneg & Hpos).
  rewrite abs_spec, sub_spec. split; [exact G|]. split; [exact K|].
  rewrite !ltb_key, sub_spec. change (key (Prim2SF 0)) with 0%Z.
  assert (N0 : is_num (Prim2SF 0)) by discriminate.
  pose proof (good_key_nonneg _ G) as B.
  destruct (Z.lt_ge_cases (key (Prim2SF a)) (key (Prim2SF c))) as [L|L].
  - pose proof (rnd_key_pos (Z.abs (key (Prim2SF a) - key (Prim2SF c))) ltac:(lia)).
    rewrite (Hneg L), K. split; split; intros; try tauto; try lia.
    repeat split; trivial; lia.
  - rewrite (Hpos ltac:(lia)), K. split; split; intros; try lia.
    + destruct H as (_ & _ & H).
      destruct (Z.eq_dec (key (Prim2SF a)) (key (Prim2SF c))) as [E|E]; [|lia].
      rewrite E, Z.sub_diag in H. cbn [Z.abs] in H. rewrite rnd_key_zero in H. lia.
    + repeat split; trivial.
      apply rnd_key_pos. lia.
Qed.

(** [a - c] is positive exactly when [c < a], for [c] finite. *)
Lemma float_sub_pos (a c : float) :
  (0 <=? a) = true -> (0 <=? c) = true -> (key (Prim2SF c) < INF)%Z ->
  ((0 <? a - c) = true <-> (c <? a) = true).
Proof.
  intros Ha Hc Fc. apply nonneg_good in Ha, Hc.
  rewrite (good_ltb c a Hc Ha).
  destruct (good_finite_cases _ Ha) as [Fa|Ia].
  - now destruct (float_sub_abs a c Ha Hc Fa Fc) as (_ & _ & _ & H).
  - assert (E : Prim2SF (a - c) = S754_infinity false).
    { rewrite sub_spec, Ia. destruct Hc as [_ Nc].
      destruct (Prim2SF c) as [s|s| |s m e]; cbn in Nc; try contradiction; subst;
        try reflexivity.
      cbn [key] in Fc. lia. }
    rewrite ltb_spec, E, Ia. cbn [key]. split; [intros _; lia|reflexivity].
Qed.
End FloatLaws.
End Round64.

#[export] Instance Binary64_order : OrderLaws float.
Proof.
  split.
  - reflexivity.
  - reflexivity.
  - exact Round64.float_le_refl.
  - exact Round64.float_le_trans.
  - exact Round64.float_lt_le.
  - exact Round64.float_not_lt_le.
  - exact Round64.float_not_le_le.
  - exact Round64.float_lt_le_trans.
  - exact Round64.float_add_nonneg.
  - exact Round64.float_add_mono.
  - intros a c Hc Ha. exact (proj1 (Round64.float_mul_nonneg a c Hc Ha)).
  - intros a b c Hc Ha Hab. exact (proj1 (Round64.float_mul_mono a b c Hc Ha Hab)).
  - intros a c Hc Ha. exact (proj2 (Round64.float_mul_nonneg a c Hc Ha)).
  - intros a b c Hc Ha Hab. exact (proj2 (Round64.float_mul_mono a b c Hc Ha Hab)).
  - exact Round64.float_sub_mono.
  - exact Round64.float_half_nonneg.
  - exact Round64.float_half_mono.
  - exact Round64.float_half_double.
Qed.

(** * The engine as Python runs it: binary64 *)

Section Binary64Claims.
Local Open Scope float_scope.

(** The constants and the table of the binary64 instance are the values
    that Python gives the literals of [calculator.py]. *)
Lemma constants_binary64 :
  RES_LIFELINE_MAX = 30.0 /\ BLOCK_300 = 300.0 /\ LEVY_RATE = 0.05 /\ TAX_RATE = 0.20.
Proof. repeat split. Qed.

Lemma TARIFFS_binary64 :
  TARIFFS = [
    ("2025", {|
       rates := [
         ("RES_LIFELINE", 80.4389 / 100);
         ("RES_B1", 182.2442 / 100);
         ("RES_B2", 240.8059 / 100);
         ("NONRES_B1", 164.5377 / 100);
         ("NONRES_B2", 204.4809 / 100);
         ("SLT_LV", 245.5597 / 100);
         ("SLT_MV1", 196.0119 / 100);
         ("SLT_MV2", 127.8861 / 100);
         ("SLT_HV", 196.0119 / 100) ];
       service := [
         ("Residential (Lifeline)", 2.13);
         ("Residential (Other)", 10.7301);
         ("Non-Residential", 12.428);
         ("SLT", 500.00) ] |});
    ("2026", {|
       rates := [
         ("RES_LIFELINE", 88.3739 / 100);
         ("RES_B1", 200.2218 / 100);
         ("RES_B2", 264.5604 / 100);
         ("NONRES_B1", 180.7687 / 100);
         ("NONRES_B2", 224.6521 / 100);
         ("SLT_LV", 269.7832 / 100);
         ("SLT_MV1", 215.3477 / 100);
         ("SLT_MV2", 134.2804 / 100);
         ("SLT_HV", 215.3477 / 100) ];
       service := [
         ("Residential (Lifeline)", 2.13);
         ("Residential (Other)", 10.730886);
         ("Non-Residential", 12.428245);
         ("SLT", 500.00) ] |}) ].
Proof. vm_compute. reflexivity. Qed.

Lemma nonneg_passes (k : float) : (0 <=? k) = true -> (k <? #0)%A = false.
Proof. exact (nonneg_not_neg (F:=float) k). Qed.

Definition line (l : string) (a : float) : BillLine float :=
  {| label := l; amount := a |}.

(** The four lines that close every breakdown. *)
Definition closing_lines (r : BillResult float) : list (BillLine float) :=
  [line "Service charge" (service_charge r); line "Levies" (levy r);
   line "Taxes" (tax r); line "Total payable" (total r)].

Lemma bill_of_breakdown (y c : string) (k e s : float) (ls : list (BillLine float)) :
  breakdown (bill_of y c k e s ls) = (ls ++ closing_lines (bill_of y c k e s ls))%list.
Proof. reflexivity. Qed.

(** A number that compares [<=] with itself is not NaN, so Python's [==]
    holds of it. *)
Lemma leb_refl_eqb (x : float) : (x <=? x) = true -> (x =? x) = true.
Proof.
  rewrite FloatAxioms.leb_spec, FloatAxioms.eqb_spec. unfold SFleb, SFeqb.
  pose proof (SFcompare_antisym (Prim2SF x) (Prim2SF x)) as H.
  destruct (SFcompare (Prim2SF x) (Prim2SF x)) as [[]|]; cbn in *; congruence.
Qed.

(** The total of a bill for a supported input is a number. *)
Lemma total_is_number (y c : string) (k : float) (r : BillResult float) :
  In y YEARS -> In c CATEGORIES -> (0 <=? k) = true ->
  calculate_bill y c k = Ok r -> (total r =? total r) = true.
Proof.
  intros Hy Hc Hk Hr.
  assert (Hn : nonneg k) by exact Hk.
  assert (Hkk : le k k) by exact (le_refl k Hn).
  destruct (total_monotone_gen y c k k Hy Hc Hn Hkk)
    as (b1 & b2 & H1 & H2 & Hle).
  rewrite Hr in H1, H2. injection H1 as <-. injection H2 as <-.
  apply leb_refl_eqb. exact Hle.
Qed.

(** C1: for a supported year, a recognized category and [kwh >= 0],
    [calculate_bill] returns a result whose [total] is exactly
    [energy_charge + service_charge + levy + tax] (the same binary64 value,
    which is a number, so that Python's [==] holds as well), and whose
    breakdown ends with the line "Total payable" carrying [total]. *)
Theorem total_is_sum_of_parts (y c : string) (k : float) :
  In y YEARS -> In c CATEGORIES -> (0 <=? k) = true ->
  exists r init,
    calculate_bill y c k = Ok r /\
    total r = energy_charge r + service_charge r + levy r + tax r /\
    (total r =? energy_charge r + service_charge r + levy r + tax r) = true /\
    breakdown r = (init ++ [line "Total payable" (total r)])%list.
Proof.
  intros Hy Hc Hk.
  destruct (supported_bill y c k Hy Hc (nonneg_passes k Hk)) as (e & s & ls & H).
  exists (bill_of y c k e s ls).
  exists (ls ++ [line "Service charge" s; line "Levies" (LEVY_RATE * e)%A;
                 line "Taxes" (tax_of c e s)])%list.
  split; [exact H|]. split; [reflexivity|].
  split; [exact (total_is_number y c k _ Hy Hc Hk H)|].
  rewrite bill_of_breakdown, <- app_assoc. reflexivity.
Qed.

Lemma total_is_sum_of_parts_witness :
  exists r init,
    calculate_bill "2025" "Residential" 20 = Ok r /\
    total r = energy_charge r + service_charge r + levy r + tax r /\
    (total r =? energy_charge r + service_charge r + levy r + tax r) = true /\
    breakdown r = (init ++ [line "Total payable" (total r)])%list.
Proof.
  apply (total_is_sum_of_parts "2025" "Residential" 20);
    [simpl; tauto | simpl; tauto | reflexivity].
Defined.

(** C2: for a supported year, a recognized category and [kwh >= 0], the
    levy is [0.05 * energy_charge]; the tax is [0] when the category name
    starts with "Residential" and [0.20 * (energy_charge + service_charge)]
    for every other recognized category. *)
Theorem levy_and_tax (y c : string) (k : float) :
  In y YEARS -> In c CATEGORIES -> (0 <=? k) = true ->
  exists r,
    calculate_bill y c k = Ok r /\
    levy r = 0.05 * energy_charge r /\
    (String.prefix "Residential" c = true -> tax r = 0) /\
    (String.prefix "Residential" c = false ->
     tax r = 0.20 * (energy_charge r + service_charge r)).
Proof.
  intros Hy Hc Hk.
  destruct (supported_bill y c k Hy Hc (nonneg_passes k Hk)) as (e & s & ls & H).
  exists (bill_of y c k e s ls). split; [exact H|]. split; [reflexivity|].
  cbn [tax bill_of energy_charge service_charge]. unfold tax_of, is_taxable.
  split; intros ->; reflexivity.
Qed.

Lemma levy_and_tax_witness :
  exists r,
    calculate_bill "2026" "SLT-LV" 1000 = Ok r /\
    levy r = 0.05 * energy_charge r /\
    (String.prefix "Residential" "SLT-LV" = true -> tax r = 0) /\
    (String.prefix "Residential" "SLT-LV" = false ->
     tax r = 0.20 * (energy_charge r + service_charge r)).
Proof.
  apply (levy_and_tax "2026" "SLT-LV" 1000);
    [simpl; tauto | simpl; tauto | reflexivity].
Defined.

(** The two-block split in terms of comparisons: up to 300 the whole
    consumption is in block 1 and block 2 is [0.0]; above 300 block 1 is
    300 and block 2 is [kwh - 300]. *)
Lemma block_split (k : float) :
  (0 <=? k) = true ->
  ((k <=? 300) = true -> py_min k 300 = k /\ py_max 0 (k - 300) = 0) /\
  ((300 <? k) = true -> py_min k 300 = 300 /\ py_max 0 (k - 300) = k - 300).
Proof.
  intros Hk.
  assert (H300 : (0 <=? 300) = true) by reflexivity.
  assert (F300 : (Round64.key (Prim2SF 300) < Round64.INF)%Z)
    by (vm_compute; reflexivity).
  pose proof (Round64.float_sub_pos k 300 Hk H300 F300) as Hs.
  split; intros H.
  - assert (E : (300 <? k) = false).
    { destruct (300 <? k) eqn:E; [|reflexivity].
      rewrite (float_lt_not_le _ _ E) in H. discriminate. }
    change ((if 300 <? k then 300 else k) = k /\
            (if 0 <? k - 300 then k - 300 else 0) = 0).
    rewrite E. destruct (0 <? k - 300); [|now split].
    pose proof (proj1 Hs eq_refl). congruence.
  - change ((if 300 <? k then 300 else k) = 300 /\
            (if 0 <? k - 300 then k - 300 else 0) = k - 300).
    rewrite H. rewrite (proj2 Hs H). now split.
Qed.

(** C3: for a supported year and [kwh >= 0], "Residential" at
    [kwh <= 30] (30 included) bills the whole consumption at the lifeline
    rate, with the residential-lifeline service charge and the single
    energy line "Energy charge (Lifeline)"; at [kwh > 30] it bills
    [min(kwh, 300)] at the block-1 rate and [max(0, kwh - 300)] at the
    block-2 rate, with the residential-other service charge: up to 300
    that is [kwh] at the block-1 rate and [0.0] at the block-2 rate, above
    300 it is 300 at the block-1 rate and [kwh - 300] at the block-2
    rate. *)
Theorem residential_tiers (y : string) (k : float) :
  In y YEARS -> (0 <=? k) = true ->
  exists rl r1 r2 sl so r,
    rate y "RES_LIFELINE" = Ok rl /\ rate y "RES_B1" = Ok r1 /\
    rate y "RES_B2" = Ok r2 /\
    service_fee y "Residential (Lifeline)" = Ok sl /\
    service_fee y "Residential (Other)" = Ok so /\
    calculate_bill y "Residential" k = Ok r /\
    ((k <=? 30) = true ->
     energy_charge r = k * rl /\ service_charge r = sl /\
     breakdown r =
       (line "Energy charge (Lifeline)" (energy_charge r) :: closing_lines r)) /\
    ((30 <? k) = true ->
     energy_charge r = py_min k 300 * r1 + py_max 0 (k - 300) * r2 /\
     service_charge r = so /\
     ((k <=? 300) = true -> energy_charge r = k * r1 + 0 * r2) /\
     ((300 <? k) = true -> energy_charge r = 300 * r1 + (k - 300) * r2)) /\
    (30 <=? 30) = true.
Proof.
  intros Hy Hk.
  destruct (residential_bill y k Hy (nonneg_passes k Hk))
    as (rl & r1 & r2 & sl & so & Hrl & Hr1 & Hr2 & Hsl & Hso & H).
  destruct (block_split k Hk) as [Hlow Hhigh].
  eexists rl, r1, r2, sl, so, _. repeat (split; [eassumption|]).
  split; [|split; [|reflexivity]].
  - intros Hle. change (k <=? RES_LIFELINE_MAX)%A with (k <=? 30) in *.
    rewrite Hle. repeat split.
  - intros Hlt. change (k <=? RES_LIFELINE_MAX)%A with (k <=? 30) in *.
    rewrite (float_lt_not_le _ _ Hlt).
    split; [reflexivity|]. split; [reflexivity|]. split; intros Hc.
    + destruct (Hlow Hc) as [E1 E2].
      change (energy_charge (block_bill y "Residential" k r1 r2 so))
        with (py_min k 300 * r1 + py_max 0 (k - 300) * r2).
      now rewrite E1, E2.
    + destruct (Hhigh Hc) as [E1 E2].
      change (energy_charge (block_bill y "Residential" k r1 r2 so))
        with (py_min k 300 * r1 + py_max 0 (k - 300) * r2).
      now rewrite E1, E2.
Qed.

Lemma residential_tiers_witness :
  exists rl r1 r2 sl so r,
    rate "2025" "RES_LIFELINE" = Ok rl /\ rate "2025" "RES_B1" = Ok r1 /\
    rate "2025" "RES_B2" = Ok r2 /\
    service_fee "2025" "Residential (Lifeline)" = Ok sl /\
    service_fee "2025" "Residential (Other)" = Ok so /\
    calculate_bill "2025" "Residential" 450.5 = Ok r /\
    ((450.5 <=? 30) = true ->
     energy_charge r = 450.5 * rl /\ service_charge r = sl /\
     breakdown r =
       (line "Energy charge (Lifeline)" (energy_charge r) :: closing_lines r)) /\
    ((30 <? 450.5) = true ->
     energy_charge r = py_min 450.5 300 * r1 + py_max 0 (450.5 - 300) * r2 /\
     service_charge r = so /\
     ((450.5 <=? 300) = true -> energy_charge r = 450.5 * r1 + 0 * r2) /\
     ((300 <? 450.5) = true -> energy_charge r = 300 * r1 + (450.5 - 300) * r2)) /\
    (30 <=? 30) = true.
Proof.
  apply (residential_tiers "2025" 450.5); [simpl; tauto | reflexivity].
Defined.

(** The consumption of block 2, [max(0.0, kwh - 300)]. *)
Definition kwh_b2 (k : float) : float := py_max 0 (k - 300).

Definition has_label (l : string) (r : BillResult float) : Prop :=
  In l (map label (breakdown r)).

Lemma block_bill_block2 (y c : string) (k r1 r2 s : float) :
  has_label "Energy charge block 2" (block_bill y c k r1 r2 s) <->
  (0 <? kwh_b2 k) = true.
Proof.
  unfold has_label, block_bill, blocks, block_lines.
  cbn [breakdown bill_of].
  change (py_max #0.0 (k - BLOCK_300))%A with (kwh_b2 k).
  change (kwh_b2 k >? #0)%A with (0 <? kwh_b2 k).
  destruct (0 <? kwh_b2 k); cbn; split; intros H; try discriminate; auto.
  repeat (destruct H as [H|H]; [discriminate|]). destruct H.
Qed.

Lemma block_bill_layout (y c : string) (k r1 r2 s : float) :
  exists lines,
    breakdown (block_bill y c k r1 r2 s) =
      (lines ++ closing_lines (block_bill y c k r1 r2 s))%list /\
    Forall (fun l => String.prefix "Energy charge" (label l) = true) lines.
Proof.
  unfold block_bill, blocks.
  eexists. split; [apply bill_of_breakdown|].
  unfold block_lines. destruct (_ >? _)%A; repeat constructor.
Qed.

(** C4: for a supported year, a recognized category and [kwh >= 0], the
    breakdown is some energy lines followed by "Service charge", "Levies",
    "Taxes", "Total payable" in that order, whatever the amounts of the
    levy and of the tax; in the two-block categories (Non-Residential, and
    Residential above the lifeline) the line "Energy charge block 2" is
    there exactly when the consumption of block 2 is positive, which it is
    not at [kwh = 300] and is at [kwh = 300.01]. *)
Theorem breakdown_layout (y c : string) (k : float) :
  In y YEARS -> In c CATEGORIES -> (0 <=? k) = true ->
  exists r lines,
    calculate_bill y c k = Ok r /\
    breakdown r = (lines ++ closing_lines r)%list /\
    Forall (fun l => String.prefix "Energy charge" (label l) = true) lines /\
    map label (closing_lines r) =
      ["Service charge"; "Levies"; "Taxes"; "Total payable"] /\
    (c = "Non-Residential" \/ (c = "Residential" /\ (30 <? k) = true) ->
     (has_label "Energy charge block 2" r <-> (0 <? kwh_b2 k) = true)) /\
    (0 <? kwh_b2 300) = false /\ (0 <? kwh_b2 300.01) = true.
Proof.
  intros Hy Hc Hk. pose proof (nonneg_passes k Hk) as Hn.
  pattern c. revert Hc. apply category_cases.
  - destruct (residential_bill y k Hy Hn) as (rl & r1 & r2 & sl & so & _ & _ & _ & _ & _ & H).
    change (k <=? RES_LIFELINE_MAX)%A with (k <=? 30) in H.
    destruct (k <=? 30) eqn:Hle.
    + eexists _, _. split; [exact H|]. split; [apply bill_of_breakdown|].
      split; [repeat constructor|]. split; [reflexivity|].
      split; [|split; reflexivity].
      intros [[=]|[_ Hlt]]. apply float_lt_not_le in Hlt. congruence.
    + destruct (block_bill_layout y "Residential" k r1 r2 so) as (lines & Hb & Hl).
      eexists _, lines. split; [exact H|]. split; [exact Hb|].
      split; [exact Hl|]. split; [reflexivity|].
      split; [|split; reflexivity].
      intros _. apply block_bill_block2.
  - destruct (non_residential_bill y k Hy Hn) as (r1 & r2 & s & _ & _ & _ & H).
    destruct (block_bill_layout y "Non-Residential" k r1 r2 s) as (lines & Hb & Hl).
    eexists _, lines. split; [exact H|]. split; [exact Hb|].
    split; [exact Hl|]. split; [reflexivity|].
    split; [|split; reflexivity].
    intros _. apply block_bill_block2.
  - intros c' Hc'.
    destruct (slt_bill y c' k Hy Hc' Hn) as (r & s & _ & _ & H).
    eexists _, _. split; [exact H|]. split; [apply bill_of_breakdown|].
    split; [repeat constructor|]. split; [reflexivity|].
    split; [|split; reflexivity].
    intros [->|[-> _]]; revert Hc'; cbn; intuition discriminate.
Qed.

Lemma breakdown_layout_witness :
  exists r lines,
    calculate_bill "2026" "Non-Residential" 300.01 = Ok r /\
    breakdown r = (lines ++ closing_lines r)%list /\
    Forall (fun l => String.prefix "Energy charge" (label l) = true) lines /\
    map label (closing_lines r) =
      ["Service charge"; "Levies"; "Taxes"; "Total payable"] /\
    ("Non-Residential" = "Non-Residential" \/
     ("Non-Residential" = "Residential" /\ (30 <? 300.01) = true) ->
     (has_label "Energy charge block 2" r <-> (0 <? kwh_b2 300.01) = true)) /\
    (0 <? kwh_b2 300) = false /\ (0 <? kwh_b2 300.01) = true.
Proof.
  apply (breakdown_layout "2026" "Non-Residential" 300.01);
    [simpl; tauto | simpl; tauto | reflexivity].
Defined.

(** C5: [calculate_bill] fails with the unsupported-year error for every
    year other than "2025" and "2026", whatever the other arguments (so
    for ("2099", "Residential", 10)); for a supported year it fails with
    "kWh cannot be negative" for every [kwh < 0]; for a supported year and
    a [kwh] that is not negative it fails with "unsupported customer
    category" for every category outside the seven; in the remaining case
    it returns a result.  A failure is the whole outcome of the call. *)
Theorem error_precedence (y c : string) (k : float) :
  (~ In y YEARS -> calculate_bill y c k = Raise ConfigurationError) /\
  (In y YEARS -> (k <? 0) = true ->
   calculate_bill y c k = Raise InvalidInput_negative) /\
  (In y YEARS -> (k <? 0) = false -> ~ In c CATEGORIES ->
   calculate_bill y c k = Raise InvalidInput_category) /\
  (In y YEARS -> (k <? 0) = false -> In c CATEGORIES ->
   exists r, calculate_bill y c k = Ok r) /\
  calculate_bill "2099" "Residential" 10 = Raise ConfigurationError.
Proof.
  split; [apply unsupported_year|].
  split; [exact (negative_kwh (F:=float) y c k)|].
  split; [exact (unsupported_category (F:=float) y c k)|].
  split; [|reflexivity].
  intros Hy Hk Hc. change ((k <? #0)%A = false) in Hk.
  destruct (supported_bill y c k Hy Hc Hk) as (e & s & ls & H).
  eexists. exact H.
Qed.

(** C8: for a supported year and [kwh >= 0], a special-load-tariff
    category is billed [kwh * rate] for the rate of its class, with the one
    SLT service charge and one energy line; "SLT-MV1/HV", "SLT-HV" and
    "SLT-HV MINES" get the same energy charge and the same total. *)
Theorem slt_flat_pricing (y c : string) (k : float) :
  In y YEARS -> In c SLT_CATEGORIES -> (0 <=? k) = true ->
  exists rt s r,
    rate y (slt_rate_name c) = Ok rt /\ service_fee y "SLT" = Ok s /\
    calculate_bill y c k = Ok r /\
    energy_charge r = k * rt /\ service_charge r = s /\
    breakdown r = (line "Energy charge" (energy_charge r) :: closing_lines r) /\
    (In c ["SLT-MV1/HV"; "SLT-HV"; "SLT-HV MINES"] ->
     forall c', In c' ["SLT-MV1/HV"; "SLT-HV"; "SLT-HV MINES"] ->
     exists r', calculate_bill y c' k = Ok r' /\
       energy_charge r' = energy_charge r /\ total r' = total r).
Proof.
  intros Hy Hc Hk. pose proof (nonneg_passes k Hk) as Hn.
  destruct (slt_bill y c k Hy Hc Hn) as (rt & s & Hrt & Hs & H).
  exists rt, s. eexists. repeat (split; [eassumption|]).
  repeat (split; [reflexivity|]).
  intros Hc3 c' Hc3'.
  assert (Hin : In c' SLT_CATEGORIES) by (revert Hc3'; cbn; tauto).
  destruct (slt_bill y c' k Hy Hin Hn) as (rt' & s' & Hrt' & Hs' & H').
  eexists. split; [exact H'|].
  assert (Hsame : rt' = rt /\ s' = s).
  { revert Hrt Hrt' Hs Hs'. pattern y. revert Hy. apply year_cases.
    all: destruct Hc3 as [<-|[<-|[<-|[]]]]; destruct Hc3' as [<-|[<-|[<-|[]]]].
    all: cbn; intros [= <-] [= <-] [= <-] [= <-]; split; reflexivity. }
  destruct Hsame as [-> ->]. split; [reflexivity|].
  destruct Hc3 as [<-|[<-|[<-|[]]]]; destruct Hc3' as [<-|[<-|[<-|[]]]];
    reflexivity.
Qed.

Lemma slt_flat_pricing_witness :
  exists rt s r,
    rate "2025" (slt_rate_name "SLT-HV") = Ok rt /\ service_fee "2025" "SLT" = Ok s /\
    calculate_bill "2025" "SLT-HV" 1000 = Ok r /\
    energy_charge r = 1000 * rt /\ service_charge r = s /\
    breakdown r = (line "Energy charge" (energy_charge r) :: closing_lines r) /\
    (In "SLT-HV" ["SLT-MV1/HV"; "SLT-HV"; "SLT-HV MINES"] ->
     forall c', In c' ["SLT-MV1/HV"; "SLT-HV"; "SLT-HV MINES"] ->
     exists r', calculate_bill "2025" c' 1000 = Ok r' /\
       energy_charge r' = energy_charge r /\ total r' = total r).
Proof.
  apply (slt_flat_pricing "2025" "SLT-HV" 1000);
    [simpl; tauto | simpl; tauto | reflexivity].
Defined.

(** *** The reverse calculation *)

Lemma dbl_within (i : nat) :
  (1 <= i <= 19)%nat -> (1000000 <? Nat.iter i double 1) = false.
Proof.
  intros Hi.
  do 20 (destruct i as [|i]; [first [lia | vm_compute; reflexivity]|]). lia.
Qed.

Lemma dbl_exceeds : (1000000 <? Nat.iter 20 double 1) = true.
Proof. vm_compute. reflexivity. Qed.

Lemma expand_returns_some (total_at : float -> result float) (target : float)
    (fuel : nat) :
  (20 <= fuel)%nat -> exists r, expand total_at target fuel 1 = Some r.
Proof.
  intros Hf.
  exact (expand_terminates total_at target 19 fuel 1 dbl_exceeds Hf).
Qed.

(** C9: for [target_total <= 0] the inversion returns 0 at once, whatever
    the calculator would do (so for an unsupported year or category too);
    otherwise it doubles the upper bound from 1.0 while the total at the
    bound is below the target, starts the bisection at the first bound
    that is not, and fails with the search-bound error when all of
    1, 2, ..., 2^19 are below the target (the next doubling passes
    1_000_000). *)
Theorem invert_shortcut_and_bracket (y c : string) (target tol : float)
    (n fuel : nat) :
  ((target <=? 0) = true ->
   invert_bill_to_kwh y c target tol n fuel = Some (Ok 0) /\
   forall total_at, invert_search total_at target tol n fuel = Some (Ok 0)) /\
  ((target <=? 0) = false -> (20 <= fuel)%nat ->
   (forall j, (j <= 19)%nat ->
      (forall i, (i < j)%nat -> below (bill_total y c) target (dbl i)) ->
      reached (bill_total y c) target (dbl j) ->
      invert_bill_to_kwh y c target tol n fuel =
        Some (bisect (bill_total y c) target tol n 0 (dbl j))) /\
   ((forall i, (i <= 19)%nat -> below (bill_total y c) target (dbl i)) ->
    invert_bill_to_kwh y c target tol n fuel = Some (Raise SearchBoundError)) /\
   exists r, invert_bill_to_kwh y c target tol n fuel = Some r) /\
  dbl 0 = 1 /\ (forall j, dbl (S j) = dbl j * 2) /\
  dbl 19 = 524288 /\ dbl 20 = 1048576 /\ (1000000 <? dbl 20) = true.
Proof.
  split; [|split; [|repeat split; vm_compute; reflexivity]].
  - intros Hle. split; [|intros total_at].
    + exact (invert_nonpositive (bill_total y c) target tol n fuel Hle).
    + exact (invert_nonpositive total_at target tol n fuel Hle).
  - intros Hgt Hf. unfold invert_bill_to_kwh, invert_search.
    change (target <=? #0)%A with (target <=? 0). rewrite Hgt.
    split; [|split].
    + intros j Hj Hb Hr. unfold dbl in *.
      rewrite (expand_stops (bill_total y c) target j fuel (#1.0)%A); trivial.
      * intros i Hi. exact (dbl_within i ltac:(lia)).
      * lia.
    + intros Hb. unfold dbl in *.
      rewrite (expand_aborts (bill_total y c) target 19 fuel (#1.0)%A); trivial;
        try exact dbl_exceeds; try lia.
      intros i Hi. exact (dbl_within i ltac:(lia)).
    + destruct (expand_returns_some (bill_total y c) target fuel Hf) as ([hi|e] & Hex).
      all: change (expand (bill_total y c) target fuel (#1.0)%A = Some (Ok hi)) in Hex
        || change (expand (bill_total y c) target fuel (#1.0)%A = Some (Raise e)) in Hex.
      all: rewrite Hex; now eexists.
Qed.

(** A target below the fixed service charge: every midpoint is above the
    target, the bracket shrinks towards 0 and the 60 iterations run out. *)
Lemma round_trip_below_service_charge :
  invert_bill_to_kwh_default "2025" "Residential" 1 20 = Some (Ok 0x1p-61) /\
  bill_total "2025" "Residential" 0x1p-61 = Ok 2.13 /\
  (abs (2.13 - 1) <=? 0.01) = false.
Proof. repeat split; vm_compute; reflexivity. Qed.

(** A target inside the jump of the Residential tariff at 30 kWh. *)
Lemma round_trip_inside_lifeline_jump :
  invert_bill_to_kwh_default "2025" "Residential" 50 20 = Some (Ok 30) /\
  bill_total "2025" "Residential" 30 = Ok 27.468253499999999 /\
  (abs (27.468253499999999 - 50) <=? 0.01) = false.
Proof. repeat split; vm_compute; reflexivity. Qed.


(** *** Monotonicity and the range of the inversion *)

(** C6: for a supported year and a recognized category, the total of the
    bill does not decrease when the consumption grows: for
    [0 <= kwh1 <= kwh2] both calls return and
    [total(kwh1) <= total(kwh2)], in binary64 arithmetic with its
    rounding. *)
Theorem total_monotone (y c : string) (k1 k2 : float) :
  In y YEARS -> In c CATEGORIES -> (0 <=? k1) = true -> (k1 <=? k2) = true ->
  exists b1 b2,
    calculate_bill y c k1 = Ok b1 /\ calculate_bill y c k2 = Ok b2 /\
    (total b1 <=? total b2) = true.
Proof.
  intros Hy Hc H1 H12.
  exact (total_monotone_gen (F:=float) y c k1 k2 Hy Hc H1 H12).
Qed.

Lemma total_monotone_witness :
  exists b1 b2,
    calculate_bill "2025" "Residential" 20 = Ok b1 /\
    calculate_bill "2025" "Residential" 300.01 = Ok b2 /\
    (total b1 <=? total b2) = true.
Proof.
  apply (total_monotone "2025" "Residential" 20 300.01);
    [simpl; tauto | simpl; tauto | reflexivity | reflexivity].
Defined.

(** C10: a value that the inversion returns lies in [0, 524288]: it is 0
    when [target_total <= 0]; otherwise the expansion stopped at one of the
    bounds [hi = 1, 2, ..., 2^19 = 524288] and the value is inside the
    bracket [0, hi]. *)
Theorem invert_result_range (y c : string) (target tol r : float) (n fuel : nat) :
  invert_bill_to_kwh y c target tol n fuel = Some (Ok r) ->
  (0 <=? r) = true /\ (r <=? 524288) = true /\
  ((target <=? 0) = true -> r = 0) /\
  ((target <=? 0) = false ->
   exists j, (j < 20)%nat /\
     expand (bill_total y c) target fuel 1 = Some (Ok (dbl j)) /\
     (r <=? dbl j) = true /\ (dbl j <=? 524288) = true).
Proof.
  intros H.
  exact (invert_search_range (F:=float) (bill_total y c) target tol n fuel r H).
Qed.

Lemma invert_result_range_witness :
  (0 <=? 20) = true /\ (20 <=? 524288) = true /\
  ((19.02 <=? 0) = true -> 20 = 0) /\
  ((19.02 <=? 0) = false ->
   exists j, (j < 20)%nat /\
     expand (bill_total "2025" "Residential") 19.02 20 1 = Some (Ok (dbl j)) /\
     (20 <=? dbl j) = true /\ (dbl j <=? 524288) = true).
Proof.
  apply (invert_result_range "2025" "Residential" 19.02 0.01 20 60 20).
  vm_compute. reflexivity.
Defined.
End Binary64Claims.

(** * The summary of the presentation layer ([app.py])

    [extract_summary] regroups the lines of a breakdown by keywords of their
    lower-cased labels. *)

(** [str.lower()] on the ASCII letters (the labels are ASCII). *)
Definition lower_ascii (a : Ascii.ascii) : Ascii.ascii :=
  let n := Ascii.nat_of_ascii a in
  if ((65 <=? n) && (n <=? 90))%nat then Ascii.ascii_of_nat (n + 32) else a.

Fixpoint lower (s : string) : string :=
  match s with
  | EmptyString => EmptyString
  | String a s' => String (lower_ascii a) (lower s')
  end.

(** [needle in hay] for strings: [needle] occurs somewhere in [hay]. *)
Fixpoint contains (needle hay : string) : bool :=
  String.prefix needle hay ||
  match hay with
  | EmptyString => false
  | String _ hay' => contains needle hay'
  end.

Section Summary.
Context {F : Type} {AF : Arith F}.
Local Open Scope arith_scope.

(** One round of the loop over the breakdown: the running sums
    [(energy, service, levies, taxes)] after the line. *)
Definition summary_step (acc : F * F * F * F) (ln : BillLine F) : F * F * F * F :=
  let '(energy, service, levies, taxes) := acc in
  let label := lower (label ln) in
  let amount := amount ln in
  if contains "energy" label then (energy + amount, service, levies, taxes)
  else if contains "service" label then (energy, service + amount, levies, taxes)
  else if contains "tax" label || contains "vat" label
    then (energy, service, levies, taxes + amount)
  else if contains "levy" label then (energy, service, levies + amount, taxes)
  else acc.

Definition extract_summary (result : BillResult F) (category : string)
  : F * F * F * F * F :=
  let '(energy, service, levies, taxes) :=
    fold_left summary_step (breakdown result) (#0.0, #0.0, #0.0, #0.0) in
  let '(levies, taxes) :=
    if String.eqb category "Residential" then (#0.05 * energy, #0.0)
    else (levies, taxes) in
  let total := total result in
  (energy, service, levies, taxes, total).
End Summary.

(** * Further facts about binary64 *)

Section MoreFloatFacts.
Local Open Scope float_scope.
Import Round64.

Lemma float_le_add (a c : float) :
  (0 <=? a) = true -> (0 <=? c) = true ->
  (a <=? a + c) = true /\ (c <=? a + c) = true.
Proof.
  intros Ha Hc. apply nonneg_good in Ha, Hc.
  destruct (float_add_good a c Ha Hc) as [G K].
  pose proof (good_key_nonneg _ Ha). pose proof (good_key_nonneg _ Hc).
  split; apply good_leb; trivial; rewrite K.
  - rewrite <- (rnd_key_good _ Ha) at 1.
    apply rnd_key_mono; [lia|]. intros _. apply shift_of_emin.
  - rewrite <- (rnd_key_good _ Hc) at 1.
    apply rnd_key_mono; [lia|]. intros _. apply shift_of_emin.
Qed.

Lemma float_le_lt_trans (x y z : float) :
  (x <=? y) = true -> (y <? z) = true -> (x <? z) = true.
Proof.
  rewrite !ltb_key, leb_key. intros (? & ? & ?) (? & ? & ?).
  repeat split; trivial. lia.
Qed.

(** Two numbers with the same key compare equal ([==] in Python). *)
Lemma float_eqb_key (x y : float) :
  good (Prim2SF x) -> good (Prim2SF y) -> key (Prim2SF x) = key (Prim2SF y) ->
  (x =? y) = true.
Proof.
  intros Gx Gy K. rewrite FloatAxioms.eqb_spec. unfold SFeqb.
  rewrite compare_floats by now apply good_is_num.
  rewrite K, Z.compare_refl. reflexivity.
Qed.

Lemma float_zero_add (x : float) :
  good (Prim2SF x) ->
  good (Prim2SF (0 + x)) /\ key (Prim2SF (0 + x)) = key (Prim2SF x).
Proof.
  intros Gx.
  assert (G0 : good (Prim2SF 0)) by (split; reflexivity).
  destruct (float_add_good 0 x G0 Gx) as [G K].
  split; [exact G|]. rewrite K. change (key (Prim2SF 0)) with 0%Z.
  rewrite Z.add_0_l. now apply rnd_key_good.
Qed.

Lemma float_add_key_congr (a a' c : float) :
  good (Prim2SF a) -> good (Prim2SF a') -> good (Prim2SF c) ->
  key (Prim2SF a) = key (Prim2SF a') ->
  key (Prim2SF (a + c)) = key (Prim2SF (a' + c)).
Proof.
  intros Ga Ga' Gc K.
  destruct (float_add_good a c Ga Gc) as [_ ->].
  destruct (float_add_good a' c Ga' Gc) as [_ ->].
  now rewrite K.
Qed.

Lemma float_mul_key_congr (a a' c : float) :
  rate_like64 c -> good (Prim2SF a) -> good (Prim2SF a') ->
  key (Prim2SF a) = key (Prim2SF a') ->
  key (Prim2SF (c * a)) = key (Prim2SF (c * a')).
Proof.
  intros Hc Ga Ga' K.
  destruct (rate_like_finite c Hc) as (mc & ec & Ec).
  pose proof (Prim2SF_valid c) as Vc. rewrite Ec in Vc.
  destruct (good_finite_cases _ Ga) as [Fa|Ia].
  - rewrite !mul_spec, Ec.
    destruct (SFmul_key _ mc ec Ga Fa Vc) as (_ & _ & _ & ->).
    destruct (SFmul_key _ mc ec Ga' ltac:(lia) Vc) as (_ & _ & _ & ->).
    now rewrite K.
  - assert (Ia' : Prim2SF a' = S754_infinity false).
    { apply good_key_INF; trivial. rewrite <- K, Ia. reflexivity. }
    rewrite !mul_spec, Ia, Ia'. reflexivity.
Qed.
End MoreFloatFacts.

(** * Further properties of the calculator *)

Section AmountsGeneric.
Context {F : Type} {AF : Arith F} {AL : ArithLaws F} {OL : OrderLaws F}
  {TF : TariffFacts F}.
Local Open Scope arith_scope.

(** The energy charge and the service charge of a supported bill are
    not negative. *)
Lemma energy_service_nonneg (y c : string) (k : F) :
  In y YEARS -> In c CATEGORIES -> nonneg k ->
  exists e s ls,
    calculate_bill y c k = Ok (bill_of y c k e s ls) /\ nonneg e /\ nonneg s.
Proof.
  intros Hy Hc Hk. pose proof (nonneg_not_neg _ Hk) as Hn.
  pose proof (le_refl _ Hk) as Hkk.
  pattern c. revert Hc. apply category_cases.
  - destruct (residential_bill y k Hy Hn)
      as (rl & r1 & r2 & sl & so & Hrl & Hr1 & Hr2 & Hsl & Hso & H).
    pose proof (rates_ok _ _ _ Hy Hrl) as Orl.
    pose proof (rates_ok _ _ _ Hy Hr1) as Or1.
    pose proof (rates_ok _ _ _ Hy Hr2) as Or2.
    rewrite H. destruct (k <=? RES_LIFELINE_MAX).
    + eexists _, _, _. split; [reflexivity|]. split.
      * now apply mul_nonneg_r.
      * exact (services_ok _ _ _ Hy Hsl).
    + destruct (block_energy_mono k k r1 r2 Or1 Or2 Hk Hkk) as [He _].
      unfold block_bill, block_energy in *.
      destruct (blocks k r1 r2) as [[e1 e2] b2].
      eexists _, _, _. split; [reflexivity|]. split; [exact He|].
      exact (services_ok _ _ _ Hy Hso).
  - destruct (non_residential_bill y k Hy Hn) as (r1 & r2 & s & Hr1 & Hr2 & Hs & H).
    pose proof (rates_ok _ _ _ Hy Hr1) as Or1.
    pose proof (rates_ok _ _ _ Hy Hr2) as Or2.
    rewrite H.
    destruct (block_energy_mono k k r1 r2 Or1 Or2 Hk Hkk) as [He _].
    unfold block_bill, block_energy in *.
    destruct (blocks k r1 r2) as [[e1 e2] b2].
    eexists _, _, _. split; [reflexivity|]. split; [exact He|].
    exact (services_ok _ _ _ Hy Hs).
  - intros c' Hc'.
    destruct (slt_bill y c' k Hy Hc' Hn) as (r & s & Hr & Hs & H).
    rewrite H. eexists _, _, _. split; [reflexivity|]. split.
    + apply mul_nonneg_r; [exact (rates_ok _ _ _ Hy Hr)|exact Hk].
    + exact (services_ok _ _ _ Hy Hs).
Qed.

(** A Residential total is at most the lifeline total at 30 kWh when
    [kwh <= 30], and at least the block total at 30 kWh otherwise. *)
Lemma residential_total_bounds (y : string) (k : F) :
  In y YEARS -> nonneg k ->
  exists rl r1 r2 sl so r,
    rate y "RES_LIFELINE" = Ok rl /\ rate y "RES_B1" = Ok r1 /\
    rate y "RES_B2" = Ok r2 /\
    service_fee y "Residential (Lifeline)" = Ok sl /\
    service_fee y "Residential (Other)" = Ok so /\
    calculate_bill y "Residential" k = Ok r /\
    ((k <=? RES_LIFELINE_MAX) = true ->
     le (total r) (total_of "Residential" (RES_LIFELINE_MAX * rl) sl)) /\
    ((k <=? RES_LIFELINE_MAX) = false ->
     le (total_of "Residential" (block_energy RES_LIFELINE_MAX r1 r2) so) (total r)).
Proof.
  intros Hy Hk. pose proof (nonneg_not_neg _ Hk) as Hn.
  destruct (residential_bill y k Hy Hn)
    as (rl & r1 & r2 & sl & so & Hrl & Hr1 & Hr2 & Hsl & Hso & H).
  pose proof (rates_ok _ _ _ Hy Hrl) as Orl.
  pose proof (rates_ok _ _ _ Hy Hr1) as Or1.
  pose proof (rates_ok _ _ _ Hy Hr2) as Or2.
  pose proof (services_ok _ _ _ Hy Hsl) as Osl.
  pose proof (services_ok _ _ _ Hy Hso) as Oso.
  eexists rl, r1, r2, sl, so, _. repeat (split; [eassumption|]).
  split; intros E; rewrite E.
  - rewrite total_bill_of. apply total_of_mono; trivial.
    + now apply mul_nonneg_r.
    + now apply mul_mono_r.
    + now apply le_refl.
  - rewrite total_block_bill.
    assert (H30 : le RES_LIFELINE_MAX k)
      by (apply not_le_le; trivial; apply lifeline_max_ok).
    destruct (block_energy_mono RES_LIFELINE_MAX k r1 r2 Or1 Or2 lifeline_max_ok H30).
    apply total_of_mono; trivial. now apply le_refl.
Qed.
End AmountsGeneric.

Section CalculatorExtras.
Local Open Scope float_scope.

Lemma total_of_parts (c : string) (e s : float) :
  (0 <=? e) = true -> (0 <=? s) = true ->
  let lv := 0.05 * e in
  let tx := tax_of c e s in
  let tot := e + s + lv + tx in
  (0 <=? lv) = true /\ (0 <=? tx) = true /\ (0 <=? tot) = true /\
  (e <=? tot) = true /\ (s <=? tot) = true /\
  (lv <=? tot) = true /\ (tx <=? tot) = true.
Proof.
  intros He Hs lv tx tot.
  assert (Hlv : (0 <=? lv) = true).
  { exact (mul_nonneg_l (F:=float) e LEVY_RATE levy_rate_ok He). }
  assert (Hes : (0 <=? e + s) = true) by now apply Round64.float_add_nonneg.
  assert (Htx : (0 <=? tx) = true).
  { unfold tx, tax_of. destruct (is_taxable c); [|reflexivity].
    exact (mul_nonneg_l (F:=float) (e + s) TAX_RATE tax_rate_ok Hes). }
  assert (Hb : (0 <=? e + s + lv) = true) by now apply Round64.float_add_nonneg.
  destruct (float_le_add e s He Hs) as [A1 A2].
  destruct (float_le_add (e + s) lv Hes Hlv) as [B1 B2].
  destruct (float_le_add (e + s + lv) tx Hb Htx) as [C1 C2].
  fold tot in C1, C2.
  pose proof (Round64.float_le_trans _ _ _ B1 C1) as D.
  repeat split; trivial.
  - now apply Round64.float_add_nonneg.
  - exact (Round64.float_le_trans _ _ _ A1 D).
  - exact (Round64.float_le_trans _ _ _ A2 D).
  - exact (Round64.float_le_trans _ _ _ B2 C1).
Qed.

(** X1: for a supported year, a recognized category and [kwh >= 0], every
    amount of the bill (energy charge, service charge, levy, tax, total) is
    a number that is not negative, and the total is at least each of its
    four parts. *)
Theorem amounts_nonneg_and_bounded (y c : string) (k : float) :
  In y YEARS -> In c CATEGORIES -> (0 <=? k) = true ->
  exists r,
    calculate_bill y c k = Ok r /\
    (0 <=? energy_charge r) = true /\ (0 <=? service_charge r) = true /\
    (0 <=? levy r) = true /\ (0 <=? tax r) = true /\ (0 <=? total r) = true /\
    (energy_charge r <=? total r) = true /\ (service_charge r <=? total r) = true /\
    (levy r <=? total r) = true /\ (tax r <=? total r) = true.
Proof.
  intros Hy Hc Hk.
  assert (Hn : nonneg k) by exact Hk.
  destruct (energy_service_nonneg y c k Hy Hc Hn) as (e & s & ls & H & He & Hs).
  exists (bill_of y c k e s ls). split; [exact H|].
  destruct (total_of_parts c e s He Hs) as (P1 & P2 & P3 & P4 & P5 & P6 & P7).
  repeat split; assumption.
Qed.

Lemma amounts_nonneg_and_bounded_witness :
  exists r,
    calculate_bill "2026" "SLT-MV2" 1234.5 = Ok r /\
    (0 <=? energy_charge r) = true /\ (0 <=? service_charge r) = true /\
    (0 <=? levy r) = true /\ (0 <=? tax r) = true /\ (0 <=? total r) = true /\
    (energy_charge r <=? total r) = true /\ (service_charge r <=? total r) = true /\
    (levy r <=? total r) = true /\ (tax r <=? total r) = true.
Proof.
  apply (amounts_nonneg_and_bounded "2026" "SLT-MV2" 1234.5);
    [simpl; tauto | simpl; tauto | reflexivity].
Defined.

(** X2: a Residential bill is at most 30 when [kwh <= 30] and at least
    68 when [kwh > 30], in both years: no consumption gives a Residential
    total strictly between 30 and 68. *)
Theorem residential_total_gap (y : string) (k : float) :
  In y YEARS -> (0 <=? k) = true ->
  exists r,
    calculate_bill y "Residential" k = Ok r /\
    ((k <=? 30) = true -> (total r <=? 30) = true) /\
    ((30 <? k) = true -> (68 <=? total r) = true).
Proof.
  intros Hy Hk. assert (Hn : nonneg k) by exact Hk.
  destruct (residential_total_bounds y k Hy Hn)
    as (rl & r1 & r2 & sl & so & r & Hrl & Hr1 & Hr2 & Hsl & Hso & H & Hlo & Hup).
  exists r. split; [exact H|]. split.
  - intros E. specialize (Hlo E).
    eapply Round64.float_le_trans; [exact Hlo|].
    revert Hrl Hsl. pattern y. revert Hy. apply year_cases.
    all: intros [= <-] [= <-]; vm_compute; reflexivity.
  - intros E. specialize (Hup (float_lt_not_le _ _ E)).
    eapply Round64.float_le_trans; [|exact Hup].
    revert Hr1 Hr2 Hso. pattern y. revert Hy. apply year_cases.
    all: intros [= <-] [= <-] [= <-]; vm_compute; reflexivity.
Qed.

Lemma residential_total_gap_witness :
  exists r,
    calculate_bill "2026" "Residential" 30.01 = Ok r /\
    ((30.01 <=? 30) = true -> (total r <=? 30) = true) /\
    ((30 <? 30.01) = true -> (68 <=? total r) = true).
Proof.
  apply (residential_total_gap "2026" 30.01); [simpl; tauto | reflexivity].
Defined.
End CalculatorExtras.

(** * Further properties of the reverse calculation *)

Section SearchGeneric.
Context {F : Type} {AF : Arith F} {OL : OrderLaws F} {TF : TariffFacts F}.
Local Open Scope nat_scope.
Local Open Scope arith_scope.

Variable total_at : F -> result F.
Variables target_total tol : F.

(** When the calculator answers on every consumption that is not
    negative, the bisection returns a value. *)
Lemma bisect_returns (n : nat) : forall lo hi : F,
  (forall x, nonneg x -> exists t, total_at x = Ok t) ->
  nonneg lo -> le lo hi -> le hi #524288 ->
  exists r, bisect total_at target_total tol n lo hi = Ok r.
Proof.
  induction n as [|n IH]; intros lo hi Hdef Hlo Hlh Hhi; cbn [bisect].
  - now eexists.
  - destruct (midpoint_between lo hi Hlo Hlh Hhi) as [Hm1 Hm2].
    assert (Hmid : nonneg ((lo + hi) / #2)) by exact (le_trans _ _ _ Hlo Hm1).
    destruct (Hdef _ Hmid) as (t & ->). cbn [bind].
    destruct (fabs (t - target_total) <=? tol); [now eexists|].
    destruct (t - target_total <? #0).
    + apply IH; trivial.
    + apply IH; trivial. exact (le_trans _ _ _ Hm2 Hhi).
Qed.

(** Among bounds on which the calculator answers, the last of which is not
    below the target, there is a first one that is not below the target. *)
Lemma first_reached (n : nat) : forall d : nat -> F,
  (forall i, i <= n -> exists t, total_at (d i) = Ok t) ->
  reached total_at target_total (d n) ->
  exists j, j <= n /\
    (forall i, i < j -> below total_at target_total (d i)) /\
    reached total_at target_total (d j).
Proof.
  induction n as [|n IH]; intros d Hdef Hr.
  - exists 0. repeat split; trivial. intros i Hi. lia.
  - destruct (Hdef 0 ltac:(lia)) as (t & Ht).
    destruct (t <? target_total) eqn:E.
    + destruct (IH (fun i => d (S i))) as (j & Hj & Hb & Hrj).
      * intros i Hi. apply Hdef. lia.
      * exact Hr.
      * exists (S j). repeat split; [lia| |exact Hrj].
        intros [|i] Hi; [now exists t|]. apply Hb. lia.
    + exists 0. repeat split; [lia|intros i Hi; lia|now exists t].
Qed.

(** An error of the calculator at the first bound, 1.0, is the outcome of
    the search for a target that is not [<= 0]. *)
Lemma search_first_call_error (e : exn) (n fuel : nat) :
  total_at #1.0 = Raise e -> (target_total <=? #0) = false -> fuel <> 0 ->
  invert_search total_at target_total tol n fuel = Some (Raise e).
Proof.
  intros He Ht Hf. unfold invert_search. rewrite Ht.
  destruct fuel as [|fuel]; [contradiction|]. cbn [expand]. now rewrite He.
Qed.
End SearchGeneric.

Section InverterExtras.
Local Open Scope float_scope.

Lemma bill_total_defined (y c : string) (x : float) :
  In y YEARS -> In c CATEGORIES -> (0 <=? x) = true ->
  exists b, calculate_bill y c x = Ok b /\ bill_total y c x = Ok (total b).
Proof.
  intros Hy Hc Hx.
  destruct (supported_bill y c x Hy Hc (nonneg_passes x Hx)) as (e & s & ls & H).
  eexists. split; [exact H|]. unfold bill_total. now rewrite H.
Qed.

Lemma dbl_19 : dbl 19 = 524288.
Proof. vm_compute. reflexivity. Qed.

(** The totals at the bounds 1, 2, ..., 2^19 are at most the total at 2^19. *)
Lemma totals_at_bounds (y c : string) (i : nat) :
  In y YEARS -> In c CATEGORIES -> (i < 20)%nat ->
  exists t t19,
    bill_total y c (dbl i) = Ok t /\ bill_total y c 524288 = Ok t19 /\
    (t <=? t19) = true.
Proof.
  intros Hy Hc Hi.
  destruct (doubling_range (F:=float) i Hi) as [Hn Hle].
  destruct (total_monotone_gen y c (dbl i) (#524288)%A Hy Hc Hn Hle)
    as (b1 & b2 & H1 & H2 & Hm).
  change (calculate_bill y c (#524288)%A) with (calculate_bill y c 524288) in H2.
  exists (total b1), (total b2). unfold bill_total. rewrite H1, H2.
  repeat split. exact Hm.
Qed.

(** X3: for a supported year and a recognized category the inversion
    fails exactly when the target is not [<= 0] and the bill at
    2^19 = 524288 kWh is below the target, and then with the search-bound
    error; in every other case it returns an estimate. *)
Theorem invert_outcome (y c : string) (target tol : float) (n fuel : nat) :
  In y YEARS -> In c CATEGORIES -> (20 <= fuel)%nat ->
  exists t19,
    bill_total y c 524288 = Ok t19 /\
    ((target <=? 0) = false -> (t19 <? target) = true ->
     invert_bill_to_kwh y c target tol n fuel = Some (Raise SearchBoundError)) /\
    ((target <=? 0) = true \/ (t19 <? target) = false ->
     exists r, invert_bill_to_kwh y c target tol n fuel = Some (Ok r)).
Proof.
  intros Hy Hc Hf.
  destruct (totals_at_bounds y c 19 Hy Hc ltac:(lia)) as (t & t19 & _ & H19 & _).
  exists t19. split; [exact H19|].
  unfold invert_bill_to_kwh, invert_search.
  change (target <=? #0)%A with (target <=? 0).
  split.
  - intros Ht Hlt. rewrite Ht.
    rewrite (expand_aborts (bill_total y c) target 19 fuel (#1.0)%A);
      trivial; try exact dbl_exceeds; try lia.
    + intros i Hi.
      destruct (totals_at_bounds y c i Hy Hc ltac:(lia))
        as (ti & t19' & Hi1 & Hi2 & Hle).
      rewrite H19 in Hi2. injection Hi2 as <-.
      exists ti. split; [exact Hi1|].
      exact (float_le_lt_trans _ _ _ Hle Hlt).
    + intros i Hi. exact (dbl_within i ltac:(lia)).
  - intros Hcase. destruct (target <=? 0) eqn:Ht.
    { now eexists. }
    destruct Hcase as [Hcase|Hge]; [discriminate|].
    destruct (first_reached (bill_total y c) target 19 dbl) as (j & Hj & Hb & Hr).
    + intros i Hi.
      destruct (totals_at_bounds y c i Hy Hc ltac:(lia)) as (ti & _ & Hi1 & _).
      now exists ti.
    + exists t19. rewrite dbl_19. now split.
    + unfold dbl in Hb, Hr.
      rewrite (expand_stops (bill_total y c) target j fuel (#1.0)%A); trivial;
        try lia.
      * destruct (doubling_range (F:=float) j ltac:(lia)) as [Hn Hle].
        destruct (bisect_returns (bill_total y c) target tol n (#0.0)%A (dbl j))
          as (r & Hbis).
        -- intros x Hx.
           destruct (bill_total_defined y c x Hy Hc Hx) as (b & _ & Hb').
           eexists. exact Hb'.
        -- reflexivity.
        -- exact Hn.
        -- exact Hle.
        -- exists r. unfold dbl in Hbis. now rewrite Hbis.
      * intros i Hi. exact (dbl_within i ltac:(lia)).
Qed.

Lemma invert_outcome_witness :
  invert_bill_to_kwh "2025" "SLT-LV" 1e9 0.01 60 20
    = Some (Raise SearchBoundError) /\
  exists r, invert_bill_to_kwh "2025" "SLT-LV" 1000 0.01 60 20 = Some (Ok r).
Proof.
  split.
  - destruct (invert_outcome "2025" "SLT-LV" 1e9 0.01 60 20)
      as (t19 & H19 & Hraise & _); [simpl; tauto | simpl; tauto | lia |].
    apply Hraise; [reflexivity|].
    vm_compute in H19. injection H19 as <-. reflexivity.
  - destruct (invert_outcome "2025" "SLT-LV" 1000 0.01 60 20)
      as (t19 & H19 & _ & Hret); [simpl; tauto | simpl; tauto | lia |].
    apply Hret. right.
    vm_compute in H19. injection H19 as <-. reflexivity.
Defined.

(** X4: for a supported year and a recognized category, an estimate that
    the inversion returns is a consumption on which [calculate_bill]
    succeeds (the second call of the "kWh from Bill" mode cannot fail), and
    the bill it gives is at most the bill at 524288 kWh. *)
Theorem estimate_is_billable (y c : string) (target tol est : float) (n fuel : nat) :
  In y YEARS -> In c CATEGORIES ->
  invert_bill_to_kwh y c target tol n fuel = Some (Ok est) ->
  exists b t19,
    calculate_bill y c est = Ok b /\ bill_total y c 524288 = Ok t19 /\
    (total b <=? t19) = true.
Proof.
  intros Hy Hc H.
  destruct (invert_search_range (bill_total y c) target tol n fuel est H)
    as (H0 & H1 & _).
  destruct (total_monotone_gen y c est (#524288)%A Hy Hc H0 H1)
    as (b1 & b2 & E1 & E2 & Hm).
  change (calculate_bill y c (#524288)%A) with (calculate_bill y c 524288) in E2.
  exists b1, (total b2). unfold bill_total. rewrite E2. repeat split; assumption.
Qed.

Lemma estimate_is_billable_witness :
  exists b t19,
    calculate_bill "2025" "Residential" 20 = Ok b /\
    bill_total "2025" "Residential" 524288 = Ok t19 /\
    (total b <=? t19) = true.
Proof.
  apply (estimate_is_billable "2025" "Residential" 19.02 0.01 20 60 20);
    [simpl; tauto | simpl; tauto | vm_compute; reflexivity].
Defined.

(** X5: for a target that is not [<= 0], an unsupported year or category
    makes the inversion fail with the calculator's own error (raised by
    the first call, at 1.0), not with the search-bound error. *)
Theorem invert_propagates_errors (y c : string) (target tol : float) (n fuel : nat) :
  (target <=? 0) = false -> fuel <> 0%nat ->
  (~ In y YEARS ->
   invert_bill_to_kwh y c target tol n fuel = Some (Raise ConfigurationError)) /\
  (In y YEARS -> ~ In c CATEGORIES ->
   invert_bill_to_kwh y c target tol n fuel = Some (Raise InvalidInput_category)).
Proof.
  intros Ht Hf. split.
  - intros Hy.
    refine (search_first_call_error (bill_total y c) target tol _ n fuel _ Ht Hf).
    unfold bill_total. now rewrite (unsupported_year y c) by assumption.
  - intros Hy Hc.
    refine (search_first_call_error (bill_total y c) target tol _ n fuel _ Ht Hf).
    unfold bill_total.
    assert (E : calculate_bill y c 1 = Raise InvalidInput_category)
      by exact (unsupported_category (F:=float) y c 1 Hy eq_refl Hc).
    change (calculate_bill y c (#1.0)%A) with (calculate_bill y c 1).
    now rewrite E.
Qed.

Lemma invert_propagates_errors_witness :
  invert_bill_to_kwh "2099" "Hotel" 100 0.01 60 20
    = Some (Raise ConfigurationError) /\
  invert_bill_to_kwh "2025" "Hotel" 100 0.01 60 20
    = Some (Raise InvalidInput_category).
Proof.
  split.
  - apply (invert_propagates_errors "2099" "Hotel" 100 0.01 60 20);
      [reflexivity | discriminate | simpl; intuition discriminate].
  - apply (invert_propagates_errors "2025" "Hotel" 100 0.01 60 20);
      [reflexivity | discriminate | simpl; tauto | simpl; intuition discriminate].
Defined.
End InverterExtras.

(** * The summary of a bill

    What [extract_summary] makes of the breakdown that [calculate_bill]
    builds.  The loop starts every sum at [0.0], so a sum is [0.0 + x] where
    the bill has [x]: the two agree as numbers ([==]). *)

(** The figure of the third row of the rendered breakdown. *)
Definition levies_display {F : Type} {AF : Arith F} (category : string)
    (levies taxes : F) : F :=
  if String.eqb category "Residential" then levies else fadd levies taxes.

Section SummaryFacts.
Local Open Scope float_scope.
Import Round64.

Definition same_number (x y : float) : Prop :=
  good (Prim2SF x) /\ good (Prim2SF y) /\ key (Prim2SF x) = key (Prim2SF y).

Lemma same_number_eqb (x y : float) : same_number x y -> (x =? y) = true.
Proof. intros (Gx & Gy & K). now apply float_eqb_key. Qed.

Lemma zero_add_same (x : float) : (0 <=? x) = true -> same_number (0 + x) x.
Proof.
  intros H. apply nonneg_good in H.
  destruct (float_zero_add x H) as [G K]. unfold same_number. auto.
Qed.

(** The energy lines [ls] add up, from [0.0], to the energy charge [e], and
    touch no other sum. *)
Definition summed (ls : list (BillLine float)) (e : float) : Prop :=
  exists e',
    fold_left summary_step ls (0, 0, 0, 0) = (e', 0, 0, 0) /\ same_number e' e.

Lemma summed_lifeline (e : float) :
  (0 <=? e) = true -> summed (lifeline_lines e) e.
Proof. intros H. exists (0 + e). split; [reflexivity|now apply zero_add_same]. Qed.

Lemma summed_flat (e : float) : (0 <=? e) = true -> summed (flat_lines e) e.
Proof. intros H. exists (0 + e). split; [reflexivity|now apply zero_add_same]. Qed.

Lemma zero_key (x : float) :
  good (Prim2SF x) -> (0 <? x) = false -> key (Prim2SF x) = 0%Z.
Proof.
  intros G H. pose proof (good_key_nonneg _ G) as B.
  assert (G0 : good (Prim2SF 0)) by (split; reflexivity).
  destruct (Z.eq_dec (key (Prim2SF x)) 0) as [E|E]; [exact E|].
  assert (L : (0 <? x) = true).
  { apply good_ltb; trivial. change (key (Prim2SF 0)) with 0%Z. lia. }
  congruence.
Qed.

Lemma summed_blocks (k r1 r2 : float) :
  (0 <=? k) = true -> rate_like64 r1 -> rate_like64 r2 ->
  let '(e1, e2, kwh_b2) := blocks k r1 r2 in
  (0 <=? e1 + e2) = true /\ summed (block_lines e1 e2 kwh_b2) (e1 + e2).
Proof.
  intros Hk Hr1 Hr2. unfold blocks.
  assert (Hn : nonneg k) by exact Hk.
  destruct (block_300_ok (F:=float)) as [Hb Hbb].
  destruct (py_min_mono k k BLOCK_300 Hn (le_refl _ Hn) Hb) as [Hm1 _].
  destruct (py_max_zero_mono k k BLOCK_300 Hb Hbb Hn (le_refl _ Hn)) as [Hx1 _].
  set (b1 := py_min k BLOCK_300) in *.
  set (b2 := py_max (flit 0.0) (fsub k BLOCK_300)) in *.
  assert (G1 : good (Prim2SF (b1 * r1)))
    by exact (proj1 (float_mul_good b1 r1 Hr1 (proj1 (nonneg_good b1) Hm1))).
  assert (G2 : good (Prim2SF (b2 * r2)))
    by exact (proj1 (float_mul_good b2 r2 Hr2 (proj1 (nonneg_good b2) Hx1))).
  assert (N1 : (0 <=? b1 * r1) = true) by now apply nonneg_good.
  assert (N2 : (0 <=? b2 * r2) = true) by now apply nonneg_good.
  destruct (float_zero_add _ G1) as [G01 K01].
  split; [now apply float_add_nonneg|].
  unfold block_lines, summed.
  change (fltb (flit 0) b2) with (0 <? b2).
  destruct (0 <? b2) eqn:E.
  - exists (0 + b1 * r1 + b2 * r2). split; [reflexivity|].
    repeat split; try (now apply float_add_good).
    now apply float_add_key_congr.
  - exists (0 + b1 * r1). split; [reflexivity|].
    repeat split; trivial; try (now apply float_add_good).
    rewrite K01.
    change (key (Prim2SF (b1 * r1)) = key (Prim2SF (b1 * r1 + b2 * r2))).
    destruct (float_add_good _ _ G1 G2) as [_ ->].
    assert (Gb : good (Prim2SF b2)) by exact (proj1 (nonneg_good b2) Hx1).
    pose proof (zero_key b2 Gb E) as Kb.
    destruct (rate_like_finite r2 Hr2) as (m & e & Er).
    pose proof (Prim2SF_valid r2) as Vr. rewrite Er in Vr.
    assert (K2 : key (Prim2SF (b2 * r2)) = 0%Z).
    { rewrite mul_spec, Er.
      destruct (SFmul_key _ m e Gb ltac:(pose proof INF_pos; lia) Vr)
        as (_ & _ & -> & _).
      rewrite Kb, Z.mul_0_l. apply rnd_key_zero. }
    rewrite K2, Z.add_0_r. symmetry. now apply rnd_key_good.
Qed.

(** The bill of a supported request, with its energy lines summed. *)
Lemma bill_summed (y c : string) (k : float) :
  In y YEARS -> In c CATEGORIES -> (0 <=? k) = true ->
  exists e s ls,
    calculate_bill y c k = Ok (bill_of y c k e s ls) /\
    (0 <=? e) = true /\ (0 <=? s) = true /\ summed ls e.
Proof.
  intros Hy Hc Hk. assert (Hn : nonneg k) by exact Hk.
  pose proof (nonneg_not_neg _ Hn) as Hneg.
  pattern c. revert Hc. apply category_cases.
  - destruct (residential_bill y k Hy Hneg)
      as (rl & r1 & r2 & sl & so & Hrl & Hr1 & Hr2 & Hsl & Hso & H).
    pose proof (rates_ok _ _ _ Hy Hrl) as Orl.
    pose proof (rates_ok _ _ _ Hy Hr1) as Or1.
    pose proof (rates_ok _ _ _ Hy Hr2) as Or2.
    rewrite H. destruct (fleb k RES_LIFELINE_MAX).
    + assert (He : (0 <=? k * rl) = true)
        by exact (proj1 (float_mul_nonneg k rl Orl Hk)).
      eexists _, _, _. split; [reflexivity|]. split; [exact He|]. split.
      * exact (services_ok _ _ _ Hy Hsl).
      * now apply summed_lifeline.
    + pose proof (summed_blocks k r1 r2 Hk Or1 Or2) as Hs.
      unfold block_bill. destruct (blocks k r1 r2) as [[e1 e2] b2].
      destruct Hs as [He Hs].
      eexists _, _, _. split; [reflexivity|]. split; [exact He|]. split.
      * exact (services_ok _ _ _ Hy Hso).
      * exact Hs.
  - destruct (non_residential_bill y k Hy Hneg) as (r1 & r2 & s & Hr1 & Hr2 & Hs' & H).
    pose proof (rates_ok _ _ _ Hy Hr1) as Or1.
    pose proof (rates_ok _ _ _ Hy Hr2) as Or2.
    rewrite H.
    pose proof (summed_blocks k r1 r2 Hk Or1 Or2) as Hs.
    unfold block_bill. destruct (blocks k r1 r2) as [[e1 e2] b2].
    destruct Hs as [He Hs].
    eexists _, _, _. split; [reflexivity|]. split; [exact He|]. split.
    + exact (services_ok _ _ _ Hy Hs').
    + exact Hs.
  - intros c' Hc'.
    destruct (slt_bill y c' k Hy Hc' Hneg) as (r & s & Hr & Hs & H).
    pose proof (rates_ok _ _ _ Hy Hr) as Or.
    assert (He : (0 <=? k * r) = true)
      by exact (proj1 (float_mul_nonneg k r Or Hk)).
    rewrite H. eexists _, _, _. split; [reflexivity|]. split; [exact He|]. split.
    + exact (services_ok _ _ _ Hy Hs).
    + now apply summed_flat.
Qed.

(** The four sums after the loop over the whole breakdown. *)
Lemma sums_of_bill (y c : string) (k e s : float) (ls : list (BillLine float)) :
  summed ls e ->
  exists e',
    fold_left summary_step (breakdown (bill_of y c k e s ls)) (0, 0, 0, 0) =
      (e', 0 + s, 0, 0 + tax_of c e s) /\
    same_number e' e.
Proof.
  intros (e' & Hf & Hs). exists e'. split; [|exact Hs].
  unfold bill_of. cbn [breakdown]. rewrite fold_left_app, Hf. reflexivity.
Qed.

Lemma extract_summary_sums (r : BillResult float) (c : string)
    (e s l t : float) :
  fold_left summary_step (breakdown r) (0, 0, 0, 0) = (e, s, l, t) ->
  extract_summary r c =
    (e, s, if String.eqb c "Residential" then 0.05 * e else l,
     if String.eqb c "Residential" then 0 else t, total r).
Proof.
  intros H. unfold extract_summary.
  change (flit 0.0, flit 0.0, flit 0.0, flit 0.0) with (0, 0, 0, 0).
  rewrite H. now destruct (String.eqb c "Residential").
Qed.
End SummaryFacts.

Section SummaryExtras.
Local Open Scope float_scope.
Import Round64.

Lemma summary_parts (y c : string) (k : float) :
  In y YEARS -> In c CATEGORIES -> (0 <=? k) = true ->
  exists e s ls e',
    calculate_bill y c k = Ok (bill_of y c k e s ls) /\
    extract_summary (bill_of y c k e s ls) c =
      (e', 0 + s,
       if String.eqb c "Residential" then 0.05 * e' else 0,
       if String.eqb c "Residential" then 0 else 0 + tax_of c e s,
       total (bill_of y c k e s ls)) /\
    same_number e' e /\ (0 <=? e) = true /\ (0 <=? s) = true.
Proof.
  intros Hy Hc Hk.
  destruct (bill_summed y c k Hy Hc Hk) as (e & s & ls & H & He & Hs & Hsum).
  destruct (sums_of_bill y c k e s ls Hsum) as (e' & Hf & Hsame).
  exists e, s, ls, e'. split; [exact H|].
  split; [exact (extract_summary_sums _ c _ _ _ _ Hf)|]. auto.
Qed.

Lemma levy_same (e' e : float) :
  same_number e' e -> same_number (0.05 * e') (LEVY_RATE * e).
Proof.
  intros (G' & G & K).
  pose proof (levy_rate_ok (F:=float)) as Hl.
  change (0.05 * e') with (LEVY_RATE * e').
  split; [|split].
  - exact (proj2 (float_mul_good e' LEVY_RATE Hl G')).
  - exact (proj2 (float_mul_good e LEVY_RATE Hl G)).
  - exact (float_mul_key_congr e' e LEVY_RATE Hl G' G K).
Qed.

Lemma not_residential (c : string) :
  c <> "Residential" -> String.eqb c "Residential" = false.
Proof. intros H. now apply String.eqb_neq. Qed.

(** X6: for a supported year and [kwh >= 0], the summary of the Residential
    bill has the bill's energy charge, service charge and levy (equal as
    numbers, [==]), no tax, as the bill, and the bill's total. *)
Theorem summary_of_residential (y : string) (k : float) :
  In y YEARS -> (0 <=? k) = true ->
  exists r e s l,
    calculate_bill y "Residential" k = Ok r /\
    extract_summary r "Residential" = (e, s, l, 0, total r) /\
    (e =? energy_charge r) = true /\ (s =? service_charge r) = true /\
    (l =? levy r) = true /\ tax r = 0.
Proof.
  intros Hy Hk.
  destruct (summary_parts y "Residential" k Hy ltac:(now left) Hk)
    as (e & s & ls & e' & H & Hx & Hsame & He & Hs).
  exists (bill_of y "Residential" k e s ls), e', (0 + s), (0.05 * e').
  split; [exact H|]. split; [exact Hx|]. repeat split.
  - now apply same_number_eqb.
  - now apply same_number_eqb, zero_add_same.
  - now apply same_number_eqb, levy_same.
Qed.

Lemma summary_of_residential_witness :
  exists r e s l,
    calculate_bill "2025" "Residential" 450 = Ok r /\
    extract_summary r "Residential" = (e, s, l, 0, total r) /\
    (e =? energy_charge r) = true /\ (s =? service_charge r) = true /\
    (l =? levy r) = true /\ tax r = 0.
Proof.
  apply (summary_of_residential "2025" 450); [simpl; tauto | reflexivity].
Defined.

(** X7: for a supported year, a recognized category other than
    "Residential" and [kwh >= 0], the summary has the bill's energy charge,
    service charge and tax (equal as numbers, [==]) and the bill's total,
    but its levies are [0.0] whatever the levy of the bill: the line
    "Levies" matches none of the keywords ("levy" does not occur in
    "levies"). *)
Theorem summary_omits_levies (y c : string) (k : float) :
  In y YEARS -> In c CATEGORIES -> c <> "Residential" -> (0 <=? k) = true ->
  exists r e s t,
    calculate_bill y c k = Ok r /\
    extract_summary r c = (e, s, 0, t, total r) /\
    (e =? energy_charge r) = true /\ (s =? service_charge r) = true /\
    (t =? tax r) = true.
Proof.
  intros Hy Hc Hr Hk.
  destruct (summary_parts y c k Hy Hc Hk)
    as (e & s & ls & e' & H & Hx & Hsame & He & Hs).
  rewrite (not_residential c Hr) in Hx.
  destruct (total_of_parts c e s He Hs) as (_ & Ht & _).
  exists (bill_of y c k e s ls), e', (0 + s), (0 + tax_of c e s).
  split; [exact H|]. split; [exact Hx|]. repeat split.
  - now apply same_number_eqb.
  - now apply same_number_eqb, zero_add_same.
  - now apply same_number_eqb, zero_add_same.
Qed.

Lemma summary_omits_levies_witness :
  exists r e s t,
    calculate_bill "2025" "SLT-LV" 1000 = Ok r /\
    extract_summary r "SLT-LV" = (e, s, 0, t, total r) /\
    (e =? energy_charge r) = true /\ (s =? service_charge r) = true /\
    (t =? tax r) = true.
Proof.
  apply (summary_omits_levies "2025" "SLT-LV" 1000);
    [simpl; tauto | simpl; tauto | discriminate | reflexivity].
Defined.

Lemma add_zero_same (x : float) : (0 <=? x) = true -> same_number (x + 0) x.
Proof.
  intros H. apply nonneg_good in H.
  assert (G0 : good (Prim2SF 0)) by (split; reflexivity).
  destruct (float_add_good x 0 H G0) as [G K].
  split; [exact G|]. split; [exact H|].
  rewrite K. change (key (Prim2SF 0)) with 0%Z.
  rewrite Z.add_0_r. now apply rnd_key_good.
Qed.

(** X8: the third figure of the rendered breakdown.  The page renders the
    summary stored by the last computation under the category [c'] that the
    category widget shows at that moment: [c' = c], the category of the
    bill, in the run that computes the bill, but the stored summary stays
    when the widget is changed and nothing is recomputed.  For a supported
    year, a recognized bill category [c] and [kwh >= 0], the figure is (equal
    as numbers, [==]): the levy of the bill when the bill is Residential,
    whatever [c'] is; for any other bill category, [0.0] when [c'] is
    "Residential" and otherwise the tax of the bill alone, so in the run
    that computes a non-Residential bill "Levies and Taxes" leaves the levy
    out. *)
Theorem displayed_levies (y c c' : string) (k : float) :
  In y YEARS -> In c CATEGORIES -> (0 <=? k) = true ->
  exists r e s l t,
    calculate_bill y c k = Ok r /\
    extract_summary r c = (e, s, l, t, total r) /\
    (levies_display c' l t =?
       if String.eqb c "Residential" then levy r
       else if String.eqb c' "Residential" then 0 else tax r) = true.
Proof.
  intros Hy Hc Hk.
  destruct (summary_parts y c k Hy Hc Hk)
    as (e & s & ls & e' & H & Hx & Hsame & He & Hs).
  destruct (total_of_parts c e s He Hs) as (Hl & Ht & _).
  eexists _, _, _, _, _. split; [exact H|]. split; [exact Hx|].
  unfold levies_display.
  pose proof (levy_same e' e Hsame) as Hlv.
  destruct (String.eqb c "Residential"), (String.eqb c' "Residential").
  - now apply same_number_eqb.
  - apply same_number_eqb.
    destruct Hlv as (G1 & G2 & K).
    destruct (add_zero_same (0.05 * e') (proj2 (nonneg_good _) G1)) as (G3 & _ & K').
    split; [exact G3|]. split; [exact G2|]. exact (eq_trans K' K).
  - reflexivity.
  - apply same_number_eqb.
    destruct (zero_add_same _ Ht) as (G1 & G2 & K).
    assert (N : (0 <=? 0 + tax_of c e s) = true) by now apply nonneg_good.
    destruct (zero_add_same _ N) as (G3 & _ & K').
    split; [exact G3|]. split; [exact G2|].
    exact (eq_trans K' K).
Qed.

Lemma displayed_levies_witness :
  (exists r e s l t,
     calculate_bill "2026" "Non-Residential" 725.5 = Ok r /\
     extract_summary r "Non-Residential" = (e, s, l, t, total r) /\
     (levies_display "Non-Residential" l t =? tax r) = true) /\
  (exists r e s l t,
     calculate_bill "2025" "Residential" 450 = Ok r /\
     extract_summary r "Residential" = (e, s, l, t, total r) /\
     (levies_display "SLT-LV" l t =? levy r) = true).
Proof.
  split.
  - apply (displayed_levies "2026" "Non-Residential" "Non-Residential" 725.5);
      [simpl; tauto | simpl; tauto | reflexivity].
  - apply (displayed_levies "2025" "Residential" "SLT-LV" 450);
      [simpl; tauto | simpl; tauto | reflexivity].
Defined.
End SummaryExtras.

(** * Rounding on a coarse grid

    Every multiple of [2^-24] up to [2^28] is a binary64 number, so
    rounding moves a value of that range by less than [2^-24]. *)

Module Grid64.
Import Round64.
Local Open Scope Z_scope.

(** The key of [2^-24]. *)
Definition ulp24 : Z := 2 ^ 1050.

(** The key of [2^27]. *)
Definition cap : Z := 2 ^ 51 * ulp24.

Lemma ulp24_pos : 0 < ulp24.
Proof. reflexivity. Qed.

Lemma shift_of_ge (M E : Z) : emin64 - E <= shift_of M E.
Proof. unfold shift_of, fexp64. lia. Qed.

Lemma grid_exact (X : Z) :
  0 <= X <= 2 ^ 52 -> rnd_key (X * ulp24) emin64 = X * ulp24.
Proof.
  intros HX. destruct (Z.eq_dec X 0) as [->|Hn]; [apply rnd_key_zero|].
  assert (Hp : 0 < X) by lia.
  pose proof (digits_pos X Hp) as Hd.
  assert (Hd53 : Zdigits2 X <= 53).
  { pose proof (digits_le X (2 ^ 52) Hp ltac:(lia)) as H.
    rewrite digits_pow2 in H by lia. lia. }
  set (d := Zdigits2 X) in *.
  replace (X * ulp24) with (X * 2 ^ (53 - d) * 2 ^ (997 + d)).
  2:{ unfold ulp24. rewrite <- Z.mul_assoc, <- Z.pow_add_r by lia.
      f_equal. f_equal. lia. }
  assert (Hx' : 0 < X * 2 ^ (53 - d)).
  { apply Z.mul_pos_pos; [lia|apply pow2_pos; lia]. }
  assert (Hdig : Zdigits2 (X * 2 ^ (53 - d)) = 53).
  { rewrite digits_shift by lia. fold d. lia. }
  apply rnd_key_exact; try lia.
  - unfold shift_of. rewrite digits_shift by lia. rewrite Hdig.
    unfold fexp64, emin64. lia.
  - pose proof (digits_bounds _ Hx') as [_ B]. rewrite Hdig in B.
    unfold INF.
    apply Z.lt_le_trans with (2 ^ 53 * 2 ^ (997 + d)).
    + apply Z.mul_lt_mono_pos_r; [apply pow2_pos; lia|exact B].
    + rewrite <- Z.pow_add_r by lia. apply Z.pow_le_mono_r; lia.
Qed.

(** Rounding a value [M * 2^-n] (in keys) that is at most [2^27]. *)
Lemma rnd_slack (M n : Z) :
  0 <= n -> 0 <= M <= cap * 2 ^ n ->
  let R := rnd_key M (emin64 - n) in
  (R - ulp24) * 2 ^ n <= M <= (R + ulp24) * 2 ^ n.
Proof.
  intros Hn HM R.
  pose proof ulp24_pos as Hu.
  assert (HP : 0 < 2 ^ n) by now apply pow2_pos.
  set (P := 2 ^ n) in *.
  assert (HuP : 0 < ulp24 * P) by now apply Z.mul_pos_pos.
  set (q := M / (ulp24 * P)).
  pose proof (Z.mul_div_le M (ulp24 * P) HuP) as Hlo.
  pose proof (Z.mul_succ_div_gt M (ulp24 * P) HuP) as Hhi.
  fold q in Hlo, Hhi.
  assert (Hq0 : 0 <= q) by (apply Z.div_pos; lia).
  assert (Hq1 : q <= 2 ^ 51).
  { unfold q. apply Z.div_le_upper_bound; [lia|]. unfold cap in HM.
    replace (ulp24 * P * 2 ^ 51) with (2 ^ 51 * ulp24 * P) by ring. lia. }
  assert (Hex : forall X, 0 <= X <= 2 ^ 52 ->
            rnd_key (X * ulp24 * P) (emin64 - n) = X * ulp24).
  { intros X HX. destruct (Z.eq_dec X 0) as [->|Hx]; [apply rnd_key_zero|].
    assert (0 < X * ulp24) by (apply Z.mul_pos_pos; lia).
    unfold P. rewrite rnd_key_shift; trivial.
    - now apply grid_exact.
    - apply shift_of_emin. }
  assert (Hshift : forall V, 0 <= shift_of V (emin64 - n)).
  { intros V. pose proof (shift_of_ge V (emin64 - n)). lia. }
  assert (L : q * ulp24 <= R).
  { rewrite <- (Hex q) by lia. apply rnd_key_mono; [|intros _; apply Hshift].
    split; [apply Z.mul_nonneg_nonneg; lia|].
    replace (q * ulp24 * P) with (ulp24 * P * q) by ring. exact Hlo. }
  assert (U : R <= (q + 1) * ulp24).
  { rewrite <- (Hex (q + 1)) by lia. apply rnd_key_mono; [|intros _; apply Hshift].
    split; [lia|].
    replace ((q + 1) * ulp24 * P) with (ulp24 * P * Z.succ q) by ring. lia. }
  split.
  - apply Z.le_trans with (ulp24 * P * q); [|exact Hlo].
    replace (ulp24 * P * q) with (q * ulp24 * P) by ring.
    apply Z.mul_le_mono_nonneg_r; lia.
  - apply Z.le_trans with (ulp24 * P * Z.succ q); [lia|].
    replace (ulp24 * P * Z.succ q) with ((q + 1) * ulp24 * P) by ring.
    apply Z.mul_le_mono_nonneg_r; lia.
Qed.

Lemma rnd_slack0 (M : Z) :
  0 <= M <= cap -> M - ulp24 <= rnd_key M emin64 <= M + ulp24.
Proof.
  intros HM. pose proof (rnd_slack M 0 ltac:(lia)) as H.
  change (2 ^ 0) with 1 in H. rewrite !Z.mul_1_r in H.
  change (emin64 - 0) with emin64 in H. specialize (H HM). cbv zeta in H. lia.
Qed.
End Grid64.

(** * How far the bill moves with the consumption

    [near D B x x']: [x <= x' <= x + D] and [x' <= B], on keys, for two
    numbers that are not negative. *)

Section Near.
Local Open Scope float_scope.
Import Round64 Grid64.

Definition K (x : float) : Z := key (Prim2SF x).

(** The key of [1.0]. *)
Definition one : Z := 2 ^ 24 * ulp24.

Definition near (D B : Z) (x x' : float) : Prop :=
  good (Prim2SF x) /\ good (Prim2SF x') /\
  (K x <= K x' <= K x + D)%Z /\ (K x' <= B)%Z.

Ltac near_split := unfold near, K in *; split; [assumption|split; [assumption|lia]].

Lemma cap_INF : (cap + ulp24 < INF)%Z.
Proof. reflexivity. Qed.

Lemma near_refl (B : Z) (x : float) :
  good (Prim2SF x) -> (K x <= B)%Z -> near 0 B x x.
Proof. intros G H. near_split. Qed.

Lemma near_weaken (D B D' B' : Z) (x x' : float) :
  near D B x x' -> (D <= D')%Z -> (B <= B')%Z -> near D' B' x x'.
Proof. intros (G & G' & H & HB) HD HB'. near_split. Qed.

Lemma near_nonneg (D B : Z) (x x' : float) :
  near D B x x' -> (0 <= K x /\ 0 <= D /\ 0 <= B)%Z.
Proof.
  intros (G & G' & H & HB). pose proof (good_key_nonneg _ G).
  unfold K in *. lia.
Qed.

Lemma near_add (Da Ba Db Bb : Z) (a a' b b' : float) :
  near Da Ba a a' -> near Db Bb b b' -> (Ba + Bb <= cap)%Z ->
  near (Da + Db + 2 * ulp24) (Ba + Bb + ulp24) (a + b) (a' + b').
Proof.
  intros Ha Hb Hcap.
  pose proof (near_nonneg _ _ _ _ Ha) as Na.
  pose proof (near_nonneg _ _ _ _ Hb) as Nb.
  destruct Ha as (Ga & Ga' & Ha & HBa), Hb as (Gb & Gb' & Hb & HBb).
  destruct (float_add_good a b Ga Gb) as [G K1].
  destruct (float_add_good a' b' Ga' Gb') as [G' K2].
  unfold near, K in *. rewrite K1, K2.
  pose proof (rnd_slack0 (key (Prim2SF a) + key (Prim2SF b)) ltac:(lia)) as S1.
  pose proof (rnd_slack0 (key (Prim2SF a') + key (Prim2SF b')) ltac:(lia)) as S2.
  pose proof (rnd_key_mono (key (Prim2SF a) + key (Prim2SF b))
                (key (Prim2SF a') + key (Prim2SF b')) emin64 ltac:(lia)
                (fun _ => shift_of_emin _)) as M.
  split; [exact G|]. split; [exact G'|]. lia.
Qed.

(** A positive constant [c <= C]. *)
Definition const_le (C : Z) (c : float) : Prop :=
  rate_like64 c /\ (K c <= C * one)%Z.

Lemma const_mantissa (C : Z) (c : float) :
  (C <= 2 ^ 20)%Z -> const_le C c ->
  exists m n, Prim2SF c = S754_finite false m (- n) /\
    valid (S754_finite false m (- n)) /\ (0 <= n)%Z /\ (Zpos m <= C * 2 ^ n)%Z.
Proof.
  intros HC [Hr Hk]. destruct (rate_like_finite c Hr) as (m & e & E).
  pose proof (Prim2SF_valid c) as V. rewrite E in V.
  unfold K in Hk. rewrite E in Hk. cbn [key] in Hk. cbv zeta in Hk.
  destruct (valid_finite_range _ _ _ V) as (Re & Dm & Nm).
  unfold one, ulp24 in Hk. change (2 ^ 24 * 2 ^ 1050)%Z with (2 ^ 1074)%Z in Hk.
  unfold emin64 in *.
  assert (He : (e < 0)%Z).
  { destruct (Z.lt_ge_cases e 0) as [L|L]; [exact L|exfalso].
    specialize (Nm ltac:(lia)).
    pose proof (digits_bounds (Zpos m) ltac:(lia)) as [Bm _]. rewrite Nm in Bm.
    change (2 ^ (53 - 1))%Z with (2 ^ 52)%Z in Bm.
    assert (2 ^ 1074 <= 2 ^ (e - -1074))%Z by (apply Z.pow_le_mono_r; lia).
    assert (2 ^ 52 * 2 ^ 1074 <= Zpos m * 2 ^ (e - -1074))%Z
      by (apply Z.mul_le_mono_nonneg; lia).
    assert (C * 2 ^ 1074 <= 2 ^ 20 * 2 ^ 1074)%Z
      by (apply Z.mul_le_mono_nonneg_r; lia).
    assert (2 ^ 20 * 2 ^ 1074 < 2 ^ 52 * 2 ^ 1074)%Z by reflexivity.
    lia. }
  exists m, (- e)%Z. rewrite Z.opp_involutive.
  split; [exact E|]. split; [exact V|]. split; [lia|].
  assert (P : (0 < 2 ^ (e - -1074))%Z) by (apply pow2_pos; lia).
  apply (Z.mul_le_mono_pos_r _ _ _ P).
  rewrite <- Z.mul_assoc, <- Z.pow_add_r by lia.
  replace (- e + (e - -1074))%Z with 1074%Z by lia. exact Hk.
Qed.

Lemma near_mul (C D B : Z) (c a a' : float) :
  (C <= 2 ^ 20)%Z -> const_le C c -> near D B a a' -> (C * B <= cap)%Z ->
  near (C * D + 2 * ulp24) (C * B + ulp24) (a * c) (a' * c) /\
  near (C * D + 2 * ulp24) (C * B + ulp24) (c * a) (c * a').
Proof.
  intros HC Hc Ha Hcap.
  pose proof (near_nonneg _ _ _ _ Ha) as (N1 & N2 & N3).
  destruct (const_mantissa C c HC Hc) as (m & n & E & V & Hn & Hm).
  destruct Hc as [Hr Hk].
  destruct Ha as (Ga & Ga' & Ha & HB).
  pose proof cap_INF as HI. pose proof ulp24_pos as Hu.
  assert (C0 : (0 < C)%Z).
  { pose proof (pow2_pos n Hn). destruct (Z.le_gt_cases C 0); [|lia].
    assert (C * 2 ^ n <= 0)%Z by (apply Z.mul_nonpos_nonneg; lia). lia. }
  assert (Bc : (B <= cap)%Z).
  { destruct (Z.le_gt_cases B cap); [trivial|].
    assert (1 * B <= C * B)%Z by (apply Z.mul_le_mono_nonneg_r; lia). lia. }
  unfold K in *.
  destruct (SFmul_key _ m (- n) Ga ltac:(lia) V) as (G1 & G2 & K1 & K2).
  destruct (SFmul_key _ m (- n) Ga' ltac:(lia) V) as (G1' & G2' & K1' & K2').
  rewrite <- E, <- !mul_spec in G1, G2, K1, K2, G1', G2', K1', K2'.
  replace (emin64 + - n)%Z with (emin64 - n)%Z in * by lia.
  assert (HP : (0 < 2 ^ n)%Z) by now apply pow2_pos.
  set (P := (2 ^ n)%Z) in *.
  set (x := key (Prim2SF a)) in *. set (x' := key (Prim2SF a')) in *.
  assert (M1 : (x * Zpos m <= x' * Zpos m)%Z)
    by (apply Z.mul_le_mono_nonneg_r; lia).
  assert (M2 : (x' * Zpos m <= (C * B) * P)%Z).
  { replace (C * B * P)%Z with (B * (C * P))%Z by ring.
    apply Z.mul_le_mono_nonneg; lia. }
  assert (M3 : (x' * Zpos m <= x * Zpos m + (C * D) * P)%Z).
  { replace (x' * Zpos m)%Z with (x * Zpos m + (x' - x) * Zpos m)%Z by ring.
    replace (C * D * P)%Z with (D * (C * P))%Z by ring.
    apply Z.add_le_mono_l. apply Z.mul_le_mono_nonneg; lia. }
  assert (M4 : (C * B * P <= cap * P)%Z)
    by (apply Z.mul_le_mono_nonneg_r; lia).
  assert (M0 : (0 <= x * Zpos m)%Z) by (apply Z.mul_nonneg_nonneg; lia).
  pose proof (rnd_slack (x * Zpos m) n Hn ltac:(lia)) as S1.
  pose proof (rnd_slack (x' * Zpos m) n Hn ltac:(lia)) as S2.
  pose proof (rnd_key_mono (x * Zpos m) (x' * Zpos m) (emin64 - n) ltac:(lia)) as Mo.
  specialize (Mo (fun _ => ltac:(pose proof (shift_of_ge (x * Zpos m) (emin64 - n)); lia))).
  cbv zeta in S1, S2. fold P in S1, S2.
  set (R := rnd_key (x * Zpos m) (emin64 - n)) in *.
  set (R' := rnd_key (x' * Zpos m) (emin64 - n)) in *.
  assert (U1 : (R' <= R + (C * D + 2 * ulp24))%Z).
  { apply (Z.mul_le_mono_pos_r _ _ P HP).
    replace ((R + (C * D + 2 * ulp24)) * P)%Z
      with ((R + ulp24) * P + C * D * P + ulp24 * P)%Z by ring.
    replace (R' * P)%Z with ((R' - ulp24) * P + ulp24 * P)%Z by ring. lia. }
  assert (U2 : (R' <= C * B + ulp24)%Z).
  { apply (Z.mul_le_mono_pos_r _ _ P HP).
    replace ((C * B + ulp24) * P)%Z with (C * B * P + ulp24 * P)%Z by ring.
    replace (R' * P)%Z with ((R' - ulp24) * P + ulp24 * P)%Z by ring. lia. }
  unfold near, K. rewrite K1, K2, K1', K2'. fold R R'.
  split; (split; [assumption|split; [assumption|lia]]).
Qed.

(** [min(k, c)] *)
Lemma near_min (D B : Z) (c k k' : float) :
  good (Prim2SF c) -> near D B k k' -> near D B (py_min k c) (py_min k' c).
Proof.
  intros Gc Hk. pose proof (near_nonneg _ _ _ _ Hk) as (N1 & N2 & N3).
  destruct Hk as (G & G' & H & HB).
  unfold py_min. change (fltb c k) with (c <? k). change (fltb c k') with (c <? k').
  pose proof (good_ltb c k Gc G) as L. pose proof (good_ltb c k' Gc G') as L'.
  unfold near, K in *.
  destruct (c <? k) eqn:E, (c <? k') eqn:E'.
  - pose proof (proj1 L eq_refl). pose proof (proj1 L' eq_refl).
    split; [assumption|split; [assumption|lia]].
  - pose proof (proj1 L eq_refl).
    assert (~ (key (Prim2SF c) < key (Prim2SF k'))%Z)
      by (intros X; apply L' in X; discriminate).
    lia.
  - pose proof (proj1 L' eq_refl).
    assert (~ (key (Prim2SF c) < key (Prim2SF k))%Z)
      by (intros X; apply L in X; discriminate).
    split; [assumption|split; [assumption|lia]].
  - split; [assumption|split; [assumption|lia]].
Qed.

(** [max(0.0, k - c)] *)
Lemma near_max_sub (D B : Z) (c k k' : float) :
  good (Prim2SF c) -> (K c < INF)%Z -> near D B k k' -> (B <= cap)%Z ->
  near (D + 2 * ulp24) (B + ulp24) (py_max 0 (k - c)) (py_max 0 (k' - c)).
Proof.
  intros Gc Fc Hk Hcap. pose proof (near_nonneg _ _ _ _ Hk) as (N1 & N2 & N3).
  destruct Hk as (G & G' & H & HB).
  pose proof cap_INF as HI. pose proof ulp24_pos as Hu.
  pose proof (good_key_nonneg _ Gc) as Nc.
  unfold K in *.
  assert (G0 : good (Prim2SF 0)) by (split; reflexivity).
  assert (Sub : forall x, good (Prim2SF x) -> (key (Prim2SF x) <= B)%Z ->
            ((key (Prim2SF x) <= key (Prim2SF c))%Z /\ py_max 0 (x - c) = 0) \/
            ((key (Prim2SF c) < key (Prim2SF x))%Z /\ py_max 0 (x - c) = x - c /\
             good (Prim2SF (x - c)) /\
             key (Prim2SF (x - c))
               = rnd_key (key (Prim2SF x) - key (Prim2SF c)) emin64)).
  { intros x Gx Bx.
    change (py_max 0 (x - c)) with (if 0 <? x - c then x - c else 0).
    destruct (Z.le_gt_cases (key (Prim2SF x)) (key (Prim2SF c))) as [L|L].
    - left. split; [exact L|].
      destruct (float_sub_abs x c Gx Gc ltac:(lia) ltac:(lia)) as (_ & _ & _ & P).
      destruct (0 <? x - c); [|reflexivity].
      pose proof (proj1 P eq_refl). lia.
    - right. split; [lia|].
      destruct (float_sub_abs x c Gx Gc ltac:(lia) ltac:(lia)) as (_ & _ & _ & P).
      rewrite (proj2 P ltac:(lia)). split; [reflexivity|].
      destruct (SFsub_key _ _ Gx Gc ltac:(lia) ltac:(lia)) as [S _].
      rewrite sub_spec. apply S. lia. }
  unfold near, K.
  destruct (Sub k G ltac:(lia)) as [(L & ->)|(L & -> & Gs & Ks)];
    destruct (Sub k' G' ltac:(lia)) as [(L' & ->)|(L' & -> & Gs' & Ks')].
  - change (key (Prim2SF 0)) with 0%Z. split; [assumption|split; [assumption|lia]].
  - change (key (Prim2SF 0)) with 0%Z. rewrite Ks'.
    pose proof (rnd_slack0 (key (Prim2SF k') - key (Prim2SF c)) ltac:(lia)).
    pose proof (good_key_nonneg _ Gs') as X. rewrite Ks' in X.
    split; [assumption|split; [assumption|lia]].
  - lia.
  - rewrite Ks, Ks'.
    pose proof (rnd_slack0 (key (Prim2SF k') - key (Prim2SF c)) ltac:(lia)).
    pose proof (rnd_slack0 (key (Prim2SF k) - key (Prim2SF c)) ltac:(lia)).
    pose proof (rnd_key_mono (key (Prim2SF k) - key (Prim2SF c))
                  (key (Prim2SF k') - key (Prim2SF c)) emin64 ltac:(lia)
                  (fun _ => shift_of_emin _)).
    split; [assumption|split; [assumption|lia]].
Qed.
End Near.

(** ** The constants and the table on the grid *)

Section NearBill.
Local Open Scope float_scope.
Import Round64 Grid64.

Ltac key_bound := unfold K; apply Z.leb_le; vm_compute; reflexivity.

Ltac bound_entry :=
  intros y name v Hy; pattern y; revert Hy; apply year_cases;
  unfold rate, service_fee, getitem, TARIFFS;
  cbn [lookup String.eqb Ascii.eqb Bool.eqb bind rates service];
  repeat match goal with
    | |- context [String.eqb name ?k] =>
        destruct (String.eqb name k); [intros [= <-]; key_bound|]
    end;
  discriminate.

(** Every rate of the table is at most 3. *)
Lemma rates_bound (y name : string) (r : float) :
  In y YEARS -> rate y name = Ok r -> (K r <= 3 * one)%Z.
Proof. revert y name r. bound_entry. Qed.

(** Every service charge of the table is at most 500. *)
Lemma services_bound (y name : string) (s : float) :
  In y YEARS -> service_fee y name = Ok s -> (K s <= 500 * one)%Z.
Proof. revert y name s. bound_entry. Qed.

Lemma rate_const (y name : string) (r : float) :
  In y YEARS -> rate y name = Ok r -> const_le 3 r.
Proof.
  intros Hy H. split; [exact (rates_ok (F:=float) _ _ _ Hy H)|].
  exact (rates_bound _ _ _ Hy H).
Qed.

Lemma levy_const : const_le 1 LEVY_RATE.
Proof. split; [exact (levy_rate_ok (F:=float))|key_bound]. Qed.

Lemma tax_const : const_le 1 TAX_RATE.
Proof. split; [exact (tax_rate_ok (F:=float))|key_bound]. Qed.

Lemma key_300 : K 300 = (300 * one)%Z.
Proof. vm_compute. reflexivity. Qed.

Lemma key_30 : K 30 = (30 * one)%Z.
Proof. vm_compute. reflexivity. Qed.

Lemma key_2_19_one : K 524288 = (2 ^ 19 * one)%Z.
Proof. vm_compute. reflexivity. Qed.

Lemma key_tolerance : (167772 * ulp24 <= K 0.01)%Z.
Proof. key_bound. Qed.

Lemma one_ulp : one = (16777216 * ulp24)%Z.
Proof. reflexivity. Qed.

Lemma cap_ulp : cap = (2251799813685248 * ulp24)%Z.
Proof. reflexivity. Qed.

(** ** The total *)

Lemma near_total (c : string) (De Be Bs : Z) (e e' s : float) :
  near De Be e e' -> good (Prim2SF s) -> (K s <= Bs)%Z ->
  (3 * Be + 2 * Bs + 6 * ulp24 <= cap)%Z ->
  near (3 * De + 12 * ulp24) (3 * Be + 2 * Bs + 6 * ulp24)
    (total_of c e s) (total_of c e' s).
Proof.
  intros He Gs Hs Hcap.
  pose proof (near_nonneg _ _ _ _ He) as (N1 & N2 & N3).
  pose proof ulp24_pos as Hu.
  pose proof (good_key_nonneg _ Gs) as Ns. fold (K s) in Ns.
  pose proof (near_refl Bs s Gs Hs) as Hss.
  pose proof (near_add _ _ _ _ _ _ _ _ He Hss ltac:(lia)) as Hes.
  destruct (near_mul 1 De Be LEVY_RATE e e' ltac:(lia) levy_const He ltac:(lia))
    as [_ Hlv].
  pose proof (near_add _ _ _ _ _ _ _ _ Hes Hlv ltac:(lia)) as Hsum.
  assert (Htax : near (De + 4 * ulp24) (Be + Bs + 2 * ulp24)
                   (tax_of c e s) (tax_of c e' s)).
  { unfold tax_of. destruct (is_taxable c).
    - destruct (near_mul 1 _ _ TAX_RATE _ _ ltac:(lia) tax_const Hes ltac:(lia))
        as [_ Ht].
      eapply near_weaken; [exact Ht|lia|lia].
    - apply (near_weaken 0 0); [|lia|lia].
      apply near_refl; [split; reflexivity|]. vm_compute. discriminate. }
  pose proof (near_add _ _ _ _ _ _ _ _ Hsum Htax ltac:(lia)) as Htot.
  eapply near_weaken; [exact Htot|lia|lia].
Qed.

(** ** The energy charge *)

Lemma near_flat (r : float) (D B : Z) (k k' : float) :
  const_le 3 r -> near D B k k' -> (3 * B <= cap)%Z ->
  near (6 * D + 12 * ulp24) (6 * B + 6 * ulp24) (k * r) (k' * r).
Proof.
  intros Hr Hk Hcap.
  pose proof (near_nonneg _ _ _ _ Hk) as (N1 & N2 & N3).
  pose proof ulp24_pos as Hu.
  destruct (near_mul 3 D B r k k' ltac:(lia) Hr Hk ltac:(lia)) as [H _].
  eapply near_weaken; [exact H|lia|lia].
Qed.

Lemma near_blocks (r1 r2 : float) (D B : Z) (k k' : float) :
  const_le 3 r1 -> const_le 3 r2 -> near D B k k' ->
  (6 * B + 6 * ulp24 <= cap)%Z ->
  near (6 * D + 12 * ulp24) (6 * B + 6 * ulp24)
    (block_energy k r1 r2) (block_energy k' r1 r2).
Proof.
  intros Hr1 Hr2 Hk Hcap.
  pose proof (near_nonneg _ _ _ _ Hk) as (N1 & N2 & N3).
  pose proof ulp24_pos as Hu.
  assert (G300 : good (Prim2SF 300)) by (split; reflexivity).
  assert (F300 : (K 300 < INF)%Z) by reflexivity.
  pose proof (near_min D B 300 k k' G300 Hk) as Hmin.
  pose proof (near_max_sub D B 300 k k' G300 F300 Hk ltac:(lia)) as Hmax.
  destruct (near_mul 3 _ _ r1 _ _ ltac:(lia) Hr1 Hmin ltac:(lia)) as [H1 _].
  destruct (near_mul 3 _ _ r2 _ _ ltac:(lia) Hr2 Hmax ltac:(lia)) as [H2 _].
  pose proof (near_add _ _ _ _ _ _ _ _ H1 H2 ltac:(lia)) as H.
  eapply near_weaken; [exact H|lia|lia].
Qed.
(** ** The bill

    Two consumptions [k <= k' <= k + D] up to 524288, priced on the same
    side of the lifeline threshold, give totals that differ by at most
    [18 D + 48 * 2^-24]. *)
Lemma near_bill (y c : string) (D B : Z) (k k' : float) :
  In y YEARS -> In c CATEGORIES -> near D B k k' -> (B <= 2 ^ 19 * one)%Z ->
  (c = "Residential"%string -> (k' <=? 30) = true \/ (k <=? 30) = false) ->
  exists b b',
    calculate_bill y c k = Ok b /\ calculate_bill y c k' = Ok b' /\
    near (18 * D + 48 * ulp24) cap (total b) (total b').
Proof.
  intros Hy Hc Hk HB Hside.
  pose proof (near_nonneg _ _ _ _ Hk) as (N1 & N2 & N3).
  pose proof ulp24_pos as Hu. pose proof one_ulp as H1. pose proof cap_ulp as Hcp.
  assert (Gk : good (Prim2SF k)) by apply Hk.
  assert (Gk' : good (Prim2SF k')) by apply Hk.
  pose proof (nonneg_passes k (proj2 (nonneg_good k) Gk)) as Hn.
  pose proof (nonneg_passes k' (proj2 (nonneg_good k') Gk')) as Hn'.
  assert (Tot : forall c0 e e' s,
            near (6 * D + 12 * ulp24) (6 * B + 6 * ulp24) e e' ->
            (0 <=? s) = true -> (K s <= 500 * one)%Z ->
            near (18 * D + 48 * ulp24) cap (total_of c0 e s) (total_of c0 e' s)).
  { intros c0 e e' s He Hs Bs. apply nonneg_good in Hs.
    pose proof (near_total c0 _ _ _ e e' s He Hs Bs ltac:(lia)) as H.
    eapply near_weaken; [exact H|lia|lia]. }
  revert Hside. pattern c. revert Hc. apply category_cases.
  - intros Hside. specialize (Hside eq_refl).
    destruct (residential_bill y k Hy Hn)
      as (rl & r1 & r2 & sl & so & Hrl & Hr1 & Hr2 & Hsl & Hso & H).
    destruct (residential_bill y k' Hy Hn')
      as (rl' & r1' & r2' & sl' & so' & Hrl' & Hr1' & Hr2' & Hsl' & Hso' & H').
    rewrite Hrl in Hrl'. injection Hrl' as <-.
    rewrite Hr1 in Hr1'. injection Hr1' as <-.
    rewrite Hr2 in Hr2'. injection Hr2' as <-.
    rewrite Hsl in Hsl'. injection Hsl' as <-.
    rewrite Hso in Hso'. injection Hso' as <-.
    change (fleb k RES_LIFELINE_MAX) with (k <=? 30) in H.
    change (fleb k' RES_LIFELINE_MAX) with (k' <=? 30) in H'.
    assert (Same : (k <=? 30) = (k' <=? 30)).
    { assert (G30 : good (Prim2SF 30)) by (split; reflexivity).
      pose proof (good_leb k 30 Gk G30) as L.
      pose proof (good_leb k' 30 Gk' G30) as L'.
      destruct Hk as (_ & _ & Hk & _). unfold K in Hk.
      destruct Hside as [E|E]; rewrite E.
      - apply L. apply L' in E. lia.
      - destruct (k' <=? 30); [|reflexivity].
        pose proof (proj1 L' eq_refl). pose proof (proj2 L ltac:(lia)). congruence. }
    rewrite <- Same in H'. rewrite H, H'.
    eexists _, _. split; [reflexivity|]. split; [reflexivity|].
    destruct (k <=? 30).
    + rewrite !total_bill_of. apply Tot.
      * apply near_flat; [exact (rate_const _ _ _ Hy Hrl)|exact Hk|lia].
      * exact (services_ok (F:=float) _ _ _ Hy Hsl).
      * exact (services_bound _ _ _ Hy Hsl).
    + rewrite !total_block_bill. apply Tot.
      * apply near_blocks; [exact (rate_const _ _ _ Hy Hr1)
                           |exact (rate_const _ _ _ Hy Hr2)|exact Hk|lia].
      * exact (services_ok (F:=float) _ _ _ Hy Hso).
      * exact (services_bound _ _ _ Hy Hso).
  - intros _.
    destruct (non_residential_bill y k Hy Hn) as (r1 & r2 & s & Hr1 & Hr2 & Hs & H).
    destruct (non_residential_bill y k' Hy Hn')
      as (r1' & r2' & s' & Hr1' & Hr2' & Hs' & H').
    rewrite Hr1 in Hr1'. injection Hr1' as <-.
    rewrite Hr2 in Hr2'. injection Hr2' as <-.
    rewrite Hs in Hs'. injection Hs' as <-.
    rewrite H, H'.
    eexists _, _. split; [reflexivity|]. split; [reflexivity|].
    rewrite !total_block_bill. apply Tot.
    + apply near_blocks; [exact (rate_const _ _ _ Hy Hr1)
                         |exact (rate_const _ _ _ Hy Hr2)|exact Hk|lia].
    + exact (services_ok (F:=float) _ _ _ Hy Hs).
    + exact (services_bound _ _ _ Hy Hs).
  - intros c' Hc' _.
    destruct (slt_bill y c' k Hy Hc' Hn) as (r & s & Hr & Hs & H).
    destruct (slt_bill y c' k' Hy Hc' Hn') as (r' & s' & Hr' & Hs' & H').
    rewrite Hr in Hr'. injection Hr' as <-.
    rewrite Hs in Hs'. injection Hs' as <-.
    rewrite H, H'.
    eexists _, _. split; [reflexivity|]. split; [reflexivity|].
    rewrite !total_bill_of. apply Tot.
    + apply near_flat; [exact (rate_const _ _ _ Hy Hr)|exact Hk|lia].
    + exact (services_ok (F:=float) _ _ _ Hy Hs).
    + exact (services_bound _ _ _ Hy Hs).
Qed.
End NearBill.

(** * The round trip on attained targets *)

Section RoundTrip.
Local Open Scope float_scope.
Import Round64 Grid64.

(** The tolerance test of the bisection on two totals. *)
Lemma tolerance_test (t target tol : float) :
  good (Prim2SF t) -> good (Prim2SF target) ->
  (K t <= cap)%Z -> (K target <= cap)%Z -> (0.01 <=? tol) = true ->
  ((Z.abs (K t - K target) <= 147600 * ulp24)%Z ->
   (abs (t - target) <=? tol) = true) /\
  ((abs (t - target) <=? tol) = false ->
   if t - target <? 0 then (K t < K target)%Z else (K target < K t)%Z).
Proof.
  intros Gt Gg Bt Bg Htol.
  pose proof cap_INF as HI. pose proof ulp24_pos as Hu. pose proof cap_ulp as Hc.
  pose proof key_tolerance as H01.
  apply leb_key in Htol. destruct Htol as (_ & Ntol & Ktol).
  fold (K 0.01) (K tol) in Ktol.
  pose proof (good_key_nonneg _ Gt) as Nt. pose proof (good_key_nonneg _ Gg) as Ng.
  fold (K t) in Nt. fold (K target) in Ng.
  destruct (float_sub_abs t target Gt Gg ltac:(unfold K in *; lia)
              ltac:(unfold K in *; lia)) as (Ga & Ka & Hneg & Hpos).
  fold (K t) (K target) in Ka, Hneg, Hpos.
  assert (Pass : forall d, (Z.abs (K t - K target) <= d)%Z -> (d + ulp24 <= K tol)%Z ->
            (d <= cap)%Z -> (abs (t - target) <=? tol) = true).
  { intros d Hd Hdt Hdc. apply leb_key.
    split; [now apply good_is_num|]. split; [exact Ntol|].
    rewrite Ka. fold (K tol).
    pose proof (rnd_slack0 (Z.abs (K t - K target)) ltac:(lia)). lia. }
  split.
  - intros Hd. apply (Pass (147600 * ulp24)%Z); lia.
  - intros Hfail.
    destruct (t - target <? 0) eqn:E; [now apply Hneg|].
    assert (~ (K t < K target)%Z) by (intros X; apply Hneg in X; discriminate).
    destruct (Z.eq_dec (K t) (K target)) as [Eq|Ne]; [|lia].
    rewrite (Pass 0%Z) in Hfail; [discriminate|rewrite Eq, Z.sub_diag; reflexivity|lia|lia].
Qed.

(** The midpoint of two neighbours of a dyadic grid is exact. *)
Lemma grid_mid (lo hi : float) (a m : Z) :
  good (Prim2SF lo) -> good (Prim2SF hi) -> (0 <= a)%Z -> (1051 <= m)%Z ->
  K lo = (a * 2 ^ m)%Z -> K hi = ((a + 1) * 2 ^ m)%Z ->
  (K hi <= 2 ^ 19 * one)%Z ->
  good (Prim2SF ((lo + hi) / 2)) /\
  K ((lo + hi) / 2) = ((2 * a + 1) * 2 ^ (m - 1))%Z.
Proof.
  intros Gl Gh Ha Hm Kl Kh Bh.
  destruct (float_add_good lo hi Gl Gh) as [Gs Ks]. fold (K lo) (K hi) (K (lo + hi)) in Ks.
  assert (P : (0 < 2 ^ (m - 1050))%Z) by (apply pow2_pos; lia).
  assert (E : (2 ^ m = 2 ^ (m - 1050) * ulp24)%Z).
  { unfold ulp24. rewrite <- Z.pow_add_r by lia. f_equal. lia. }
  assert (E1 : (2 ^ m = 2 ^ (m - 1) * 2 ^ 1)%Z).
  { rewrite <- Z.pow_add_r by lia. f_equal. lia. }
  assert (Hsum : (K lo + K hi = (2 * a + 1) * 2 ^ (m - 1050) * ulp24)%Z).
  { rewrite Kl, Kh, E. ring. }
  assert (HX : (0 <= (2 * a + 1) * 2 ^ (m - 1050) <= 2 ^ 52)%Z).
  { split; [apply Z.mul_nonneg_nonneg; lia|].
    rewrite Kh, E in Bh. unfold one in Bh.
    assert ((a + 1) * 2 ^ (m - 1050) <= 2 ^ 19 * 2 ^ 24)%Z.
    { apply (Z.mul_le_mono_pos_r _ _ ulp24 ulp24_pos).
      rewrite !Z.mul_assoc in Bh. exact Bh. }
    assert ((2 * a + 1) * 2 ^ (m - 1050) <= 2 * ((a + 1) * 2 ^ (m - 1050)))%Z.
    { rewrite Z.mul_assoc. apply Z.mul_le_mono_nonneg_r; lia. }
    change (2 ^ 19 * 2 ^ 24)%Z with 8796093022208%Z in *.
    change (2 ^ 52)%Z with 4503599627370496%Z. lia. }
  rewrite Hsum, (grid_exact _ HX) in Ks.
  assert (Ks' : K (lo + hi) = ((2 * a + 1) * 2 ^ (m - 1) * 2 ^ 1)%Z).
  { rewrite Ks, <- Z.mul_assoc, <- E, <- Z.mul_assoc, <- E1. reflexivity. }
  assert (Fs : (K (lo + hi) < INF)%Z).
  { rewrite Ks. pose proof ulp24_pos.
    assert ((2 * a + 1) * 2 ^ (m - 1050) * ulp24 <= 2 ^ 52 * ulp24)%Z
      by (apply Z.mul_le_mono_nonneg_r; lia).
    assert (2 ^ 52 * ulp24 < INF)%Z by reflexivity. lia. }
  destruct (float_half (lo + hi) Gs Fs) as [Gm Km].
  split; [exact Gm|]. unfold K in *. rewrite Km, Ks'.
  apply rne_at_exact; [|lia].
  apply Z.mul_nonneg_nonneg; [lia|]. apply Z.pow_nonneg. lia.
Qed.
(** The bill on a consumption of the search range. *)
Lemma bill_at (y c : string) (x : float) :
  In y YEARS -> In c CATEGORIES -> good (Prim2SF x) -> (K x <= 2 ^ 19 * one)%Z ->
  exists b,
    calculate_bill y c x = Ok b /\ good (Prim2SF (total b)) /\
    (K (total b) <= cap)%Z.
Proof.
  intros Hy Hc Gx Bx.
  destruct (near_bill y c 0 (2 ^ 19 * one) x x Hy Hc) as (b & b' & H & H' & N).
  - now apply near_refl.
  - lia.
  - intros _. destruct (x <=? 30); auto.
  - exists b. split; [exact H|].
    rewrite H in H'. injection H' as <-.
    destruct N as (G & _ & _ & B). split; [exact G|exact B].
Qed.

(** A smaller total comes from a smaller consumption. *)
Lemma total_order (y c : string) (x1 x2 : float) (b1 b2 : BillResult float) :
  In y YEARS -> In c CATEGORIES ->
  good (Prim2SF x1) -> good (Prim2SF x2) ->
  calculate_bill y c x1 = Ok b1 -> calculate_bill y c x2 = Ok b2 ->
  (K (total b1) < K (total b2))%Z -> (K x1 < K x2)%Z.
Proof.
  intros Hy Hc G1 G2 H1 H2 Hlt.
  destruct (Z.lt_ge_cases (K x1) (K x2)) as [L|L]; [exact L|exfalso].
  assert (Hle : (x2 <=? x1) = true) by (apply good_leb; trivial; unfold K in L; lia).
  assert (Hn : nonneg x2) by exact (proj2 (nonneg_good x2) G2).
  destruct (total_monotone_gen y c x2 x1 Hy Hc Hn Hle) as (c2 & c1 & E2 & E1 & Hm).
  rewrite H1 in E1. injection E1 as <-. rewrite H2 in E2. injection E2 as <-.
  apply leb_key in Hm. unfold K in *. lia.
Qed.

(** The midpoint of a bracket of the dyadic grid, and the bill there. *)
Lemma bracket_mid (y c : string) (lo hi : float) (a m : Z) :
  In y YEARS -> In c CATEGORIES ->
  good (Prim2SF lo) -> good (Prim2SF hi) -> (0 <= a)%Z -> (1063 <= m)%Z ->
  K lo = (a * 2 ^ m)%Z -> K hi = ((a + 1) * 2 ^ m)%Z ->
  (K hi <= 2 ^ 19 * one)%Z ->
  exists bm,
    good (Prim2SF ((lo + hi) / 2)) /\
    K ((lo + hi) / 2) = ((2 * a + 1) * 2 ^ (m - 1))%Z /\
    K lo = (2 * a * 2 ^ (m - 1))%Z /\
    K hi = ((2 * a + 1 + 1) * 2 ^ (m - 1))%Z /\
    K ((lo + hi) / 2) = (K lo + 2 ^ (m - 1))%Z /\
    K hi = (K ((lo + hi) / 2) + 2 ^ (m - 1))%Z /\
    (0 < 2 ^ (m - 1))%Z /\
    calculate_bill y c ((lo + hi) / 2) = Ok bm /\
    bill_total y c ((lo + hi) / 2) = Ok (total bm) /\
    good (Prim2SF (total bm)) /\ (K (total bm) <= cap)%Z.
Proof.
  intros Hy Hc Gl Gh Ha Hm Kl Kh Bh.
  destruct (grid_mid lo hi a m Gl Gh Ha ltac:(lia) Kl Kh Bh) as [Gm Km].
  assert (E1 : (2 ^ m = 2 ^ (m - 1) * 2)%Z).
  { change 2%Z with (2 ^ 1)%Z at 3. rewrite <- Z.pow_add_r by lia. f_equal. lia. }
  assert (P : (0 < 2 ^ (m - 1))%Z) by (apply pow2_pos; lia).
  assert (Kl' : K lo = (2 * a * 2 ^ (m - 1))%Z) by (rewrite Kl, E1; ring).
  assert (Kh' : K hi = ((2 * a + 1 + 1) * 2 ^ (m - 1))%Z) by (rewrite Kh, E1; ring).
  assert (Klm : K ((lo + hi) / 2) = (K lo + 2 ^ (m - 1))%Z) by (rewrite Km, Kl'; ring).
  assert (Kmh : K hi = (K ((lo + hi) / 2) + 2 ^ (m - 1))%Z) by (rewrite Km, Kh'; ring).
  destruct (bill_at y c ((lo + hi) / 2) Hy Hc Gm ltac:(lia)) as (bm & Hbm & Gb & Bb).
  exists bm. repeat (split; [assumption|]).
  split; [|split; assumption].
  unfold bill_total. now rewrite Hbm.
Qed.

(** In a bracket [2^-11] wide that holds a consumption whose total is
    the target, the midpoint passes the tolerance test. *)
Lemma narrow_bracket (y c : string) (target tol k0 : float)
    (b0 bm : BillResult float) (lo hi : float) (a : Z) :
  In y YEARS -> In c CATEGORIES ->
  good (Prim2SF target) -> (0.01 <=? tol) = true ->
  good (Prim2SF k0) -> calculate_bill y c k0 = Ok b0 -> K (total b0) = K target ->
  good (Prim2SF lo) -> good (Prim2SF hi) -> (0 <= a)%Z ->
  K lo = (a * 2 ^ 1063)%Z -> K hi = ((a + 1) * 2 ^ 1063)%Z ->
  (K hi <= 2 ^ 19 * one)%Z ->
  (K lo <= K k0 <= K hi)%Z -> (K lo = 0 \/ K lo < K k0)%Z ->
  good (Prim2SF ((lo + hi) / 2)) ->
  K ((lo + hi) / 2) = (K lo + 2 ^ 1062)%Z ->
  K hi = (K ((lo + hi) / 2) + 2 ^ 1062)%Z ->
  calculate_bill y c ((lo + hi) / 2) = Ok bm ->
  (abs (total bm - target) <=? tol) = true.
Proof.
  intros Hy Hc Gg Htol Gk0 Hb0 Ktg Gl Gh Ha Kl Kh Bh Hk0 Hlo Gm Klm Kmh Hbm.
  pose proof ulp24_pos as Hu. pose proof one_ulp as H1. pose proof cap_ulp as Hcp.
  assert (W2 : (2 ^ 1062 = 4096 * ulp24)%Z) by reflexivity.
  assert (W : (2 ^ 1063 = 8192 * ulp24)%Z) by reflexivity.
  rewrite W2 in Klm, Kmh. rewrite W in Kl, Kh.
  set (mid := (lo + hi) / 2) in *.
  assert (G30 : good (Prim2SF 30)) by (split; reflexivity).
  pose proof key_30 as K30.
  pose proof (good_leb k0 30 Gk0 G30) as L0. pose proof (good_leb mid 30 Gm G30) as Lm.
  fold (K k0) (K 30) in L0. fold (K mid) (K 30) in Lm.
  assert (Side : ((k0 <=? 30) = true /\ (mid <=? 30) = true) \/
                 ((k0 <=? 30) = false /\ (mid <=? 30) = false)).
  { destruct (Z.le_gt_cases (a + 1) 61440) as [A|A].
    - left.
      assert ((a + 1) * (8192 * ulp24) <= 61440 * (8192 * ulp24))%Z
        by (apply Z.mul_le_mono_nonneg_r; lia).
      split; [apply L0|apply Lm]; lia.
    - right.
      assert (61440 * (8192 * ulp24) <= a * (8192 * ulp24))%Z
        by (apply Z.mul_le_mono_nonneg_r; lia).
      split.
      + destruct (k0 <=? 30); [|reflexivity]. pose proof (proj1 L0 eq_refl). lia.
      + destruct (mid <=? 30); [|reflexivity]. pose proof (proj1 Lm eq_refl). lia. }
  assert (Bk0 : (K k0 <= 2 ^ 19 * one)%Z) by lia.
  assert (Bm : (K mid <= 2 ^ 19 * one)%Z) by lia.
  destruct (bill_at y c k0 Hy Hc Gk0 Bk0) as (b & Hb & Gb & Bb).
  rewrite Hb0 in Hb. injection Hb as <-.
  assert (Gtm : good (Prim2SF (total bm)) /\ (K (total bm) <= cap)%Z).
  { destruct (bill_at y c mid Hy Hc Gm Bm) as (b & Hb & Gb' & Bb').
    rewrite Hbm in Hb. injection Hb as <-. now split. }
  destruct Gtm as [Gtm Btm].
  apply (tolerance_test (total bm) target tol Gtm Gg Btm ltac:(lia) Htol).
  destruct (Z.le_gt_cases (K mid) (K k0)) as [L|L].
  - assert (N : near (8192 * ulp24) (2 ^ 19 * one) mid k0)
      by (unfold near; split; [assumption|split; [assumption|lia]]).
    destruct (near_bill y c _ _ mid k0 Hy Hc N ltac:(lia)) as (b & b' & Hb & Hb' & Nt).
    { intros _. destruct Side as [[S _]|[_ S]]; auto. }
    rewrite Hbm in Hb. injection Hb as <-. rewrite Hb0 in Hb'. injection Hb' as <-.
    destruct Nt as (_ & _ & Nt & _). lia.
  - assert (N : near (8192 * ulp24) (2 ^ 19 * one) k0 mid)
      by (unfold near; split; [assumption|split; [assumption|lia]]).
    destruct (near_bill y c _ _ k0 mid Hy Hc N ltac:(lia)) as (b & b' & Hb & Hb' & Nt).
    { intros _. destruct Side as [[_ S]|[S _]]; auto. }
    rewrite Hbm in Hb'. injection Hb' as <-. rewrite Hb0 in Hb. injection Hb as <-.
    destruct Nt as (_ & _ & Nt & _). lia.
Qed.

(** The bisection of a bracket of the dyadic grid that holds a
    consumption whose total is the target: within [m - 1063] rounds the
    bracket is [2^-11] wide, and then its midpoint passes the tolerance
    test. *)
Lemma bisect_attained (y c : string) (target tol k0 : float) (b0 : BillResult float) :
  In y YEARS -> In c CATEGORIES ->
  good (Prim2SF target) -> (0.01 <=? tol) = true ->
  good (Prim2SF k0) -> calculate_bill y c k0 = Ok b0 -> K (total b0) = K target ->
  forall (n : nat) (lo hi : float) (a m : Z),
    good (Prim2SF lo) -> good (Prim2SF hi) -> (0 <= a)%Z -> (1063 <= m)%Z ->
    K lo = (a * 2 ^ m)%Z -> K hi = ((a + 1) * 2 ^ m)%Z ->
    (K hi <= 2 ^ 19 * one)%Z ->
    (K lo <= K k0 <= K hi)%Z -> (K lo = 0 \/ K lo < K k0)%Z ->
    (m - 1063 <= Z.of_nat n)%Z ->
    exists r,
      bisect (bill_total y c) target tol n lo hi = Ok r /\
      within_tolerance (bill_total y c) target tol r.
Proof.
  intros Hy Hc Gg Htol Gk0 Hb0 Ktg.
  pose proof ulp24_pos as Hu. pose proof one_ulp as H1. pose proof cap_ulp as Hcp.
  induction n as [|n IH]; intros lo hi a m Gl Gh Ha Hm Kl Kh Bh Hk0 Hlo Hn.
  all: destruct (bracket_mid y c lo hi a m Hy Hc Gl Gh Ha Hm Kl Kh Bh)
    as (bm & Gm & Km & Kl' & Kh' & Klm & Kmh & P & Hbm & Hbt & Gtm & Btm).
  all: set (mid := (lo + hi) / 2) in *.
  - assert (m = 1063%Z) as -> by lia.
    exists mid. split; [reflexivity|].
    exists (total bm). split; [exact Hbt|].
    exact (narrow_bracket y c target tol k0 b0 bm lo hi a Hy Hc Gg Htol Gk0 Hb0 Ktg
             Gl Gh Ha Kl Kh Bh Hk0 Hlo Gm Klm Kmh Hbm).
  - change (bisect (bill_total y c) target tol (S n) lo hi)
      with (bind (bill_total y c mid)
              (fun t => if abs (t - target) <=? tol then Ok mid
                        else if t - target <? 0
                             then bisect (bill_total y c) target tol n mid hi
                             else bisect (bill_total y c) target tol n lo mid)).
    rewrite Hbt. cbn [bind].
    destruct (abs (total bm - target) <=? tol) eqn:Etest.
    { exists mid. split; [reflexivity|]. exists (total bm). now split. }
    assert (Hm' : (1063 < m)%Z).
    { destruct (Z.eq_dec m 1063) as [->|]; [|lia].
      rewrite (narrow_bracket y c target tol k0 b0 bm lo hi a Hy Hc Gg Htol Gk0 Hb0 Ktg
                 Gl Gh Ha Kl Kh Bh Hk0 Hlo Gm Klm Kmh Hbm) in Etest.
      discriminate. }
    assert (Bg : (K target <= cap)%Z).
    { destruct (bill_at y c k0 Hy Hc Gk0 ltac:(lia)) as (b & Hb & _ & Bb).
      rewrite Hb0 in Hb. injection Hb as <-. lia. }
    pose proof (proj2 (tolerance_test (total bm) target tol Gtm Gg Btm Bg Htol) Etest)
      as Hdir.
    destruct (total bm - target <? 0).
    + assert (L : (K mid < K k0)%Z).
      { apply (total_order y c mid k0 bm b0); trivial. lia. }
      apply (IH mid hi (2 * a + 1)%Z (m - 1)%Z); trivial; lia.
    + assert (L : (K k0 < K mid)%Z).
      { apply (total_order y c k0 mid b0 bm); trivial. lia. }
      apply (IH lo mid (2 * a)%Z (m - 1)%Z); trivial; lia.
Qed.

Lemma dbl_key (j : nat) :
  (j <= 19)%nat ->
  good (Prim2SF (dbl j)) /\ K (dbl j) = (2 ^ (1074 + Z.of_nat j))%Z.
Proof.
  intros Hj.
  do 20 (destruct j as [|j]; [split; [split; reflexivity|vm_compute; reflexivity]|]).
  lia.
Qed.


End RoundTrip.
